(** * Order matching engine: a shallow embedding

    The engine (class [OrderMatching]) keeps limit orders in a document
    store, matches each incoming order against the best resting order of
    the other side, records a market-data snapshot after every pass and
    serialises the passes with a [processing] flag.

    The repository holds two copies of the class.  The definitions follow
    the one with the hooks ([addHooks], [onAfterMatched], ...); the older
    copy, src/order-matching.js, is followed in [Legacy] where it
    differs.

    Layout of this file: first the definitions (the decimal library the
    engine computes volumes with, the documents, the store queries, the
    engine's methods, the interleaving of calls with the drain), then the
    lemmas and the theorems about them. *)

From Stdlib Require Import ZArith QArith Qminmax Qround List String Ascii Bool Lia Lqa Arith.
Import ListNotations.

Local Open Scope Z_scope.

(* ===================================================================== *)
(** ** Decimal numbers (the part of bignumber.js the engine uses)        *)
(* ===================================================================== *)

(** Volumes are stored as strings and read through [BigNumber(...)].  A
    value is a finite decimal [coeff * 10^-scale].  Strings are read and
    written in positional notation, [-?(digits(.digits?)?|.digits)];
    exponent notation is outside this model.  Reading anything else
    raises (the library's default [ERRORS] mode): [parse] gives [None]. *)
Module BN.

Record t : Set := mk { coeff : Z; scale : nat }.

Definition pow10 (n : nat) : Z := 10 ^ Z.of_nat n.

(** The rational a decimal stands for. *)
Definition toQ (d : t) : Q := coeff d # Z.to_pos (pow10 (scale d)).

Definition zero : t := mk 0 0.

Definition digit_of (c : ascii) : option Z :=
  let n := nat_of_ascii c in
  if ((48 <=? n)%nat && (n <=? 57)%nat)%bool then Some (Z.of_nat (n - 48)) else None.

Definition ascii_of_digit (d : Z) : ascii := ascii_of_nat (48 + Z.to_nat d).

(** Value of a digit string read left to right, starting from [acc]. *)
Fixpoint digits_val (acc : Z) (s : string) : option Z :=
  match s with
  | EmptyString => Some acc
  | String c r =>
      match digit_of c with
      | Some d => digits_val (acc * 10 + d) r
      | None => None
      end
  end.

(** Strings made of decimal digits only. *)
Fixpoint all_digits (s : string) : bool :=
  match s with
  | EmptyString => true
  | String c r => match digit_of c with Some _ => all_digits r | None => false end
  end.

(** Cuts a string at its first dot. *)
Fixpoint split_dot (s : string) : string * option string :=
  match s with
  | EmptyString => (EmptyString, None)
  | String c r =>
      if Ascii.eqb c "." then (EmptyString, Some r)
      else let (a, b) := split_dot r in (String c a, b)
  end.

Definition is_empty (s : string) : bool :=
  match s with EmptyString => true | _ => false end.

Definition parse_unsigned (s : string) : option t :=
  match split_dot s with
  | (i, None) =>
      if is_empty i then None
      else option_map (fun v => mk v 0) (digits_val 0 i)
  | (i, Some f) =>
      if (is_empty i && is_empty f)%bool then None
      else option_map (fun v => mk v (String.length f)) (digits_val 0 (i ++ f))
  end.

Definition opp (d : t) : t := mk (- coeff d) (scale d).

(** [new BigNumber(s)]. *)
Definition parse (s : string) : option t :=
  match s with
  | String "-" r => option_map opp (parse_unsigned r)
  | _ => parse_unsigned s
  end.

(** Canonical form: no trailing zero in the fraction. *)
Fixpoint normalize_aux (s : nat) (c : Z) : t :=
  match s with
  | O => mk c 0
  | S s' => if c mod 10 =? 0 then normalize_aux s' (c / 10) else mk c (S s')
  end.

Definition normalize (d : t) : t := normalize_aux (scale d) (coeff d).

(** The [w] low decimal digits of [n], most significant first. *)
Fixpoint fixed (w : nat) (n : Z) : string :=
  match w with
  | O => EmptyString
  | S w' => fixed w' (n / 10) ++ String (ascii_of_digit (n mod 10)) EmptyString
  end.

(** Drops leading zeros, keeping the last character. *)
Fixpoint strip0 (s : string) : string :=
  match s with
  | String c r =>
      match r with
      | EmptyString => s
      | String _ _ => if Ascii.eqb c "0" then strip0 r else s
      end
  | EmptyString => s
  end.

Definition int_str (n : Z) : string :=
  strip0 (fixed (S (Z.to_nat (Z.log2 n))) n).

(** [x.toString()] (also what a String field of the schema stores when it
    is assigned a BigNumber). *)
Definition toString (d : t) : string :=
  let n := normalize d in
  let a := Z.abs (coeff n) in
  let p := pow10 (scale n) in
  ((if (coeff n <? 0)%Z then "-" else "") ++
   int_str (a / p) ++
   match scale n with
   | O => ""
   | S _ => String "." (fixed (scale n) (a mod p))
   end)%string.

(** [x.valueOf()]: as [toString] (the two differ on negative zero only,
    which this model does not distinguish from zero). *)
Definition valueOf (d : t) : string := toString d.

(** [x.greaterThan(0)]. *)
Definition isPositive (d : t) : bool := 0 <? coeff d.

Definition leb (a b : t) : bool :=
  coeff a * pow10 (scale b) <=? coeff b * pow10 (scale a).

Definition ltb (a b : t) : bool := negb (leb b a).

Definition eqb (a b : t) : bool := (leb a b && leb b a)%bool.

(** [BigNumber.min(a, b)], [BigNumber.max(a, b)]. *)
Definition min (a b : t) : t := if leb a b then a else b.
Definition max (a b : t) : t := if leb a b then b else a.

(** [a.minus(b)]. *)
Definition minus (a b : t) : t :=
  let s := Nat.max (scale a) (scale b) in
  mk (coeff a * pow10 (s - scale a) - coeff b * pow10 (s - scale b)) s.

(** Drops the trailing zeros of a whole number. *)
Fixpoint strip10 (fuel : nat) (c : Z) : Z :=
  match fuel with
  | O => c
  | S f => if c =? 0 then 0 else if c mod 10 =? 0 then strip10 f (c / 10) else c
  end.

(** The number of significant digits: those left when the leading and the
    trailing zeros are dropped. *)
Definition significant (d : t) : nat :=
  let a := Z.abs (coeff d) in
  if a =? 0 then O
  else String.length (int_str (strip10 (S (Z.to_nat (Z.log2 a))) a)).

Definition isInteger (d : t) : bool := Nat.eqb (scale (normalize d)) O.

(** [new BigNumber(n)] for a JavaScript number [n] raises (in the default
    [ERRORS] mode) when [n] has more than 15 significant digits, unless it
    is a whole number up to 2^53 - 1. *)
Definition refuses (d : t) : bool :=
  ((15 <? significant d)%nat &&
   (negb (isInteger d)
    || (9007199254740991 * pow10 (scale d) <? Z.abs (coeff d))))%bool.

End BN.

(** [BigNumber(s)]: [None] when the constructor raises. *)
Definition BigNumber (s : string) : option BN.t := BN.parse s.


(* ===================================================================== *)
(** ** Documents                                                         *)
(* ===================================================================== *)

(** [status] of the order schema: enum ['unprocessed', 'processed',
    'canceled'], default ['unprocessed']. *)
Inductive Status : Set := unprocessed | processed | canceled.

Definition Status_eqb (a b : Status) : bool :=
  match a, b with
  | unprocessed, unprocessed | processed, processed | canceled, canceled => true
  | _, _ => false
  end.

(** The order schema.  [limit] is a JavaScript number, taken here as a
    finite decimal (it is only compared and printed); the volumes are
    strings; [created] is a timestamp in milliseconds. *)
Record Order : Set := mkOrder {
  _id : nat;
  limit : BN.t;
  originalVolume : string;
  currentVolume : string;
  isSelling : bool;
  status : Status;
  userId : string;
  created : Z
}.

(** The marketData schema (all six values are strings); [mdCreated] is its
    [created] field. *)
Record MarketData : Set := mkMarketData {
  sellVolume : string;
  sellPrice : string;
  buyVolume : string;
  buyPrice : string;
  matchVolume : string;
  matchPrice : string;
  mdCreated : Z
}.

(** The JavaScript values the engine handles; an [ObjectId] is taken as
    its number in the order of generation. *)
Inductive jsval : Set :=
| JUndefined
| JString (s : string)
| JNumber (n : BN.t)
| JObjectId (id : nat).

(** [!v] is [negb (truthy v)]. *)
Definition truthy (v : jsval) : bool :=
  match v with
  | JUndefined => false
  | JString s => negb (BN.is_empty s)
  | JNumber n => negb (BN.coeff n =? 0)
  | JObjectId _ => true
  end.

(** The cast a String field of a schema applies to what it is given. *)
Definition castString (v : jsval) : string :=
  match v with
  | JUndefined => ""
  | JString s => s
  | JNumber n => BN.toString n
  | JObjectId id => BN.toString (BN.mk (Z.of_nat id) 0)
  end.

(** What [catch (err)] receives. *)
Inductive Error : Set :=
| BigNumberError (text : string)   (* new BigNumber() not a number *)
| StoreError                       (* a store round trip was rejected *)
| ValidationError (path : string)  (* a required path is missing *)
| ReferenceError (name : string).  (* an identifier is not defined *)

(** The arguments of one [onAfterMatched(task, order, matching, volume,
    price)] call whose transaction was then committed: one fill. *)
Record Matched : Set := mkMatched {
  incoming : Order;
  counterparty : Order;
  fillVolume : string;
  fillPrice : jsval
}.

(* ===================================================================== *)
(** ** The store                                                         *)
(* ===================================================================== *)

(** A collection is the list of its documents in natural order (the order
    a scan returns them in, which is the order of insertion: documents are
    never deleted).  [find(...).sort(key)] is a stable sort of the
    documents that pass the filter, so that documents with equal keys stay
    in natural order; [findOne] takes the first. *)

Section Query.
Context {A : Type}.
Variable before : A -> A -> bool.   (* strictly earlier in the sort order *)

Fixpoint insertSorted (x : A) (l : list A) : list A :=
  match l with
  | [] => [x]
  | y :: l' => if before y x then y :: insertSorted x l' else x :: l
  end.

Definition sortBy (l : list A) : list A := fold_right insertSorted [] l.

Definition findOne (filter : A -> bool) (docs : list A) : option A :=
  hd_error (sortBy (List.filter filter docs)).

End Query.

(** Sort directions, [1] and [-1]. *)
Inductive Direction : Set := Asc | Desc.

Definition byLimit (d : Direction) (a b : Order) : bool :=
  match d with
  | Asc => BN.ltb (limit a) (limit b)
  | Desc => BN.ltb (limit b) (limit a)
  end.

Definition withCurrentVolume (o : Order) (v : string) : Order :=
  mkOrder (_id o) (limit o) (originalVolume o) v (isSelling o) (status o)
          (userId o) (created o).

Definition withStatus (o : Order) (s : Status) : Order :=
  mkOrder (_id o) (limit o) (originalVolume o) (currentVolume o) (isSelling o) s
          (userId o) (created o).

(** [update({_id: id}, {currentVolume: v})]: the first document with that
    id is written; the second component is [nModified], 1 when the write
    changed the document. *)
Fixpoint updateCurrentVolume (id : nat) (v : string) (docs : list Order)
  : list Order * nat :=
  match docs with
  | [] => ([], O)
  | o :: r =>
      if Nat.eqb (_id o) id
      then (withCurrentVolume o v :: r,
            if String.eqb (currentVolume o) v then O else 1%nat)
      else let (r', n) := updateCurrentVolume id v r in (o :: r', n)
  end.

(** [update({_id: id}, {status: s})]. *)
Fixpoint updateStatus (id : nat) (s : Status) (docs : list Order) : list Order :=
  match docs with
  | [] => []
  | o :: r =>
      if Nat.eqb (_id o) id then withStatus o s :: r
      else o :: updateStatus id s r
  end.

(* ===================================================================== *)
(** ** The engine                                                        *)
(* ===================================================================== *)

(** The state of an [OrderMatching] object and of its two collections.
    [nextId] stands for the [ObjectId] generator (ids are never reused);
    [console] is what [console.log(err)] has printed, oldest first. *)
Record Engine : Set := mkEngine {
  orders : list Order;
  marketData : list MarketData;
  processing : bool;
  nextId : nat;
  console : list Error
}.

(** What a call meets: the [k]-th store round trip of the call is issued at
    time [now k] and is rejected by the store when [rejects k]. *)
Record Env : Type := mkEnv {
  now : nat -> Z;
  rejects : nat -> bool
}.

(** A call in progress: the engine and the number of round trips made. *)
Record Run : Set := mkRun {
  eng : Engine;
  trips : nat
}.

Definition tick (r : Run) : Run := mkRun (eng r) (S (trips r)).

Definition setOrders (e : Engine) (l : list Order) : Engine :=
  mkEngine l (marketData e) (processing e) (nextId e) (console e).

Definition setProcessing (e : Engine) (b : bool) : Engine :=
  mkEngine (orders e) (marketData e) b (nextId e) (console e).

Definition addMarketData (e : Engine) (m : MarketData) : Engine :=
  mkEngine (orders e) (marketData e ++ [m]) (processing e) (nextId e) (console e).

(** [console.log(err)]. *)
Definition log (e : Engine) (err : Error) : Engine :=
  mkEngine (orders e) (marketData e) (processing e) (nextId e) (console e ++ [err]).

Definition onEngine (f : Engine -> Engine) (r : Run) : Run := mkRun (f (eng r)) (trips r).

(** The filter of the counterparty query of [processOrder]. *)
Definition eligible (order m : Order) : bool :=
  negb (String.eqb (currentVolume m) "0")
  && negb (Status_eqb (status m) canceled)
  && (if isSelling order
      then BN.leb (limit order) (limit m)      (* limit: {$gte: order.limit} *)
      else BN.leb (limit m) (limit order))     (* limit: {$lte: order.limit} *)
  && Bool.eqb (isSelling m) (negb (isSelling order)).

(** The counterparty query: [findOne({...}).sort({limit: order.isSelling ?
    -1 : 1})]. *)
Definition findMatching (order : Order) (docs : list Order) : option Order :=
  findOne (byLimit (if isSelling order then Desc else Asc)) (eligible order) docs.

(** Line 131, the price of a fill: [order.isSelling ?
    BigNumber.max(order.limit, matching.limit).valueOf() : order.limit].
    [BigNumber.max] makes a BigNumber of each of the two numbers, and
    raises when one of them is refused; [None] stands for that. *)
Definition priceOf (order matching : Order) : option jsval :=
  if isSelling order
  then if BN.refuses (limit order) || BN.refuses (limit matching) then None
       else Some (JString (BN.valueOf (BN.max (limit order) (limit matching))))
  else Some (JNumber (limit order)).

(** The number [BigNumber.max] raised on. *)
Definition refusedLimit (order matching : Order) : string :=
  BN.toString (if BN.refuses (limit order) then limit order else limit matching).

(** How one turn of the [while] loop of [processOrder] ends. *)
Inductive Turn : Set :=
| Raised (err : Error) (r : Run)
| Left (r : Run)
| Turned (order : Order) (m : Matched) (r : Run).

(** One turn of [while (BigNumber(order.currentVolume).greaterThan(0))],
    for the in-memory document [order]: the query, the transaction with
    the two updates, and what [then] does with its result.  The
    [onAfterMatched] hook is the one [addHooks()] installs by default,
    which does nothing. *)
Definition turn (env : Env) (order : Order) (r : Run) : Turn :=
  match BigNumber (currentVolume order) with
  | None => Raised (BigNumberError (currentVolume order)) r
  | Some ov =>
      if negb (BN.isPositive ov) then Left r
      else if rejects env (trips r) then Raised StoreError (tick r)
      else
        let r1 := tick r in
        match findMatching order (orders (eng r1)) with
        | None => Left r1
        | Some matching =>
            match BigNumber (currentVolume matching) with
            | None => Raised (BigNumberError (currentVolume matching)) r1
            | Some mv =>
                let volume := BN.valueOf (BN.min ov mv) in
                match priceOf order matching with
                | None => Raised (BigNumberError (refusedLimit order matching)) r1
                | Some price =>
                match BigNumber volume with
                | None => Raised (BigNumberError volume) r1
                | Some v =>
                    let orderVolume := BN.toString (BN.minus ov v) in
                    let matchingVolume := BN.toString (BN.minus mv v) in
                    if rejects env (trips r1) then Raised StoreError (tick r1)
                    else
                      let (docs1, nModified) :=
                        updateCurrentVolume (_id order) orderVolume (orders (eng r1)) in
                      let (docs2, _) :=
                        updateCurrentVolume (_id matching) matchingVolume docs1 in
                      let order' :=
                        if Nat.eqb nModified 1
                        then withCurrentVolume order orderVolume
                        else order in
                      Turned order' (mkMatched order matching volume price)
                             (tick (onEngine (fun e => setOrders e docs2) r1))
                end
                end
            end
        end
  end.

(** How the loop as a whole ends. *)
Inductive LoopEnd : Set :=
| Completed              (* fell out of the loop *)
| Threw (err : Error)    (* an exception left it *)
| StillTurning.          (* the given number of turns did not end it *)

Record Loop : Set := mkLoop {
  loopEnd : LoopEnd;
  loopOrder : Order;          (* the in-memory document *)
  loopFills : list Matched;   (* the fills committed, oldest first *)
  loopRun : Run
}.

(** At most [n] turns of the loop. *)
Fixpoint matchLoop (env : Env) (n : nat) (order : Order) (r : Run) : Loop :=
  match n with
  | O => mkLoop StillTurning order [] r
  | S n' =>
      match turn env order r with
      | Raised err r' => mkLoop (Threw err) order [] r'
      | Left r' => mkLoop Completed order [] r'
      | Turned order' m r' =>
          let l := matchLoop env n' order' r' in
          mkLoop (loopEnd l) (loopOrder l) (m :: loopFills l) (loopRun l)
      end
  end.

Definition byCreatedDesc (a b : MarketData) : bool := mdCreated b <? mdCreated a.

(** The query of [getLatestMarketData]: [findOne().sort({created: -1})]. *)
Definition latestOf (l : list MarketData) : option MarketData :=
  findOne byCreatedDesc (fun _ => true) l.

Definition resting (selling : bool) (o : Order) : bool :=
  negb (Status_eqb (status o) canceled)
  && negb (String.eqb (currentVolume o) "0")
  && Bool.eqb (isSelling o) selling.

(** The result of a pass. *)
Record Pass : Set := mkPass {
  passEnd : LoopEnd;
  passFills : list Matched;
  passRun : Run
}.

(** The value of [latestVolume] (and [latestPrice]) after the loop: that of
    the last fill, [''] when there was none (a turn that assigns them and
    does not commit its fill raises, and the pass ends in the [catch]). *)
Definition lastVolume (fills : list Matched) : jsval :=
  match rev fills with
  | [] => JString ""
  | m :: _ => JString (fillVolume m)
  end.

Definition lastPrice (fills : list Matched) : jsval :=
  match rev fills with
  | [] => JString ""
  | m :: _ => fillPrice m
  end.

(** [if (!latestVolume && !latestPrice && latestMarketData) { ... }]: the
    values of [latestVolume] and [latestPrice] after it. *)
Definition carryForward (latestMarketData : option MarketData)
    (latestVolume latestPrice : jsval) : jsval * jsval :=
  match latestMarketData with
  | Some latest =>
      if negb (truthy latestVolume) && negb (truthy latestPrice)
      then (JString (matchVolume latest), JString (matchPrice latest))
      else (latestVolume, latestPrice)
  | None => (latestVolume, latestPrice)
  end.

(** The document given to [MarketData.create]. *)
Definition snapshotOf (latestSellOrder latestBuyOrder : option Order)
    (latestVolume latestPrice : jsval) (t : Z) : MarketData :=
  mkMarketData
    (match latestSellOrder with Some o => currentVolume o | None => "" end)
    (match latestSellOrder with Some o => BN.toString (limit o) | None => "" end)
    (match latestBuyOrder with Some o => currentVolume o | None => "" end)
    (match latestBuyOrder with Some o => BN.toString (limit o) | None => "" end)
    (castString latestVolume)
    (castString latestPrice)
    t.

(** The statements of [processOrder] after the loop, inside the same
    [try]: mark the order processed, read the best resting sell and buy,
    read the latest snapshot, append the new one, clear the flag.  A
    rejected round trip goes to the [catch], which logs and returns;
    [getLatestMarketData] has a [try]/[catch] of its own and gives
    [undefined] when its read is rejected. *)
Definition finishPass (env : Env) (order : Order) (fills : list Matched) (r : Run) : Pass :=
  let caught r' := mkPass (Threw StoreError) fills (onEngine (fun e => log e StoreError) r') in
  if rejects env (trips r) then caught (tick r)
  else
    let r1 := tick (onEngine (fun e => setOrders e (updateStatus (_id order) processed (orders e))) r) in
    if rejects env (trips r1) then caught (tick r1)
    else
      let latestSellOrder := findOne (byLimit Asc) (resting true) (orders (eng r1)) in
      let r2 := tick r1 in
      if rejects env (trips r2) then caught (tick r2)
      else
        let latestBuyOrder := findOne (byLimit Desc) (resting false) (orders (eng r2)) in
        let r3 := tick r2 in
        let latestMarketData :=
          if rejects env (trips r3) then None else latestOf (marketData (eng r3)) in
        let r4 :=
          tick (if rejects env (trips r3)
                then onEngine (fun e => log e StoreError) r3 else r3) in
        let latest := carryForward latestMarketData (lastVolume fills) (lastPrice fills) in
        if rejects env (trips r4) then caught (tick r4)
        else
          let snapshot :=
            snapshotOf latestSellOrder latestBuyOrder (fst latest) (snd latest)
                       (now env (trips r4)) in
          mkPass Completed fills
            (tick (onEngine (fun e => setProcessing (addMarketData e snapshot) false) r4)).

(** A bound on the turns of the loop.  A turn that goes round either
    writes "0" into the incoming order or into the counterparty, or (when
    the write of the incoming order modifies nothing, so that the
    in-memory document keeps its volume) takes the volume of the incoming
    order off the counterparty's: [stepsText ov s] is how often [ov] can
    be taken off the volume [s] while more than [ov] is left. *)
Definition stepsText (ov : BN.t) (s : string) : nat :=
  match BigNumber s with
  | Some mv => if BN.ltb ov mv then Z.to_nat (Qfloor (BN.toQ mv / BN.toQ ov)) else O
  | None => O
  end.

Fixpoint weight (w : string -> nat) (l : list Order) : nat :=
  match l with
  | [] => O
  | o :: r => (w (currentVolume o) + weight w r)%nat
  end.

Definition stepsFor (order : Order) (l : list Order) : nat :=
  match BigNumber (currentVolume order) with
  | Some ov => if BN.isPositive ov then weight (stepsText ov) l else O
  | None => O
  end.

Definition turnsFor (order : Order) (l : list Order) : nat :=
  (stepsFor order l + 2 * List.length l + 2)%nat.

(** [processOrder(order)] for a document [order] (the method returns at
    once when it is given none).  [n] bounds the turns of the loop; the
    result is [StillTurning] if that was not enough. *)
Definition processOrderWithin (n : nat) (env : Env) (order : Order) (r : Run) : Pass :=
  let l := matchLoop env n order r in
  match loopEnd l with
  | Completed => finishPass env (loopOrder l) (loopFills l) (loopRun l)
  | Threw err => mkPass (Threw err) (loopFills l) (onEngine (fun e => log e err) (loopRun l))
  | StillTurning => mkPass StillTurning (loopFills l) (loopRun l)
  end.

(** The pass, with as many turns as its loop can make (see
    [matchLoop_ends_any]). *)
Definition processOrder (env : Env) (order : Order) (r : Run) : Pass :=
  processOrderWithin (turnsFor order (orders (eng r))) env order r.

Definition byCreatedAsc (a b : Order) : bool := created a <? created b.

Definition isUnprocessed (o : Order) : bool := Status_eqb (status o) unprocessed.

(** The result of a drain. *)
Record Drain : Set := mkDrain {
  drainFills : list Matched;
  drainRun : Run
}.

(** [matchNextOrder()], which calls itself again after each pass; [n]
    bounds the number of passes. *)
Fixpoint matchNextOrderWithin (n : nat) (env : Env) (r : Run) : Drain :=
  if processing (eng r) then mkDrain [] r
  else
    let r0 := onEngine (fun e => setProcessing e true) r in
    if rejects env (trips r0)
    then mkDrain [] (tick (onEngine (fun e => setProcessing (log e StoreError) false) r0))
    else
      let r1 := tick r0 in
      match findOne byCreatedAsc isUnprocessed (orders (eng r1)) with
      | None => mkDrain [] (onEngine (fun e => setProcessing e false) r1)
      | Some order =>
          let p := processOrder env order r1 in
          match n with
          | O => mkDrain (passFills p) (passRun p)
          | S n' =>
              let d := matchNextOrderWithin n' env (passRun p) in
              mkDrain (passFills p ++ drainFills d) (drainRun d)
          end
      end.

(** Each pass either leaves the flag set, which stops the drain, or marks
    one more order processed: one pass per document always suffices. *)
Definition matchNextOrder (env : Env) (r : Run) : Drain :=
  matchNextOrderWithin (List.length (orders (eng r))) env r.

(** What a method call gives its caller. *)
Record Outcome : Set := mkOutcome {
  returned : jsval;             (* the value the promise resolves to *)
  fills : list Matched;         (* the fills committed during the call *)
  after : Engine
}.

(** [placeOrder(limit, volume, userId, isSelling)], with the hooks that
    [addHooks()] installs by default, followed to the end of the drain it
    starts (as it goes when no other call is made in the meantime; for
    calls made while the drain runs see [react]).  The commit of the new
    document checks the schema's [required] paths: a required string must
    not be empty.  The method has no [return] statement. *)
Definition placeOrder (env : Env) (limit : BN.t) (volume userId : string)
    (isSelling : bool) (e : Engine) : Outcome :=
  let orderId := nextId e in
  let e0 := mkEngine (orders e) (marketData e) (processing e) (S orderId) (console e) in
  if BN.is_empty volume
  then mkOutcome JUndefined [] (log e0 (ValidationError "originalVolume"))
  else if BN.is_empty userId
  then mkOutcome JUndefined [] (log e0 (ValidationError "userId"))
  else if rejects env O
  then mkOutcome JUndefined [] (log e0 StoreError)
  else
    let order := mkOrder orderId limit volume volume isSelling unprocessed userId (now env O) in
    let d := matchNextOrder env (mkRun (setOrders e0 (orders e0 ++ [order])) 1) in
    mkOutcome JUndefined (drainFills d) (eng (drainRun d)).

(** [cancelOrder(orderId)], with the default hook, taken whole on a store
    that answers: the update is queued, the order read, the transaction
    run.  (The call split at its [await], with the read or the run
    rejected and with other methods running the shared task in between,
    is [CancelAsked] and [CancelRead] of [move].) *)
Definition cancelOrder (orderId : nat) (e : Engine) : Outcome :=
  mkOutcome JUndefined [] (setOrders e (updateStatus orderId canceled (orders e))).

(** [getOrdersByUserId(userId)]: the documents of the user, in the order
    of the collection; when the read is rejected the [catch] logs the
    error and the method gives [undefined] ([None]). *)
Definition getOrdersByUserId (env : Env) (user : string) (e : Engine)
    : option (list Order) * Engine :=
  if rejects env O then (None, log e StoreError)
  else (Some (List.filter (fun o => String.eqb (userId o) user) (orders e)), e).

(** [getLatestMarketData()]: the latest snapshot, [null] (the inner
    [None]) when there is none; when the read is rejected the [catch]
    logs the error and the method gives [undefined] (the outer
    [None]). *)
Definition getLatestMarketData (env : Env) (e : Engine)
    : option (option MarketData) * Engine :=
  if rejects env O then (None, log e StoreError)
  else (Some (latestOf (marketData e)), e).

(** The engine right after construction on empty collections. *)
Definition initial : Engine := mkEngine [] [] false O [].

(** The calls made on an engine. *)
Inductive Call : Type :=
| PlaceOrder (env : Env) (limit : BN.t) (volume userId : string) (isSelling : bool)
| CancelOrder (orderId : nat)
| MatchNextOrder (env : Env).

Definition call (c : Call) (e : Engine) : Outcome :=
  match c with
  | PlaceOrder env l v u s => placeOrder env l v u s e
  | CancelOrder id => cancelOrder id e
  | MatchNextOrder env =>
      let d := matchNextOrder env (mkRun e O) in
      mkOutcome JUndefined (drainFills d) (eng (drainRun d))
  end.

(** The engines that calls lead to, with all the fills committed so far. *)
Inductive reachable : Engine -> list Matched -> Prop :=
| reach_initial : reachable initial []
| reach_call e fs c :
    reachable e fs -> reachable (after (call c e)) (fs ++ fills (call c e)).

(** A store that always answers, with a clock that advances one
    millisecond per round trip from [t0]. *)
Definition healthy (t0 : Z) : Env := mkEnv (fun k => t0 + Z.of_nat k) (fun _ => false).

(* ===================================================================== *)
(** ** Calls and the drain, interleaved                                  *)
(* ===================================================================== *)

(** [placeOrder] and [matchNextOrder] itself call [this.matchNextOrder()]
    without awaiting it: the drain goes on in the background, one store
    round trip after the other, while further calls are made.  A world is
    the engine together with the place where the drain is suspended.
    Calls are let in between the turns of the loop and between passes;
    the round trips of one turn, and those of one call, are taken
    together.  (For a [cancelOrder] that is overtaken between its queued
    update and its run see [move].) *)
Inductive Suspended : Set :=
| Idle                                           (* no drain is running *)
| Picking                                        (* at the query of matchNextOrder *)
| Matching (order : Order) (fills : list Matched). (* in the loop of processOrder *)

Record World : Set := mkWorld {
  engine : Engine;
  drain : Suspended
}.

(** [this.matchNextOrder()] up to its first [await]: nothing when the flag
    is set, else the flag is set and the query sent. *)
Definition trigger (w : World) : World :=
  if processing (engine w) then w
  else mkWorld (setProcessing (engine w) true) Picking.

(** What happens next: a call is made, or the store answers the drain
    (with the environment [env] for the round trips up to the next
    suspension). *)
Inductive Event : Type :=
| Called (c : Call)
| Resumed (env : Env).

(** [placeOrder] up to the point where its promise resolves: the commit of
    the new document and the un-awaited [this.matchNextOrder()]. *)
Definition placed (env : Env) (limit : BN.t) (volume userId : string)
    (isSelling : bool) (w : World) : World :=
  let e := engine w in
  let orderId := nextId e in
  let e0 := mkEngine (orders e) (marketData e) (processing e) (S orderId) (console e) in
  if BN.is_empty volume
  then mkWorld (log e0 (ValidationError "originalVolume")) (drain w)
  else if BN.is_empty userId
  then mkWorld (log e0 (ValidationError "userId")) (drain w)
  else if rejects env O
  then mkWorld (log e0 StoreError) (drain w)
  else
    let order := mkOrder orderId limit volume volume isSelling unprocessed userId (now env O) in
    trigger (mkWorld (setOrders e0 (orders e0 ++ [order])) (drain w)).

(** The drain from one suspension to the next, with the fills committed
    on the way. *)
Definition resume (env : Env) (w : World) : World * list Matched :=
  let e := engine w in
  match drain w with
  | Idle => (w, [])
  | Picking =>
      if rejects env O
      then (mkWorld (setProcessing (log e StoreError) false) Idle, [])
      else
        match findOne byCreatedAsc isUnprocessed (orders e) with
        | None => (mkWorld (setProcessing e false) Idle, [])
        | Some order => (mkWorld e (Matching order []), [])
        end
  | Matching order fs =>
      match turn env order (mkRun e O) with
      | Raised err r => (mkWorld (log (eng r) err) Idle, [])
      | Turned order' m r => (mkWorld (eng r) (Matching order' (fs ++ [m])), [m])
      | Left r =>
          let p := finishPass env order fs r in
          match passEnd p with
          | Completed => (trigger (mkWorld (eng (passRun p)) Idle), [])
          | _ => (mkWorld (eng (passRun p)) Idle, [])
          end
      end
  end.

Definition react (ev : Event) (w : World) : World * list Matched :=
  match ev with
  | Called (PlaceOrder env l v u s) => (placed env l v u s w, [])
  | Called (CancelOrder id) =>
      (mkWorld (after (cancelOrder id (engine w))) (drain w), [])
  | Called (MatchNextOrder _) =>
      (trigger w, [])
  | Resumed env => resume env w
  end.

(** Events one after the other. *)
Fixpoint reactAll (evs : list Event) (w : World) : World * list Matched :=
  match evs with
  | [] => (w, [])
  | ev :: evs' =>
      let (w1, fs1) := react ev w in
      let (w2, fs2) := reactAll evs' w1 in
      (w2, fs1 ++ fs2)
  end.

Definition initialWorld : World := mkWorld initial Idle.

(** What is known of the volume a call places. *)
Definition placing (P : string -> Prop) (c : Call) : Prop :=
  match c with
  | PlaceOrder _ _ v _ _ => P v
  | _ => True
  end.

(** What is known of the volume an event places. *)
Definition placingEvent (P : string -> Prop) (ev : Event) : Prop :=
  match ev with
  | Called c => placing P c
  | Resumed _ => True
  end.

(** The environment as the drain meets it from round trip [k] on. *)
Definition shift (k : nat) (env : Env) : Env :=
  mkEnv (fun i => now env (k + i)) (fun i => rejects env (k + i)).

(* ===================================================================== *)
(** ** The copy in src/order-matching.js                                 *)
(* ===================================================================== *)

(** The repository holds a second, older copy of the class.  Its
    [processOrder] differs from the one above in three places, followed
    here: [then] tests [results[0].nModified = 1] (an assignment, always
    true), the snapshot condition reads the undeclared [matchPrice], and
    the flag is not cleared at the end. *)
Module Legacy.

Definition turn (env : Env) (order : Order) (r : Run) : Turn :=
  match BigNumber (currentVolume order) with
  | None => Raised (BigNumberError (currentVolume order)) r
  | Some ov =>
      if negb (BN.isPositive ov) then Left r
      else if rejects env (trips r) then Raised StoreError (tick r)
      else
        let r1 := tick r in
        match findMatching order (orders (eng r1)) with
        | None => Left r1
        | Some matching =>
            match BigNumber (currentVolume matching) with
            | None => Raised (BigNumberError (currentVolume matching)) r1
            | Some mv =>
                let volume := BN.valueOf (BN.min ov mv) in
                match priceOf order matching with
                | None => Raised (BigNumberError (refusedLimit order matching)) r1
                | Some price =>
                match BigNumber volume with
                | None => Raised (BigNumberError volume) r1
                | Some v =>
                    let orderVolume := BN.toString (BN.minus ov v) in
                    let matchingVolume := BN.toString (BN.minus mv v) in
                    if rejects env (trips r1) then Raised StoreError (tick r1)
                    else
                      let (docs1, _) :=
                        updateCurrentVolume (_id order) orderVolume (orders (eng r1)) in
                      let (docs2, _) :=
                        updateCurrentVolume (_id matching) matchingVolume docs1 in
                      Turned (withCurrentVolume order orderVolume)
                             (mkMatched order matching volume price)
                             (tick (onEngine (fun e => setOrders e docs2) r1))
                end
                end
            end
        end
  end.

Fixpoint matchLoop (env : Env) (n : nat) (order : Order) (r : Run) : Loop :=
  match n with
  | O => mkLoop StillTurning order [] r
  | S n' =>
      match turn env order r with
      | Raised err r' => mkLoop (Threw err) order [] r'
      | Left r' => mkLoop Completed order [] r'
      | Turned order' m r' =>
          let l := matchLoop env n' order' r' in
          mkLoop (loopEnd l) (loopOrder l) (m :: loopFills l) (loopRun l)
      end
  end.

(** The statements after the loop.  In
    [if (!latestVolume && !matchPrice && latestMarketData)] the second
    operand is evaluated when [latestVolume] is falsy, and raises. *)
Definition finishPass (env : Env) (order : Order) (fills : list Matched) (r : Run) : Pass :=
  let caught err r' := mkPass (Threw err) fills (onEngine (fun e => log e err) r') in
  if rejects env (trips r) then caught StoreError (tick r)
  else
    let r1 := tick (onEngine (fun e => setOrders e (updateStatus (_id order) processed (orders e))) r) in
    if rejects env (trips r1) then caught StoreError (tick r1)
    else
      let latestSellOrder := findOne (byLimit Asc) (resting true) (orders (eng r1)) in
      let r2 := tick r1 in
      if rejects env (trips r2) then caught StoreError (tick r2)
      else
        let latestBuyOrder := findOne (byLimit Desc) (resting false) (orders (eng r2)) in
        let r3 := tick r2 in
        let r4 :=
          tick (if rejects env (trips r3)
                then onEngine (fun e => log e StoreError) r3 else r3) in
        if negb (truthy (lastVolume fills)) then caught (ReferenceError "matchPrice") r4
        else if rejects env (trips r4) then caught StoreError (tick r4)
        else
          let snapshot :=
            snapshotOf latestSellOrder latestBuyOrder (lastVolume fills) (lastPrice fills)
                       (now env (trips r4)) in
          mkPass Completed fills
            (tick (onEngine (fun e => addMarketData e snapshot) r4)).

Definition processOrder (env : Env) (order : Order) (r : Run) : Pass :=
  let l := matchLoop env (turnsFor order (orders (eng r))) order r in
  match loopEnd l with
  | Completed => finishPass env (loopOrder l) (loopFills l) (loopRun l)
  | Threw err => mkPass (Threw err) (loopFills l) (onEngine (fun e => log e err) (loopRun l))
  | StillTurning => mkPass StillTurning (loopFills l) (loopRun l)
  end.

(** [matchNextOrder()] of the older copy: the same statements, with the
    call to itself awaited. *)
Fixpoint matchNextOrderWithin (n : nat) (env : Env) (r : Run) : Drain :=
  if processing (eng r) then mkDrain [] r
  else
    let r0 := onEngine (fun e => setProcessing e true) r in
    if rejects env (trips r0)
    then mkDrain [] (tick (onEngine (fun e => setProcessing (log e StoreError) false) r0))
    else
      let r1 := tick r0 in
      match findOne byCreatedAsc isUnprocessed (orders (eng r1)) with
      | None => mkDrain [] (onEngine (fun e => setProcessing e false) r1)
      | Some order =>
          let p := processOrder env order r1 in
          match n with
          | O => mkDrain (passFills p) (passRun p)
          | S n' =>
              let d := matchNextOrderWithin n' env (passRun p) in
              mkDrain (passFills p ++ drainFills d) (drainRun d)
          end
      end.

Definition matchNextOrder (env : Env) (r : Run) : Drain :=
  matchNextOrderWithin (List.length (orders (eng r))) env r.

(** [placeOrder] of the older copy: the store draws the id; the drain is
    awaited. *)
Definition placeOrder (env : Env) (limit : BN.t) (volume userId : string)
    (isSelling : bool) (e : Engine) : Outcome :=
  let orderId := nextId e in
  let e0 := mkEngine (orders e) (marketData e) (processing e) (S orderId) (console e) in
  if BN.is_empty volume
  then mkOutcome JUndefined [] (log e (ValidationError "originalVolume"))
  else if BN.is_empty userId
  then mkOutcome JUndefined [] (log e (ValidationError "userId"))
  else if rejects env O
  then mkOutcome JUndefined [] (log e StoreError)
  else
    let order := mkOrder orderId limit volume volume isSelling unprocessed userId (now env O) in
    let d := matchNextOrder env (mkRun (setOrders e0 (orders e0 ++ [order])) 1) in
    mkOutcome JUndefined (drainFills d) (eng (drainRun d)).

End Legacy.

(* ===================================================================== *)
(** ** The writes a call makes, one at a time                            *)
(* ===================================================================== *)

(** What the invariants of the order collection depend on: the documents,
    the id generator and the fills committed so far. *)
Record Book : Set := mkBook {
  docs : list Order;
  next : nat;
  done : list Matched
}.

Definition bookOf (e : Engine) (fs : list Matched) : Book :=
  mkBook (orders e) (nextId e) fs.

Definition validVolume (v : string) : Prop :=
  exists d, BigNumber v = Some d /\ 0 <= BN.coeff d.

(** Every call changes the book by a sequence of these writes (see
    [call_steps]).  [P] is what is known of the volumes placed. *)
Inductive step (P : string -> Prop) : Book -> Book -> Prop :=
| step_skip b :
    (* an id was drawn but the document was not saved *)
    step P b (mkBook (docs b) (S (next b)) (done b))
| step_insert b l v u s t :
    P v ->
    step P b (mkBook (docs b ++ [mkOrder (next b) l v v s unprocessed u t])
                   (S (next b)) (done b))
| step_fill b order matching ov mv v price docs1 n1 docs2 n2 :
    In order (docs b) ->
    BigNumber (currentVolume order) = Some ov ->
    BN.isPositive ov = true ->
    findMatching order (docs b) = Some matching ->
    BigNumber (currentVolume matching) = Some mv ->
    BigNumber (BN.valueOf (BN.min ov mv)) = Some v ->
    updateCurrentVolume (_id order) (BN.toString (BN.minus ov v)) (docs b) = (docs1, n1) ->
    updateCurrentVolume (_id matching) (BN.toString (BN.minus mv v)) docs1 = (docs2, n2) ->
    step P b (mkBook docs2 (next b)
                   (done b ++ [mkMatched order matching (BN.valueOf (BN.min ov mv)) price]))
| step_processed b o :
    In o (docs b) -> status o = unprocessed ->
    step P b (mkBook (updateStatus (_id o) processed (docs b)) (next b) (done b))
| step_cancel b id :
    step P b (mkBook (updateStatus id canceled (docs b)) (next b) (done b)).

(** The in-memory document of a pass agrees with the stored one on what
    the loop reads of it (calls made during the pass may have changed the
    stored status). *)
Definition agree (l : list Order) (order : Order) : Prop :=
  exists stored, In stored l /\ _id stored = _id order /\
    currentVolume stored = currentVolume order /\
    isSelling stored = isSelling order.

(** The writes of interleaved calls and drains (see [react_writes]): as
    above, but the pass works on its in-memory document, and its status
    write comes whatever the stored status has become. *)
Inductive write (P : string -> Prop) : Book -> Book -> Prop :=
| write_skip b :
    write P b (mkBook (docs b) (S (next b)) (done b))
| write_insert b l v u s t :
    P v ->
    write P b (mkBook (docs b ++ [mkOrder (next b) l v v s unprocessed u t])
                    (S (next b)) (done b))
| write_fill b order matching ov mv v price docs1 n1 docs2 n2 :
    agree (docs b) order ->
    BigNumber (currentVolume order) = Some ov ->
    BN.isPositive ov = true ->
    findMatching order (docs b) = Some matching ->
    BigNumber (currentVolume matching) = Some mv ->
    BigNumber (BN.valueOf (BN.min ov mv)) = Some v ->
    updateCurrentVolume (_id order) (BN.toString (BN.minus ov v)) (docs b) = (docs1, n1) ->
    updateCurrentVolume (_id matching) (BN.toString (BN.minus mv v)) docs1 = (docs2, n2) ->
    write P b (mkBook docs2 (next b)
                    (done b ++ [mkMatched order matching (BN.valueOf (BN.min ov mv)) price]))
| write_status b id s :
    write P b (mkBook (updateStatus id s (docs b)) (next b) (done b)).

Inductive writes (P : string -> Prop) : Book -> Book -> Prop :=
| writes_refl b : writes P b b
| writes_step b1 b2 b3 : write P b1 b2 -> writes P b2 b3 -> writes P b1 b3.

Inductive steps (P : string -> Prop) : Book -> Book -> Prop :=
| steps_refl b : steps P b b
| steps_step b1 b2 b3 : step P b1 b2 -> steps P b2 b3 -> steps P b1 b3.

(** Ids are unique and were all drawn from the generator; so were the ids
    in the fills. *)
Definition wfBook (b : Book) : Prop :=
  NoDup (map _id (docs b)) /\
  (forall i, In i (map _id (docs b)) -> (i < next b)%nat) /\
  (forall m, In m (done b) ->
     (_id (incoming m) < next b)%nat /\ (_id (counterparty m) < next b)%nat).

(** The engines that calls placing volumes in [P] lead to. *)
Inductive reachableBy (P : string -> Prop) : Engine -> list Matched -> Prop :=
| reachBy_initial : reachableBy P initial []
| reachBy_call e fs c :
    reachableBy P e fs -> placing P c ->
    reachableBy P (after (call c e)) (fs ++ fills (call c e)).

(** The worlds that events placing volumes in [P] lead to, with all the
    fills committed so far. *)
Inductive reachableWorld (P : string -> Prop) : World -> list Matched -> Prop :=
| world_initial : reachableWorld P initialWorld []
| world_event w fs ev :
    reachableWorld P w fs -> placingEvent P ev ->
    reachableWorld P (fst (react ev w)) (fs ++ snd (react ev w)).

(** The volume of a fill as a rational (0 if it could not be read). *)
Definition volumeOf (m : Matched) : Q :=
  match BigNumber (fillVolume m) with
  | Some d => BN.toQ d
  | None => 0%Q
  end.

Definition involves (id : nat) (m : Matched) : bool :=
  Nat.eqb (_id (incoming m)) id || Nat.eqb (_id (counterparty m)) id.

(** The total volume of the fills order [id] took part in. *)
Fixpoint filled (id : nat) (fs : list Matched) : Q :=
  match fs with
  | [] => 0%Q
  | m :: r => ((if involves id m then volumeOf m else 0) + filled id r)%Q
  end.

(** The total volume of the fills between orders [a] and [b]. *)
Fixpoint filledBetween (a b : nat) (fs : list Matched) : Q :=
  match fs with
  | [] => 0%Q
  | m :: r => ((if involves a m && involves b m then volumeOf m else 0)
               + filledBetween a b r)%Q
  end.

(** A decimal string as a rational. *)
Definition numeric (s : string) (q : Q) : Prop :=
  exists d, BigNumber s = Some d /\ (BN.toQ d == q)%Q.

(** The moves of [status] that an order may make. *)
Definition mayMove (a b : Status) : Prop :=
  a = b \/
  (a = unprocessed /\ b = processed) \/
  (a = unprocessed /\ b = canceled) \/
  (a = processed /\ b = canceled).

(* ===================================================================== *)
(** ** Notions the properties of the engine are stated with              *)
(* ===================================================================== *)

(** [a]'s price is at least as good as [b]'s for the incoming [order]: not
    higher when the order buys, not lower when it sells. *)
Definition priceAtLeastAsGood (order a b : Order) : Prop :=
  if isSelling order
  then (BN.toQ (limit b) <= BN.toQ (limit a))%Q
  else (BN.toQ (limit a) <= BN.toQ (limit b))%Q.

Definition samePrice (a b : Order) : Prop :=
  (BN.toQ (limit a) == BN.toQ (limit b))%Q.


(** The number a price stands for, be it a number or a decimal string. *)
Definition priceValue (v : jsval) : option BN.t :=
  match v with
  | JNumber n => Some n
  | JString s => BigNumber s
  | JUndefined | JObjectId _ => None
  end.

(** A fill whose volume is the smaller of the two current volumes and
    whose price follows the rule of [processOrder]. *)
Definition fillAsComputed (m : Matched) : Prop :=
  exists ov mv fv p,
    BigNumber (currentVolume (incoming m)) = Some ov /\
    BigNumber (currentVolume (counterparty m)) = Some mv /\
    BigNumber (fillVolume m) = Some fv /\
    (BN.toQ fv == Qmin (BN.toQ ov) (BN.toQ mv))%Q /\
    priceValue (fillPrice m) = Some p /\
    (BN.toQ p ==
       if isSelling (incoming m)
       then Qmax (BN.toQ (limit (incoming m))) (BN.toQ (limit (counterparty m)))
       else BN.toQ (limit (incoming m)))%Q.

(** Calls made one after the other: the engine they leave and the fills
    they committed. *)
Fixpoint runCalls (cs : list Call) (e : Engine) : Engine * list Matched :=
  match cs with
  | [] => (e, [])
  | c :: cs' =>
      let o := call c e in
      let (e', fs) := runCalls cs' (after o) in
      (e', fills o ++ fs)
  end.

(** The documents whose stored volume is not the text ["0"]. *)
Definition live (l : list Order) : list Order :=
  List.filter (fun o => negb (String.eqb (currentVolume o) "0")) l.

(** Every round trip of the call is answered. *)
Definition answers (env : Env) : Prop := forall k, rejects env k = false.

(** The whole number [z] as a decimal. *)
Definition dec (z : Z) : BN.t := BN.mk z 0.

(** The volumes of a book are in order: every document's current volume
    is a number from 0 up, and with the volume of the fills the document
    took part in it makes up the original volume; no fill has a negative
    volume. *)
Definition volumesOk (b : Book) : Prop :=
  (forall o, In o (docs b) ->
     exists c v, numeric (currentVolume o) c /\ numeric (originalVolume o) v /\
                 (0 <= c)%Q /\ (c + filled (_id o) (done b) == v)%Q) /\
  (forall m, In m (done b) -> (0 <= volumeOf m)%Q).

(** [o'] is the document of [o] at a later time: what [placeOrder] set
    once and for all is the same. *)
Definition sameOrder (o o' : Order) : Prop :=
  _id o' = _id o /\ limit o' = limit o /\ originalVolume o' = originalVolume o /\
  isSelling o' = isSelling o /\ userId o' = userId o /\ created o' = created o.

(** The engine apart from the order collection. *)
Definition sameRest (e e' : Engine) : Prop :=
  marketData e' = marketData e /\ processing e' = processing e /\
  nextId e' = nextId e /\ console e' = console e.

(** The in-memory document of the drain agrees with the stored one. *)
Definition worldOk (w : World) : Prop :=
  match drain w with
  | Matching order _ => agree (orders (engine w)) order
  | _ => True
  end.

Definition bookOfWorld (w : World) (fs : list Matched) : Book := bookOf (engine w) fs.

(** 1 for a stored volume the counterparty query lets through, 0 for the
    text "0". *)
Definition liveText (s : string) : nat := if String.eqb s "0" then O else 1%nat.

(** The number of unprocessed documents. *)
Definition pending (l : list Order) : nat := List.length (List.filter isUnprocessed l).


(** No stored document with the id of [order] is of the other side (so
    when the collection holds the order, it holds it on its side). *)
Definition ownSide (order : Order) (l : list Order) : Prop :=
  forall x, In x l -> _id x = _id order -> isSelling x = isSelling order.

(** Every limit is a number [BigNumber] accepts. *)
Definition acceptedLimits (l : list Order) : Prop :=
  forall o, In o l -> BN.refuses (limit o) = false.

(* ===================================================================== *)
(** ** The task the methods share                                        *)
(* ===================================================================== *)

(** Every method queues its writes on the one [this.task] and runs it.  A
    run takes the steps queued so far, in the order they were queued,
    gives one result per step, and leaves the task empty; a run that is
    rejected leaves nothing written.  [placeOrder] and a turn of the loop
    queue and run with no [await] in between.  [cancelOrder] queues its
    update, awaits [findById], and only then runs the task: a
    [placeOrder], or a turn, that runs the task in the meantime runs the
    update of [cancelOrder] before its own steps, and what the turn then
    reads as [results[0]] is the result of that update. *)

(** [nModified] of the update [{_id: id}, {status: s}]. *)
Fixpoint statusModified (id : nat) (s : Status) (docs : list Order) : nat :=
  match docs with
  | [] => O
  | o :: r =>
      if Nat.eqb (_id o) id
      then if Status_eqb (status o) s then O else 1%nat
      else statusModified id s r
  end.

(** The queued updates of [cancelOrder], run in the order they were
    queued. *)
Definition cancelAll (q : list nat) (docs : list Order) : list Order :=
  fold_left (fun l id => updateStatus id canceled l) q docs.

(** One turn of the loop when the updates [q] of [cancelOrder] are queued
    on the task: the turn as in [turn], with the queued updates run
    before its own two, and [results[0]] the result of the first step
    run.  The second component is the task afterwards. *)
Definition turnWith (q : list nat) (env : Env) (order : Order) (r : Run)
    : Turn * list nat :=
  match BigNumber (currentVolume order) with
  | None => (Raised (BigNumberError (currentVolume order)) r, q)
  | Some ov =>
      if negb (BN.isPositive ov) then (Left r, q)
      else if rejects env (trips r) then (Raised StoreError (tick r), q)
      else
        let r1 := tick r in
        match findMatching order (orders (eng r1)) with
        | None => (Left r1, q)
        | Some matching =>
            match BigNumber (currentVolume matching) with
            | None => (Raised (BigNumberError (currentVolume matching)) r1, q)
            | Some mv =>
                let volume := BN.valueOf (BN.min ov mv) in
                match priceOf order matching with
                | None => (Raised (BigNumberError (refusedLimit order matching)) r1, q)
                | Some price =>
                match BigNumber volume with
                | None => (Raised (BigNumberError volume) r1, q)
                | Some v =>
                    let orderVolume := BN.toString (BN.minus ov v) in
                    let matchingVolume := BN.toString (BN.minus mv v) in
                    if rejects env (trips r1) then (Raised StoreError (tick r1), [])
                    else
                      let docs0 := cancelAll q (orders (eng r1)) in
                      let (docs1, nModified) :=
                        updateCurrentVolume (_id order) orderVolume docs0 in
                      let (docs2, _) :=
                        updateCurrentVolume (_id matching) matchingVolume docs1 in
                      let first :=
                        match q with
                        | [] => nModified
                        | id :: _ => statusModified id canceled (orders (eng r1))
                        end in
                      let order' :=
                        if Nat.eqb first 1
                        then withCurrentVolume order orderVolume
                        else order in
                      (Turned order' (mkMatched order matching volume price)
                              (tick (onEngine (fun e => setOrders e docs2) r1)), [])
                end
                end
            end
        end
  end.

(** The engine with its drain, the task, and the number of [cancelOrder]
    calls that await their [findById]. *)
Record Machine : Set := mkMachine {
  world : World;
  task : list nat;
  reading : nat
}.

(** What happens next: an event as in [react] (a [cancelOrder] among
    them is one whose read and run come with nothing in between), or a
    [cancelOrder] gets as far as its [await], or the store answers the
    read of one ([env] for the read and the run). *)
Inductive Move : Type :=
| Made (ev : Event)
| CancelAsked (orderId : nat)
| CancelRead (env : Env).

(** [placed] when the updates [q] are queued: the run of [placeOrder]
    takes them before the new document. *)
Definition placedWith (q : list nat) (env : Env) (limit : BN.t) (volume userId : string)
    (isSelling : bool) (w : World) : World :=
  let e := engine w in
  let orderId := nextId e in
  let e0 := mkEngine (orders e) (marketData e) (processing e) (S orderId) (console e) in
  if BN.is_empty volume
  then mkWorld (log e0 (ValidationError "originalVolume")) (drain w)
  else if BN.is_empty userId
  then mkWorld (log e0 (ValidationError "userId")) (drain w)
  else if rejects env O
  then mkWorld (log e0 StoreError) (drain w)
  else
    let order := mkOrder orderId limit volume volume isSelling unprocessed userId (now env O) in
    trigger (mkWorld (setOrders e0 (cancelAll q (orders e0) ++ [order])) (drain w)).

(** [resume] when the updates [q] are queued; only a turn of the loop
    runs the task. *)
Definition resumeWith (q : list nat) (env : Env) (w : World)
    : World * list Matched * list nat :=
  let e := engine w in
  match drain w with
  | Matching order fs =>
      match turnWith q env order (mkRun e O) with
      | (Raised err r, q') => (mkWorld (log (eng r) err) Idle, [], q')
      | (Turned order' m r, q') => (mkWorld (eng r) (Matching order' (fs ++ [m])), [m], q')
      | (Left r, q') =>
          let p := finishPass env order fs r in
          match passEnd p with
          | Completed => (trigger (mkWorld (eng (passRun p)) Idle), [], q')
          | _ => (mkWorld (eng (passRun p)) Idle, [], q')
          end
      end
  | _ => (fst (resume env w), snd (resume env w), q)
  end.

Definition move (mv : Move) (m : Machine) : Machine * list Matched :=
  let w := world m in
  let q := task m in
  match mv with
  | Made (Called (PlaceOrder env l v u s)) =>
      (mkMachine (placedWith q env l v u s w) [] (reading m), [])
  | Made (Called (CancelOrder id)) =>
      (mkMachine (mkWorld (setOrders (engine w) (cancelAll (q ++ [id]) (orders (engine w))))
                          (drain w)) [] (reading m), [])
  | Made (Called (MatchNextOrder _)) =>
      (mkMachine (trigger w) q (reading m), [])
  | Made (Resumed env) =>
      let '(w', fs, q') := resumeWith q env w in
      (mkMachine w' q' (reading m), fs)
  | CancelAsked id =>
      (mkMachine w (q ++ [id]) (S (reading m)), [])
  | CancelRead env =>
      match reading m with
      | O => (m, [])
      | S n =>
          if rejects env O
          then (* [findById] is rejected: the [catch]; the update stays queued *)
            (mkMachine (mkWorld (log (engine w) StoreError) (drain w)) q n, [])
          else if rejects env 1
          then (mkMachine (mkWorld (log (engine w) StoreError) (drain w)) [] n, [])
          else
            (mkMachine (mkWorld (setOrders (engine w) (cancelAll q (orders (engine w))))
                                (drain w)) [] n, [])
      end
  end.

(** Moves one after the other. *)
Fixpoint moveAll (mvs : list Move) (m : Machine) : Machine * list Matched :=
  match mvs with
  | [] => (m, [])
  | mv :: mvs' =>
      let (m1, fs1) := move mv m in
      let (m2, fs2) := moveAll mvs' m1 in
      (m2, fs1 ++ fs2)
  end.

Definition initialMachine : Machine := mkMachine initialWorld [] O.

Definition placingMove (P : string -> Prop) (mv : Move) : Prop :=
  match mv with
  | Made ev => placingEvent P ev
  | _ => True
  end.

(** No turn of the loop runs the task while a [cancelOrder] is between
    its queued update and its run. *)
Definition calm (mv : Move) (m : Machine) : Prop :=
  match mv with
  | Made (Resumed _) =>
      match drain (world m) with
      | Matching _ _ => task m = []
      | _ => True
      end
  | _ => True
  end.

Definition calmb (mv : Move) (m : Machine) : bool :=
  match mv with
  | Made (Resumed _) =>
      match drain (world m) with
      | Matching _ _ => match task m with [] => true | _ => false end
      | _ => true
      end
  | _ => true
  end.

(** Every move of [mvs] is calm where it is made. *)
Fixpoint calmAll (mvs : list Move) (m : Machine) : bool :=
  match mvs with
  | [] => true
  | mv :: mvs' => calmb mv m && calmAll mvs' (fst (move mv m))
  end.

(** The machines that moves placing volumes in [P] lead to when every
    move is calm, with all the fills committed so far. *)
Inductive reachableMachine (P : string -> Prop) : Machine -> list Matched -> Prop :=
| machine_initial : reachableMachine P initialMachine []
| machine_move m fs mv :
    reachableMachine P m fs -> placingMove P mv -> calm mv m ->
    reachableMachine P (fst (move mv m)) (fs ++ snd (move mv m)).

(* ===================================================================== *)
(** ** Further notions                                                   *)
(* ===================================================================== *)

(** What [placeOrder] writes into a document and nothing changes later. *)
Definition placedAs (o : Order) : nat * BN.t * string * bool * string * Z :=
  (_id o, limit o, originalVolume o, isSelling o, userId o, created o).

(** The two sides of a fill. *)
Definition buyer (m : Matched) : Order :=
  if isSelling (incoming m) then counterparty m else incoming m.

Definition seller (m : Matched) : Order :=
  if isSelling (incoming m) then incoming m else counterparty m.

(** Every stored current volume is a decimal. *)
Definition parses (l : list Order) : Prop :=
  forall o, In o l -> exists d, BigNumber (currentVolume o) = Some d.

(** The document with id [id], if the collection holds one. *)
Definition findById (id : nat) (l : list Order) : option Order :=
  List.find (fun o => Nat.eqb (_id o) id) l.

(** The limits of the counterparties of the fills, in the order of the
    fills. *)
Definition counterpartyLimits (fs : list Matched) : list Q :=
  map (fun m => BN.toQ (limit (counterparty m))) fs.

(** Each price of the list is at least as good for [order] as the next. *)
Fixpoint bestFirst (order : Order) (ps : list Q) : Prop :=
  match ps with
  | a :: ((b :: _) as r) =>
      (if isSelling order then (b <= a)%Q else (a <= b)%Q) /\ bestFirst order r
  | _ => True
  end.

(** A fill made at the bid: the buyer's limit is the price, and the
    seller's limit is not above it. *)
Definition pricedAtBid (m : Matched) : Prop :=
  isSelling (buyer m) = false /\ isSelling (seller m) = true /\
  (BN.toQ (limit (seller m)) <= BN.toQ (limit (buyer m)))%Q /\
  exists p, priceValue (fillPrice m) = Some p /\
            (BN.toQ p == BN.toQ (limit (buyer m)))%Q.

(** What a snapshot shows of one side of the book [docs]: the volume and
    the limit of a resting order of that side with the best limit (the
    lowest ask, the highest bid), or two empty strings when no order of
    that side rests. *)
Definition topOfBook (selling : bool) (docs : list Order) (volume price : string) : Prop :=
  (exists a, In a docs /\ resting selling a = true /\
             volume = currentVolume a /\ price = BN.toString (limit a) /\
             forall x, In x docs -> resting selling x = true ->
               if selling then (BN.toQ (limit a) <= BN.toQ (limit x))%Q
               else (BN.toQ (limit x) <= BN.toQ (limit a))%Q) \/
  (volume = ""%string /\ price = ""%string /\
   forall x, In x docs -> resting selling x = false).

(** While the drain is suspended the flag is set. *)
Definition flagOk (w : World) : Prop :=
  drain w = Idle \/ processing (engine w) = true.

(* ===================================================================== *)
(** ** Facts about the decimal library                                   *)
(* ===================================================================== *)

Example parse_12_50 : BigNumber "12.50" = Some (BN.mk 1250 2).
Proof. reflexivity. Qed.

Example toString_12_50 : BN.toString (BN.mk 1250 2) = "12.5"%string.
Proof. reflexivity. Qed.

Example toString_neg : BN.toString (BN.mk (-5) 3) = "-0.005"%string.
Proof. reflexivity. Qed.

Example minus_ex : BN.toString (BN.minus (BN.mk 8 0) (BN.mk 55 1)) = "2.5"%string.
Proof. reflexivity. Qed.

Example parse_bad : BigNumber "abc" = None /\ BigNumber "" = None /\ BigNumber "." = None.
Proof. repeat split. Qed.

Local Open Scope Z_scope.

#[global] Arguments BN.digit_of : simpl never.
#[global] Arguments BN.ascii_of_digit : simpl never.
#[global] Arguments BN.pow10 : simpl never.
#[global] Arguments BN.int_str : simpl never.

Lemma pow10_pos n : 0 < BN.pow10 n.
Proof. unfold BN.pow10. apply Z.pow_pos_nonneg; lia. Qed.

Lemma pow10_S n : BN.pow10 (S n) = 10 * BN.pow10 n.
Proof. unfold BN.pow10. rewrite Nat2Z.inj_succ, Z.pow_succ_r; lia. Qed.

Lemma pow10_add n m : BN.pow10 (n + m) = BN.pow10 n * BN.pow10 m.
Proof. unfold BN.pow10. rewrite Nat2Z.inj_add, Z.pow_add_r; lia. Qed.

Lemma pow10_0 : BN.pow10 0 = 1.
Proof. reflexivity. Qed.

Lemma digit_roundtrip d : 0 <= d < 10 -> BN.digit_of (BN.ascii_of_digit d) = Some d.
Proof.
  intros H.
  assert (D : d = 0 \/ d = 1 \/ d = 2 \/ d = 3 \/ d = 4 \/ d = 5 \/ d = 6 \/
              d = 7 \/ d = 8 \/ d = 9) by lia.
  repeat (destruct D as [-> | D]; [reflexivity|]). subst; reflexivity.
Qed.

Lemma digit_of_range c d : BN.digit_of c = Some d -> 0 <= d < 10.
Proof.
  unfold BN.digit_of.
  destruct (48 <=? nat_of_ascii c)%nat eqn:A; [|discriminate].
  destruct (nat_of_ascii c <=? 57)%nat eqn:B; [|discriminate].
  simpl. intros [= <-]. apply Nat.leb_le in A, B. lia.
Qed.

Lemma digit_not_dot c d : BN.digit_of c = Some d -> Ascii.eqb c "." = false.
Proof.
  intros H. destruct (Ascii.eqb c ".") eqn:E; [|reflexivity].
  apply Ascii.eqb_eq in E. subst. discriminate.
Qed.

Lemma digit_not_minus c d : BN.digit_of c = Some d -> c <> "-"%char.
Proof. intros H ->. discriminate. Qed.

Lemma all_digits_app s1 s2 :
  BN.all_digits (s1 ++ s2) = (BN.all_digits s1 && BN.all_digits s2)%bool.
Proof.
  induction s1 as [|c r IH]; simpl; [reflexivity|].
  destruct (BN.digit_of c); [exact IH|reflexivity].
Qed.

Lemma digits_val_app s1 : forall acc s2,
  BN.digits_val acc (s1 ++ s2) =
  match BN.digits_val acc s1 with
  | Some a => BN.digits_val a s2
  | None => None
  end.
Proof.
  induction s1 as [|c r IH]; intros acc s2; simpl; [reflexivity|].
  destruct (BN.digit_of c); [apply IH|reflexivity].
Qed.

Lemma all_digits_fixed w : forall n, BN.all_digits (BN.fixed w n) = true.
Proof.
  induction w as [|w IH]; intros n; simpl; [reflexivity|].
  rewrite all_digits_app, IH. cbn [BN.all_digits andb].
  rewrite digit_roundtrip; [reflexivity|]. apply Z.mod_pos_bound; lia.
Qed.

Lemma append_nil_r s : (s ++ "")%string = s.
Proof. induction s; simpl; congruence. Qed.

Lemma length_app s1 s2 : String.length (s1 ++ s2) = (String.length s1 + String.length s2)%nat.
Proof. induction s1; simpl; congruence. Qed.

Lemma length_fixed w : forall n, String.length (BN.fixed w n) = w.
Proof.
  induction w as [|w IH]; intros n; simpl; [reflexivity|].
  rewrite length_app, IH. simpl. lia.
Qed.

Lemma digits_val_fixed w : forall acc n,
  0 <= n ->
  BN.digits_val acc (BN.fixed w n) = Some (acc * BN.pow10 w + n mod BN.pow10 w).
Proof.
  induction w as [|w IH]; intros acc n Hn.
  - cbn [BN.fixed BN.digits_val]. rewrite pow10_0, Z.mod_1_r. f_equal; lia.
  - cbn [BN.fixed]. rewrite digits_val_app, IH by (apply Z.div_pos; lia).
    cbn [BN.digits_val]. rewrite digit_roundtrip by (apply Z.mod_pos_bound; lia).
    f_equal. rewrite pow10_S.
    rewrite (Z.rem_mul_r n 10 (BN.pow10 w)) by (try apply pow10_pos; lia).
    lia.
Qed.

Lemma split_dot_digits i : BN.all_digits i = true ->
  BN.split_dot i = (i, None) /\
  forall f, BN.split_dot (i ++ String "." f) = (i, Some f).
Proof.
  induction i as [|c r IH]; simpl; intros H.
  - split; reflexivity.
  - destruct (BN.digit_of c) eqn:D; [|discriminate].
    rewrite (digit_not_dot _ _ D). destruct (IH H) as [A B]. split.
    + now rewrite A.
    + intros f. now rewrite B.
Qed.

Lemma strip0_val s : BN.digits_val 0 (BN.strip0 s) = BN.digits_val 0 s.
Proof.
  induction s as [|c r IH]; [reflexivity|].
  simpl. destruct r as [|c' r']; [reflexivity|].
  destruct (Ascii.eqb c "0") eqn:E; [|reflexivity].
  apply Ascii.eqb_eq in E. subst c. rewrite IH. reflexivity.
Qed.

Lemma strip0_digits s : BN.all_digits s = true -> BN.all_digits (BN.strip0 s) = true.
Proof.
  induction s as [|c r IH]; [reflexivity|].
  intros H. simpl. destruct r as [|c' r']; [exact H|].
  destruct (Ascii.eqb c "0"); [|exact H].
  apply IH. simpl in H. destruct (BN.digit_of c); [exact H|discriminate].
Qed.

Lemma strip0_nonempty s : BN.is_empty (BN.strip0 s) = BN.is_empty s.
Proof.
  induction s as [|c r IH]; [reflexivity|].
  simpl. destruct r as [|c' r']; [reflexivity|].
  destruct (Ascii.eqb c "0"); [|reflexivity]. exact IH.
Qed.

Lemma lt_pow10_log2 n : 0 <= n -> n < BN.pow10 (S (Z.to_nat (Z.log2 n))).
Proof.
  intros Hn. unfold BN.pow10.
  rewrite Nat2Z.inj_succ, Z2Nat.id by apply Z.log2_nonneg.
  destruct (Z.eq_dec n 0) as [->|Hz]; [reflexivity|].
  assert (L := Z.log2_spec n ltac:(lia)).
  assert (2 ^ Z.succ (Z.log2 n) <= 10 ^ Z.succ (Z.log2 n)).
  { apply Z.pow_le_mono_l. lia. }
  lia.
Qed.

Lemma int_str_val n : 0 <= n -> BN.digits_val 0 (BN.int_str n) = Some n.
Proof.
  intros Hn. unfold BN.int_str. rewrite strip0_val, digits_val_fixed by exact Hn.
  f_equal. rewrite Z.mod_small; [lia|]. split; [exact Hn|].
  now apply lt_pow10_log2.
Qed.

Lemma int_str_digits n : BN.all_digits (BN.int_str n) = true.
Proof. unfold BN.int_str. apply strip0_digits, all_digits_fixed. Qed.

Lemma int_str_nonempty n : BN.is_empty (BN.int_str n) = false.
Proof.
  unfold BN.int_str. rewrite strip0_nonempty. simpl.
  destruct (BN.fixed _ _); reflexivity.
Qed.

(** What [normalize] does: it divides the coefficient by a power of ten
    and lowers the scale by as much. *)
Lemma normalize_aux_spec s : forall c,
  (BN.scale (BN.normalize_aux s c) <= s)%nat /\
  c = BN.coeff (BN.normalize_aux s c) * BN.pow10 (s - BN.scale (BN.normalize_aux s c)).
Proof.
  induction s as [|s IH]; intros c; cbn [BN.normalize_aux].
  - cbn [BN.scale BN.coeff Nat.sub]. split; [lia|]. rewrite pow10_0. lia.
  - destruct (c mod 10 =? 0) eqn:E.
    + apply Z.eqb_eq in E. destruct (IH (c / 10)) as [A B]. split; [lia|].
      replace (S s - BN.scale (BN.normalize_aux s (c / 10)))%nat
        with (S (s - BN.scale (BN.normalize_aux s (c / 10)))) by lia.
      rewrite pow10_S.
      assert (D := Z.div_mod c 10 ltac:(lia)). lia.
    + cbn [BN.scale BN.coeff]. split; [lia|]. rewrite Nat.sub_diag, pow10_0. lia.
Qed.

Lemma normalize_aux_zero s : BN.normalize_aux s 0 = BN.zero.
Proof. induction s as [|s IH]; simpl; [reflexivity|exact IH]. Qed.

Lemma normalize_coeff_zero d : BN.coeff (BN.normalize d) = 0 <-> BN.coeff d = 0.
Proof.
  unfold BN.normalize.
  destruct (normalize_aux_spec (BN.scale d) (BN.coeff d)) as [A B].
  split; intros H.
  - rewrite H in B. lia.
  - rewrite H, normalize_aux_zero. reflexivity.
Qed.

Lemma parse_unsigned_print a s :
  0 <= a ->
  BN.parse_unsigned
    (BN.int_str (a / BN.pow10 s) ++
     match s with O => "" | S _ => String "." (BN.fixed s (a mod BN.pow10 s)) end)
  = Some (BN.mk a s).
Proof.
  intros Ha. unfold BN.parse_unsigned.
  assert (P := pow10_pos s).
  assert (Q0 : 0 <= a / BN.pow10 s) by (apply Z.div_pos; lia).
  destruct (split_dot_digits _ (int_str_digits (a / BN.pow10 s))) as [A B].
  destruct s as [|s].
  - rewrite append_nil_r, A, int_str_nonempty, int_str_val by exact Q0.
    simpl. rewrite pow10_0, Z.div_1_r. reflexivity.
  - rewrite B, int_str_nonempty. simpl andb. cbv iota.
    rewrite digits_val_app, int_str_val by exact Q0.
    rewrite digits_val_fixed by (apply Z.mod_pos_bound; lia).
    rewrite length_fixed. simpl. f_equal. f_equal.
    rewrite Z.mod_mod by lia.
    assert (D := Z.div_mod a (BN.pow10 (S s)) ltac:(lia)). lia.
Qed.

Lemma int_str_not_minus n r : BN.int_str n <> String "-" r.
Proof.
  intros E. pose proof (int_str_digits n) as D. rewrite E in D. discriminate.
Qed.

(** Reading back what [toString] wrote gives the canonical form of the
    value. *)
Lemma parse_toString d : BN.parse (BN.toString d) = Some (BN.normalize d).
Proof.
  unfold BN.toString.
  set (n := BN.normalize d).
  assert (Ha : 0 <= Z.abs (BN.coeff n)) by lia.
  pose proof (parse_unsigned_print (Z.abs (BN.coeff n)) (BN.scale n) Ha) as P.
  destruct (BN.coeff n <? 0) eqn:S.
  - apply Z.ltb_lt in S. simpl. rewrite P. simpl. unfold BN.opp. simpl.
    destruct n as [c s]. simpl in *. f_equal. f_equal. lia.
  - apply Z.ltb_ge in S. simpl append at 1.
    unfold BN.parse.
    destruct (BN.int_str _ ++ _)%string as [|c r] eqn:E.
    + rewrite P. destruct n as [c s]. simpl in *. f_equal. f_equal. lia.
    + assert (c <> "-"%char).
      { intros ->. destruct (BN.int_str (Z.abs (BN.coeff n) / BN.pow10 (BN.scale n))) as [|c' r'] eqn:I.
        - pose proof (int_str_nonempty (Z.abs (BN.coeff n) / BN.pow10 (BN.scale n))) as N.
          rewrite I in N. discriminate.
        - simpl in E. injection E as -> _. now apply int_str_not_minus in I. }
      replace (match c with "-"%char => option_map BN.opp (BN.parse_unsigned r) | _ => BN.parse_unsigned (String c r) end)
        with (BN.parse_unsigned (String c r)).
      * rewrite P. destruct n as [c0 s]. simpl in *. f_equal. f_equal. lia.
      * destruct c as [[] [] [] [] [] [] [] []]; try reflexivity. congruence.
Qed.

Lemma toString_zero d : BN.coeff d = 0 -> BN.toString d = "0"%string.
Proof.
  intros H. unfold BN.toString, BN.normalize. rewrite H, normalize_aux_zero.
  reflexivity.
Qed.

(** The stored text is ["0"] exactly for the value zero. *)
Lemma toString_zero_iff d : BN.toString d = "0"%string <-> BN.coeff d = 0.
Proof.
  split; [|apply toString_zero].
  intros H. pose proof (parse_toString d) as P. rewrite H in P.
  apply normalize_coeff_zero. injection P as <-. reflexivity.
Qed.

(** *** Values as rationals *)

Lemma den_toQ d : Z.pos (Qden (BN.toQ d)) = BN.pow10 (BN.scale d).
Proof. unfold BN.toQ. cbn [Qden]. apply Z2Pos.id, pow10_pos. Qed.

Lemma num_toQ d : Qnum (BN.toQ d) = BN.coeff d.
Proof. reflexivity. Qed.

Lemma pow10_split s n : (n <= s)%nat -> BN.pow10 s = BN.pow10 n * BN.pow10 (s - n).
Proof. intros H. rewrite <- pow10_add. f_equal. lia. Qed.

Lemma toQ_normalize d : BN.toQ (BN.normalize d) == BN.toQ d.
Proof.
  unfold Qeq. rewrite !den_toQ, !num_toQ. unfold BN.normalize.
  destruct (normalize_aux_spec (BN.scale d) (BN.coeff d)) as [A B].
  set (n := BN.normalize_aux (BN.scale d) (BN.coeff d)) in *.
  rewrite (pow10_split (BN.scale d) (BN.scale n) A).
  apply (f_equal (fun z => z * BN.pow10 (BN.scale n))) in B.
  rewrite B. ring.
Qed.

Lemma leb_Qle a b : BN.leb a b = true <-> (BN.toQ a <= BN.toQ b)%Q.
Proof.
  unfold BN.leb, Qle. rewrite !den_toQ, !num_toQ. apply Z.leb_le.
Qed.

Lemma leb_false_Qlt a b : BN.leb a b = false <-> (BN.toQ b < BN.toQ a)%Q.
Proof.
  unfold BN.leb, Qlt. rewrite !den_toQ, !num_toQ. apply Z.leb_gt.
Qed.


Lemma toQ_minus a b : (BN.toQ (BN.minus a b) == BN.toQ a - BN.toQ b)%Q.
Proof.
  unfold Qeq, Qminus, Qplus, Qopp. cbn [Qnum Qden].
  rewrite Pos2Z.inj_mul, !den_toQ. unfold BN.minus.
  cbn [BN.coeff BN.scale BN.toQ Qnum].
  set (s := Nat.max (BN.scale a) (BN.scale b)).
  assert (Ha : (BN.scale a <= s)%nat) by (unfold s; lia).
  assert (Hb : (BN.scale b <= s)%nat) by (unfold s; lia).
  pose proof (pow10_split s _ Ha) as Ea. pose proof (pow10_split s _ Hb) as Eb.
  set (pa := BN.pow10 (BN.scale a)) in *. set (pb := BN.pow10 (BN.scale b)) in *.
  set (qa := BN.pow10 (s - BN.scale a)) in *. set (qb := BN.pow10 (s - BN.scale b)) in *.
  transitivity ((BN.coeff a * pb) * (pa * qa) - (BN.coeff b * pa) * (pb * qb)); [ring|].
  rewrite <- Ea, <- Eb. ring.
Qed.

Lemma toQ_min a b : BN.toQ (BN.min a b) == Qmin (BN.toQ a) (BN.toQ b).
Proof.
  unfold BN.min. destruct (BN.leb a b) eqn:E.
  - apply leb_Qle in E. symmetry. apply Q.min_l. exact E.
  - apply leb_false_Qlt in E. symmetry. apply Q.min_r. apply Qlt_le_weak, E.
Qed.

Lemma toQ_max a b : BN.toQ (BN.max a b) == Qmax (BN.toQ a) (BN.toQ b).
Proof.
  unfold BN.max. destruct (BN.leb a b) eqn:E.
  - apply leb_Qle in E. symmetry. apply Q.max_r. exact E.
  - apply leb_false_Qlt in E. symmetry. apply Q.max_l. apply Qlt_le_weak, E.
Qed.

Lemma toQ_zero_iff d : (BN.toQ d == 0)%Q <-> BN.coeff d = 0.
Proof. unfold Qeq. rewrite num_toQ. cbn [Qnum Qden]. lia. Qed.

(** Writing a value and reading it back keeps the number. *)
Lemma BigNumber_toString d :
  exists d', BigNumber (BN.toString d) = Some d' /\ BN.toQ d' == BN.toQ d.
Proof.
  exists (BN.normalize d). split; [apply parse_toString|apply toQ_normalize].
Qed.

(* ===================================================================== *)
(** ** Facts about the store queries                                     *)
(* ===================================================================== *)

Section QueryFacts.
Context {A : Type}.
Variable before : A -> A -> bool.
Hypothesis before_asym : forall a b, before a b = true -> before b a = false.
Hypothesis before_cotrans :
  forall a b c, before a c = true -> before a b = true \/ before b c = true.

(** The head of the sorted list, computed directly. *)
Lemma hd_insertSorted x l :
  hd_error (insertSorted before x l) =
  match hd_error l with
  | Some y => if before y x then Some y else Some x
  | None => Some x
  end.
Proof.
  destruct l as [|y l']; simpl; [reflexivity|].
  destruct (before y x); reflexivity.
Qed.

(** The first document of a sorted list splits the list it was sorted
    from: the documents in front of it come strictly later in the sort
    order, and no document behind it comes strictly earlier. *)
Lemma hd_sortBy_split l h :
  hd_error (sortBy before l) = Some h ->
  exists l1 l2, l = l1 ++ h :: l2 /\
    (forall z, In z l1 -> before h z = true) /\
    (forall z, In z l2 -> before z h = false).
Proof.
  revert h. induction l as [|x r IH]; intros h H; [discriminate|].
  simpl in H. rewrite hd_insertSorted in H.
  destruct (hd_error (sortBy before r)) as [y|] eqn:Hr.
  - destruct (IH y eq_refl) as (l1 & l2 & -> & F1 & F2).
    destruct (before y x) eqn:B; injection H as <-.
    + exists (x :: l1), l2. repeat split; auto.
      intros z [<-|Hz]; auto.
    + exists [], (l1 ++ y :: l2). repeat split; [intros z []|].
      intros z Hz. destruct (before z x) eqn:Z; [|reflexivity].
      destruct (before_cotrans z y x Z) as [C|C]; [|congruence].
      apply in_app_or in Hz. destruct Hz as [Hz|[<-|Hz]].
      * apply F1 in Hz. apply before_asym in Hz. congruence.
      * apply before_asym in C. congruence.
      * apply F2 in Hz. congruence.
  - injection H as <-. destruct r as [|y r'].
    + exists [], []. repeat split; intros z [].
    + exfalso. simpl in Hr. rewrite hd_insertSorted in Hr.
      destruct (hd_error (sortBy before r')) as [w|]; [destruct (before w y)|]; discriminate.
Qed.

Lemma hd_sortBy_none l : hd_error (sortBy before l) = None -> l = [].
Proof.
  destruct l as [|x r]; [reflexivity|]. simpl. rewrite hd_insertSorted.
  destruct (hd_error (sortBy before r)) as [y|]; [destruct (before y x)|]; discriminate.
Qed.

Lemma findOne_In (p : A -> bool) docs h :
  findOne before p docs = Some h -> In h docs /\ p h = true.
Proof.
  unfold findOne. intros H. apply hd_sortBy_split in H.
  destruct H as (l1 & l2 & E & _).
  apply filter_In. rewrite E. apply in_or_app. right. left. reflexivity.
Qed.

(** No document that passes the filter comes strictly before the one
    [findOne] returns. *)
Lemma findOne_best (p : A -> bool) docs h :
  findOne before p docs = Some h ->
  forall z, In z docs -> p z = true -> before z h = false.
Proof.
  unfold findOne. intros H z Hz Pz. apply hd_sortBy_split in H.
  destruct H as (l1 & l2 & E & F1 & F2).
  assert (I : In z (List.filter p docs)) by (apply filter_In; auto).
  rewrite E in I. apply in_app_or in I. destruct I as [I|[<-|I]].
  - apply before_asym. auto.
  - destruct (before h h) eqn:B; [|reflexivity]. apply before_asym in B as B'. congruence.
  - auto.
Qed.

Lemma findOne_none (p : A -> bool) docs :
  findOne before p docs = None -> forall z, In z docs -> p z = false.
Proof.
  unfold findOne. intros H z Hz. apply hd_sortBy_none in H.
  destruct (p z) eqn:P; [|reflexivity].
  assert (I : In z (List.filter p docs)) by (apply filter_In; auto).
  rewrite H in I. destruct I.
Qed.

Lemma filter_split (p : A -> bool) : forall l l1 h l2,
  List.filter p l = l1 ++ h :: l2 ->
  exists d1 d2, l = d1 ++ h :: d2 /\ List.filter p d1 = l1 /\ List.filter p d2 = l2.
Proof.
  induction l as [|x r IH]; intros l1 h l2 E; simpl in E.
  - destruct l1; discriminate.
  - destruct (p x) eqn:P.
    + destruct l1 as [|y l1']; simpl in E.
      * injection E as <- E. exists [], r. auto.
      * injection E as <- E. destruct (IH _ _ _ E) as (d1 & d2 & -> & F1 & F2).
        exists (x :: d1), d2. simpl. rewrite P, F1. auto.
    + destruct (IH _ _ _ E) as (d1 & d2 & -> & F1 & F2).
      exists (x :: d1), d2. simpl. rewrite P. auto.
Qed.

(** Where the document that [findOne] returns sits in the collection. *)
Lemma findOne_split (p : A -> bool) docs h :
  findOne before p docs = Some h ->
  exists d1 d2, docs = d1 ++ h :: d2 /\
    (forall z, In z d1 -> p z = true -> before h z = true) /\
    (forall z, In z d2 -> p z = true -> before z h = false).
Proof.
  unfold findOne. intros H. apply hd_sortBy_split in H.
  destruct H as (l1 & l2 & E & F1 & F2).
  destruct (filter_split p _ _ _ _ E) as (d1 & d2 & -> & <- & <-).
  exists d1, d2. repeat split.
  - intros z Hz Pz. apply F1, filter_In. auto.
  - intros z Hz Pz. apply F2, filter_In. auto.
Qed.

End QueryFacts.

Local Open Scope Q_scope.

Lemma ltb_Qlt a b : BN.ltb a b = true <-> BN.toQ a < BN.toQ b.
Proof.
  unfold BN.ltb. rewrite negb_true_iff. apply leb_false_Qlt.
Qed.

Lemma ltb_false_Qle a b : BN.ltb a b = false <-> BN.toQ b <= BN.toQ a.
Proof.
  unfold BN.ltb. rewrite negb_false_iff. apply leb_Qle.
Qed.

Lemma byLimit_asym d a b : byLimit d a b = true -> byLimit d b a = false.
Proof.
  destruct d; simpl; rewrite ltb_Qlt, ltb_false_Qle; intros H; apply Qlt_le_weak, H.
Qed.

Lemma byLimit_cotrans d a b c :
  byLimit d a c = true -> byLimit d a b = true \/ byLimit d b c = true.
Proof.
  destruct d; simpl; rewrite !ltb_Qlt; intros H.
  - destruct (Qlt_le_dec (BN.toQ (limit a)) (BN.toQ (limit b))) as [L|L]; [left; exact L|].
    right. eapply Qle_lt_trans; eassumption.
  - destruct (Qlt_le_dec (BN.toQ (limit b)) (BN.toQ (limit a))) as [L|L]; [left; exact L|].
    right. eapply Qlt_le_trans; eassumption.
Qed.

Lemma byCreatedAsc_asym a b : byCreatedAsc a b = true -> byCreatedAsc b a = false.
Proof. unfold byCreatedAsc. rewrite Z.ltb_lt, Z.ltb_ge. lia. Qed.

Lemma byCreatedAsc_cotrans a b c :
  byCreatedAsc a c = true -> byCreatedAsc a b = true \/ byCreatedAsc b c = true.
Proof. unfold byCreatedAsc. rewrite !Z.ltb_lt. lia. Qed.

Lemma byCreatedDesc_asym a b : byCreatedDesc a b = true -> byCreatedDesc b a = false.
Proof. unfold byCreatedDesc. rewrite Z.ltb_lt, Z.ltb_ge. lia. Qed.

Lemma byCreatedDesc_cotrans a b c :
  byCreatedDesc a c = true -> byCreatedDesc a b = true \/ byCreatedDesc b c = true.
Proof. unfold byCreatedDesc. rewrite !Z.ltb_lt. lia. Qed.

Local Close Scope Q_scope.

(* ===================================================================== *)
(** ** Facts about the writes                                            *)
(* ===================================================================== *)

Lemma withCurrentVolume_same o : withCurrentVolume o (currentVolume o) = o.
Proof. destruct o; reflexivity. Qed.

Lemma updateCurrentVolume_ids id v l :
  map _id (fst (updateCurrentVolume id v l)) = map _id l.
Proof.
  induction l as [|o r IH]; simpl; [reflexivity|].
  destruct (Nat.eqb (_id o) id); simpl; [reflexivity|].
  destruct (updateCurrentVolume id v r) as [r' n]. simpl in *. now rewrite IH.
Qed.

Lemma updateCurrentVolume_ids_eq id v l l' n :
  updateCurrentVolume id v l = (l', n) -> map _id l' = map _id l.
Proof.
  intros E. rewrite <- (updateCurrentVolume_ids id v l), E. reflexivity.
Qed.

Lemma updateStatus_ids id s l : map _id (updateStatus id s l) = map _id l.
Proof.
  induction l as [|o r IH]; simpl; [reflexivity|].
  destruct (Nat.eqb (_id o) id); simpl; [reflexivity|]. now rewrite IH.
Qed.

Lemma in_ids o (l : list Order) : In o l -> In (_id o) (map _id l).
Proof. apply in_map. Qed.

(** Writing the volume of a document that is in the collection: the
    document is replaced, the others stay, and [nModified] tells whether
    the text changed. *)
Lemma updateCurrentVolume_hit o v : forall l l' n,
  NoDup (map _id l) -> In o l ->
  updateCurrentVolume (_id o) v l = (l', n) ->
  n = (if String.eqb (currentVolume o) v then O else 1%nat) /\
  In (withCurrentVolume o v) l' /\
  (forall x, In x l' -> x = withCurrentVolume o v \/ (In x l /\ _id x <> _id o)) /\
  (forall x, In x l -> _id x <> _id o -> In x l').
Proof.
  induction l as [|y r IH]; intros l' n ND I E; [destruct I|].
  simpl in E. inversion ND as [|? ? NI ND']; subst.
  destruct (Nat.eqb (_id y) (_id o)) eqn:Q.
  - apply Nat.eqb_eq in Q. injection E as <- <-.
    assert (y = o).
    { destruct I as [I|I]; [exact I|]. exfalso. apply NI. rewrite Q. now apply in_ids. }
    subst y. repeat split.
    + left. reflexivity.
    + intros x [<-|Hx]; [left; reflexivity|]. right. split; [right; exact Hx|].
      intros C. apply NI. rewrite <- C. now apply in_ids.
    + intros x [<-|Hx] N; [congruence|]. right. exact Hx.
  - apply Nat.eqb_neq in Q.
    destruct (updateCurrentVolume (_id o) v r) as [r' n'] eqn:U.
    injection E as <- <-.
    destruct I as [I|I]; [congruence|].
    destruct (IH r' n' ND' I eq_refl) as (A & B & C & D).
    repeat split.
    + exact A.
    + right. exact B.
    + intros x [<-|Hx]; [right; split; [left; reflexivity|exact Q]|].
      destruct (C x Hx) as [F|[F G]]; [left; exact F|right; split; [right; exact F|exact G]].
    + intros x [<-|Hx] N; [left; reflexivity|]. right. apply D; assumption.
Qed.

Lemma updateStatus_hit o s : forall l,
  NoDup (map _id l) -> In o l ->
  In (withStatus o s) (updateStatus (_id o) s l) /\
  (forall x, In x (updateStatus (_id o) s l) ->
     x = withStatus o s \/ (In x l /\ _id x <> _id o)) /\
  (forall x, In x l -> _id x <> _id o -> In x (updateStatus (_id o) s l)).
Proof.
  induction l as [|y r IH]; intros ND I; [destruct I|].
  simpl. inversion ND as [|? ? NI ND']; subst.
  destruct (Nat.eqb (_id y) (_id o)) eqn:Q.
  - apply Nat.eqb_eq in Q.
    assert (y = o).
    { destruct I as [I|I]; [exact I|]. exfalso. apply NI. rewrite Q. now apply in_ids. }
    subst y. repeat split.
    + left. reflexivity.
    + intros x [<-|Hx]; [left; reflexivity|]. right. split; [right; exact Hx|].
      intros C. apply NI. rewrite <- C. now apply in_ids.
    + intros x [<-|Hx] N; [congruence|]. right. exact Hx.
  - apply Nat.eqb_neq in Q.
    destruct I as [I|I]; [congruence|].
    destruct (IH ND' I) as (B & C & D).
    repeat split.
    + right. exact B.
    + intros x [<-|Hx]; [right; split; [left; reflexivity|exact Q]|].
      destruct (C x Hx) as [F|[F G]]; [left; exact F|right; split; [right; exact F|exact G]].
    + intros x [<-|Hx] N; [left; reflexivity|]. right. apply D; assumption.
Qed.

(** Writing the status under an id that may be absent: every document of
    the result is an old one, or an old one with the new status. *)
Lemma updateStatus_any id s : forall l x,
  In x (updateStatus id s l) ->
  In x l \/ exists o, In o l /\ _id o = id /\ x = withStatus o s.
Proof.
  induction l as [|y r IH]; intros x I; [destruct I|].
  simpl in I. destruct (Nat.eqb (_id y) id) eqn:Q.
  - apply Nat.eqb_eq in Q. destruct I as [<-|I].
    + right. exists y. repeat split; [left; reflexivity|exact Q].
    + left. right. exact I.
  - destruct I as [<-|I]; [left; left; reflexivity|].
    destruct (IH x I) as [F|(o & F & G & H)]; [left; right; exact F|].
    right. exists o. repeat split; [right; exact F|exact G|exact H].
Qed.

Lemma updateStatus_keeps id s : forall l o,
  In o l -> exists o', In o' (updateStatus id s l) /\ (o' = o \/ o' = withStatus o s).
Proof.
  induction l as [|y r IH]; intros o I; [destruct I|].
  simpl. destruct (Nat.eqb (_id y) id) eqn:Q.
  - destruct I as [<-|I].
    + exists (withStatus y s). split; [left; reflexivity|right; reflexivity].
    + exists o. split; [right; exact I|left; reflexivity].
  - destruct I as [<-|I].
    + exists y. split; [left; reflexivity|left; reflexivity].
    + destruct (IH o I) as (o' & F & G). exists o'. split; [right; exact F|exact G].
Qed.

(* ===================================================================== *)
(** ** One turn of the loop                                              *)
(* ===================================================================== *)

(** What a turn that went round did. *)
Lemma priceOf_Some order matching price :
  priceOf order matching = Some price ->
  price = (if isSelling order
           then JString (BN.valueOf (BN.max (limit order) (limit matching)))
           else JNumber (limit order)).
Proof.
  unfold priceOf. destruct (isSelling order).
  - destruct (BN.refuses (limit order) || BN.refuses (limit matching))%bool;
      [discriminate|]. intros H. injection H as <-. reflexivity.
  - intros H. injection H as <-. reflexivity.
Qed.

Lemma turn_Turned env order r order' m r' :
  turn env order r = Turned order' m r' ->
  exists ov matching mv v docs1 n1 docs2 n2,
    BigNumber (currentVolume order) = Some ov /\
    BN.isPositive ov = true /\
    rejects env (trips r) = false /\
    findMatching order (orders (eng r)) = Some matching /\
    BigNumber (currentVolume matching) = Some mv /\
    BigNumber (BN.valueOf (BN.min ov mv)) = Some v /\
    rejects env (S (trips r)) = false /\
    updateCurrentVolume (_id order) (BN.toString (BN.minus ov v)) (orders (eng r))
      = (docs1, n1) /\
    updateCurrentVolume (_id matching) (BN.toString (BN.minus mv v)) docs1
      = (docs2, n2) /\
    order' = (if Nat.eqb n1 1 then withCurrentVolume order (BN.toString (BN.minus ov v))
              else order) /\
    m = mkMatched order matching (BN.valueOf (BN.min ov mv))
          (if isSelling order
           then JString (BN.valueOf (BN.max (limit order) (limit matching)))
           else JNumber (limit order)) /\
    r' = mkRun (setOrders (eng r) docs2) (S (S (trips r))).
Proof.
  unfold turn. intros H.
  destruct (BigNumber (currentVolume order)) as [ov|] eqn:Eo; [|discriminate].
  destruct (BN.isPositive ov) eqn:Ep; [|discriminate]. cbn [negb] in H.
  destruct (rejects env (trips r)) eqn:R1; [discriminate|].
  cbn [tick eng trips] in H.
  destruct (findMatching order (orders (eng r))) as [matching|] eqn:Em; [|discriminate].
  destruct (BigNumber (currentVolume matching)) as [mv|] eqn:Ev; [|discriminate].
  destruct (priceOf order matching) as [price|] eqn:Epr; [|discriminate].
  destruct (BigNumber (BN.valueOf (BN.min ov mv))) as [v|] eqn:Ew; [|discriminate].
  destruct (rejects env (S (trips r))) eqn:R2; [discriminate|].
  destruct (updateCurrentVolume (_id order) _ (orders (eng r))) as [docs1 n1] eqn:U1.
  destruct (updateCurrentVolume (_id matching) _ docs1) as [docs2 n2] eqn:U2.
  injection H as <- <- <-.
  pose proof (priceOf_Some _ _ _ Epr) as ->.
  exists ov, matching, mv, v, docs1, n1, docs2, n2.
  repeat split; auto.
Qed.

(** A turn that did not go round left the engine as it was. *)
Lemma turn_Left env order r r' : turn env order r = Left r' -> eng r' = eng r.
Proof.
  unfold turn. intros H.
  destruct (BigNumber (currentVolume order)) as [ov|]; [|discriminate].
  destruct (BN.isPositive ov); cbn [negb] in H; [|injection H as <-; reflexivity].
  destruct (rejects env (trips r)); [discriminate|].
  cbn [tick eng trips] in H.
  destruct (findMatching order (orders (eng r))) as [matching|];
    [|injection H as <-; reflexivity].
  destruct (BigNumber (currentVolume matching)) as [mv|]; [|discriminate].
  destruct (priceOf order matching) as [price|]; [|discriminate].
  destruct (BigNumber (BN.valueOf (BN.min ov mv))) as [v|]; [|discriminate].
  destruct (rejects env (S (trips r))); [discriminate|].
  destruct (updateCurrentVolume (_id order) _ (orders (eng r))) as [docs1 n1].
  destruct (updateCurrentVolume (_id matching) _ docs1) as [docs2 n2].
  discriminate.
Qed.

Lemma turn_Raised env order r err r' : turn env order r = Raised err r' -> eng r' = eng r.
Proof.
  unfold turn. intros H.
  destruct (BigNumber (currentVolume order)) as [ov|]; [|injection H as <- <-; reflexivity].
  destruct (BN.isPositive ov); cbn [negb] in H; [|discriminate].
  destruct (rejects env (trips r)); [injection H as <- <-; reflexivity|].
  cbn [tick eng trips] in H.
  destruct (findMatching order (orders (eng r))) as [matching|]; [|discriminate].
  destruct (BigNumber (currentVolume matching)) as [mv|]; [|injection H as <- <-; reflexivity].
  destruct (priceOf order matching) as [price|]; [|injection H as <- <-; reflexivity].
  destruct (BigNumber (BN.valueOf (BN.min ov mv))) as [v|]; [|injection H as <- <-; reflexivity].
  destruct (rejects env (S (trips r))); [injection H as <- <-; reflexivity|].
  destruct (updateCurrentVolume (_id order) _ (orders (eng r))) as [docs1 n1].
  destruct (updateCurrentVolume (_id matching) _ docs1) as [docs2 n2].
  discriminate.
Qed.

(* ===================================================================== *)
(** ** Every call is a sequence of writes                                *)
(* ===================================================================== *)

Lemma same_id (l : list Order) a b :
  NoDup (map _id l) -> In a l -> In b l -> _id a = _id b -> a = b.
Proof.
  induction l as [|y r IH]; intros ND Ia Ib E; [destruct Ia|].
  inversion ND as [|? ? NI ND']; subst.
  destruct Ia as [<-|Ia], Ib as [<-|Ib]; auto.
  - exfalso. apply NI. rewrite E. now apply in_ids.
  - exfalso. apply NI. rewrite <- E. now apply in_ids.
Qed.

Lemma steps_one P b1 b2 : step P b1 b2 -> steps P b1 b2.
Proof. intros H. eapply steps_step; [exact H|apply steps_refl]. Qed.

Lemma steps_trans P b1 b2 b3 : steps P b1 b2 -> steps P b2 b3 -> steps P b1 b3.
Proof.
  induction 1 as [|? ? ? S1 S2 IH]; intros H; [exact H|].
  eapply steps_step; [exact S1|apply IH, H].
Qed.

Lemma findMatching_In order l m :
  findMatching order l = Some m -> In m l /\ eligible order m = true.
Proof.
  unfold findMatching. intros H.
  eapply findOne_In; [apply byLimit_asym|apply byLimit_cotrans|exact H].
Qed.

Lemma eligible_other_side order m :
  eligible order m = true -> isSelling m = negb (isSelling order).
Proof.
  unfold eligible. rewrite !andb_true_iff. intros (_ & H). now apply eqb_prop.
Qed.

Lemma eligible_not_canceled order m : eligible order m = true -> status m <> canceled.
Proof.
  unfold eligible. rewrite !andb_true_iff. intros (((_ & H) & _) & _) E.
  rewrite E in H. discriminate.
Qed.

Lemma eligible_live order m : eligible order m = true -> currentVolume m <> "0"%string.
Proof.
  unfold eligible. rewrite !andb_true_iff. intros (((H & _) & _) & _) E.
  rewrite E in H. discriminate.
Qed.

Lemma agree_In (l : list Order) order : In order l -> agree l order.
Proof. intros I. exists order. auto. Qed.

Lemma step_write P b b' : step P b b' -> write P b b'.
Proof.
  intros H. destruct H.
  - apply write_skip.
  - now apply write_insert.
  - eapply write_fill; eauto using agree_In.
  - apply write_status.
  - apply write_status.
Qed.

Lemma steps_writes P b b' : steps P b b' -> writes P b b'.
Proof.
  induction 1 as [|? ? ? S1 S2 IH]; [apply writes_refl|].
  eapply writes_step; [apply step_write; exact S1|exact IH].
Qed.

Lemma writes_one P b1 b2 : write P b1 b2 -> writes P b1 b2.
Proof. intros H. eapply writes_step; [exact H|apply writes_refl]. Qed.

Lemma writes_trans P b1 b2 b3 : writes P b1 b2 -> writes P b2 b3 -> writes P b1 b3.
Proof.
  induction 1 as [|? ? ? S1 S2 IH]; intros H; [exact H|].
  eapply writes_step; [exact S1|apply IH, H].
Qed.

Lemma wfBook_write P b b' : wfBook b -> write P b b' -> wfBook b'.
Proof.
  intros (ND & LT & FS) H. destruct H; unfold wfBook; cbn [docs next done].
  - repeat split; auto.
    + intros i Hi. apply LT in Hi. lia.
    + apply FS in H. lia.
    + apply FS in H. lia.
  - repeat split.
    + rewrite map_app. cbn [map _id]. apply NoDup_app.
      * exact ND.
      * repeat constructor. intros [].
      * intros i Hi [<-|[]]. apply LT in Hi. lia.
    + intros i Hi. rewrite map_app in Hi. apply in_app_or in Hi.
      destruct Hi as [Hi|[<-|[]]]; [apply LT in Hi|]; cbn [_id]; lia.
    + apply FS in H0. lia.
    + apply FS in H0. lia.
  - rewrite (updateCurrentVolume_ids_eq _ _ _ _ _ H6), (updateCurrentVolume_ids_eq _ _ _ _ _ H5).
    repeat split; auto.
    + apply in_app_or in H7. destruct H7 as [I|[<-|[]]]; [now apply FS|].
      cbn [incoming]. destruct H as (stored & Is & Eid & _). rewrite <- Eid.
      apply LT. now apply in_ids.
    + apply in_app_or in H7. destruct H7 as [I|[<-|[]]]; [now apply FS|].
      cbn [counterparty]. apply LT. apply in_ids. now apply findMatching_In in H2.
  - rewrite updateStatus_ids. repeat split; auto; now apply FS.
Qed.

Lemma wfBook_writes P b b' : wfBook b -> writes P b b' -> wfBook b'.
Proof.
  intros W H. induction H as [|? ? ? S1 S2 IH]; [exact W|].
  apply IH. eapply wfBook_write; eassumption.
Qed.

Lemma wfBook_step P b b' : wfBook b -> step P b b' -> wfBook b'.
Proof. intros W H. eapply wfBook_write; [exact W|apply step_write; exact H]. Qed.

Lemma wfBook_steps P b b' : wfBook b -> steps P b b' -> wfBook b'.
Proof.
  intros W H. induction H as [|? ? ? S1 S2 IH]; [exact W|].
  apply IH. eapply wfBook_step; eassumption.
Qed.

(** A turn that went round is a fill, and the in-memory document is again
    the stored one. *)
Lemma turn_step P env order r order' m r' fs :
  NoDup (map _id (orders (eng r))) -> In order (orders (eng r)) ->
  turn env order r = Turned order' m r' ->
  step P (bookOf (eng r) fs) (bookOf (eng r') (fs ++ [m])) /\
  In order' (orders (eng r')) /\
  (exists s, order' = withCurrentVolume order s).
Proof.
  intros ND I H.
  destruct (turn_Turned _ _ _ _ _ _ H)
    as (ov & matching & mv & v & docs1 & n1 & docs2 & n2 &
        Eo & Ep & R1 & Em & Ev & Ew & R2 & U1 & U2 & -> & -> & ->).
  split.
  - unfold bookOf. cbn [eng setOrders orders nextId].
    exact (step_fill P (mkBook (orders (eng r)) (nextId (eng r)) fs)
             order matching ov mv v _ docs1 n1 docs2 n2 I Eo Ep Em Ev Ew U1 U2).
  - cbn [eng setOrders orders].
    destruct (updateCurrentVolume_hit _ _ _ _ _ ND I U1) as (N1 & A1 & B1 & C1).
    set (s := BN.toString (BN.minus ov v)) in *.
    assert (O' : (if Nat.eqb n1 1 then withCurrentVolume order s else order)
                 = withCurrentVolume order s).
    { rewrite N1. destruct (String.eqb (currentVolume order) s) eqn:Q; [|reflexivity].
      apply String.eqb_eq in Q. cbn [Nat.eqb]. rewrite <- Q. symmetry.
      apply withCurrentVolume_same. }
    rewrite O'. split; [|exists s; reflexivity].
    destruct (findMatching_In _ _ _ Em) as [Im El].
    assert (Dif : _id matching <> _id order).
    { intros C. assert (matching = order) by (eapply same_id; eassumption). subst.
      apply eligible_other_side in El. destruct (isSelling order); discriminate. }
    assert (ND1 : NoDup (map _id docs1)).
    { replace (map _id docs1) with (map _id (orders (eng r))); [exact ND|].
      rewrite <- (updateCurrentVolume_ids (_id order) s (orders (eng r))).
      now rewrite U1. }
    assert (Im1 : In matching docs1) by (apply C1; assumption).
    destruct (updateCurrentVolume_hit _ _ _ _ _ ND1 Im1 U2) as (_ & _ & _ & D2).
    apply D2; [exact A1|]. destruct order; cbn [_id withCurrentVolume]. cbn [_id] in Dif. congruence.
Qed.

Lemma status_withCurrentVolume o s : status (withCurrentVolume o s) = status o.
Proof. reflexivity. Qed.

Lemma id_withCurrentVolume o s : _id (withCurrentVolume o s) = _id o.
Proof. reflexivity. Qed.

(** The loop is a sequence of fills; the in-memory document stays the
    stored one, with the id and the status it had. *)
Lemma turn_ids env order r order' m r' :
  turn env order r = Turned order' m r' ->
  map _id (orders (eng r')) = map _id (orders (eng r)).
Proof.
  intros T.
  destruct (turn_Turned _ _ _ _ _ _ T)
    as (ov & matching & mv & v & docs1 & n1 & docs2 & n2 & H).
  destruct H as (_ & _ & _ & _ & _ & _ & _ & U1 & U2 & _ & _ & ->).
  cbn [eng setOrders orders].
  rewrite (updateCurrentVolume_ids_eq _ _ _ _ _ U2), (updateCurrentVolume_ids_eq _ _ _ _ _ U1).
  reflexivity.
Qed.

Lemma matchLoop_steps P env n : forall order r fs,
  NoDup (map _id (orders (eng r))) -> In order (orders (eng r)) ->
  steps P (bookOf (eng r) fs)
          (bookOf (eng (loopRun (matchLoop env n order r)))
                  (fs ++ loopFills (matchLoop env n order r))) /\
  In (loopOrder (matchLoop env n order r))
     (orders (eng (loopRun (matchLoop env n order r)))) /\
  status (loopOrder (matchLoop env n order r)) = status order /\
  _id (loopOrder (matchLoop env n order r)) = _id order.
Proof.
  induction n as [|n IH]; intros order r fs W I; cbn [matchLoop].
  - cbn [loopRun loopFills loopOrder]. rewrite app_nil_r.
    repeat split; auto. apply steps_refl.
  - destruct (turn env order r) as [err r'|r'|order' m r'] eqn:T;
      cbn [loopRun loopFills loopOrder].
    + apply turn_Raised in T. rewrite T, app_nil_r.
      repeat split; auto. apply steps_refl.
    + apply turn_Left in T. rewrite T, app_nil_r.
      repeat split; auto. apply steps_refl.
    + destruct (turn_step P _ _ _ _ _ _ fs W I T) as (S1 & I' & s & E).
      assert (W' : NoDup (map _id (orders (eng r')))) by (rewrite (turn_ids _ _ _ _ _ _ T); exact W).
      destruct (IH order' r' (fs ++ [m]) W' I') as (S2 & I2 & St & Id).
      rewrite <- app_assoc in S2. cbn [app] in S2.
      repeat split.
      * eapply steps_step; eassumption.
      * exact I2.
      * rewrite St, E. reflexivity.
      * rewrite Id, E. reflexivity.
Qed.


Lemma matchLoop_rest env n : forall order r,
  sameRest (eng r) (eng (loopRun (matchLoop env n order r))).
Proof.
  induction n as [|n IH]; intros order r; cbn [matchLoop].
  - repeat split.
  - destruct (turn env order r) as [err r'|r'|order' m r'] eqn:T; cbn [loopRun].
    + apply turn_Raised in T. rewrite T. repeat split.
    + apply turn_Left in T. rewrite T. repeat split.
    + destruct (turn_Turned _ _ _ _ _ _ T)
        as (ov & matching & mv & v & docs1 & n1 & docs2 & n2 & H).
      destruct H as (_ & _ & _ & _ & _ & _ & _ & _ & _ & _ & _ & E).
      specialize (IH order' r'). rewrite E in IH at 1. cbn [eng] in IH.
      destruct IH as (A & B & C & D). repeat split; assumption.
Qed.

Lemma nextId_finishPass env order fs r :
  nextId (eng (passRun (finishPass env order fs r))) = nextId (eng r).
Proof.
  unfold finishPass. cbn [tick onEngine eng trips].
  repeat match goal with
         | |- context [if ?c then _ else _] => destruct c
         end; reflexivity.
Qed.

Lemma fills_finishPass env order fs r : passFills (finishPass env order fs r) = fs.
Proof.
  unfold finishPass. cbn [tick onEngine eng trips].
  repeat match goal with
         | |- context [if ?c then _ else _] => destruct c
         end; reflexivity.
Qed.

(** What the end of a pass does to the order collection: nothing, or the
    status write. *)
Lemma orders_finishPass env order fs r :
  orders (eng (passRun (finishPass env order fs r))) = orders (eng r) \/
  orders (eng (passRun (finishPass env order fs r)))
    = updateStatus (_id order) processed (orders (eng r)).
Proof.
  unfold finishPass. cbn [tick onEngine eng trips].
  repeat match goal with
         | |- context [if ?c then _ else _] => destruct c
         end; cbn; auto.
Qed.

Lemma finishPass_steps P env order fs0 fs r :
  In order (orders (eng r)) -> status order = unprocessed ->
  steps P (bookOf (eng r) fs0)
          (bookOf (eng (passRun (finishPass env order fs r))) fs0).
Proof.
  intros I St. unfold bookOf. rewrite nextId_finishPass.
  destruct (orders_finishPass env order fs r) as [E|E]; rewrite E.
  - apply steps_refl.
  - apply steps_one.
    exact (step_processed P (mkBook (orders (eng r)) (nextId (eng r)) fs0) order I St).
Qed.

Lemma processOrderWithin_steps P n env order r fs :
  wfBook (bookOf (eng r) fs) -> In order (orders (eng r)) ->
  status order = unprocessed ->
  steps P (bookOf (eng r) fs)
          (bookOf (eng (passRun (processOrderWithin n env order r)))
                  (fs ++ passFills (processOrderWithin n env order r))).
Proof.
  intros W I St. unfold processOrderWithin.
  destruct (matchLoop_steps P env n order r fs (proj1 W) I) as (S1 & I1 & St1 & Id1).
  destruct (loopEnd (matchLoop env n order r)); cbn [passRun passFills].
  - rewrite fills_finishPass. eapply steps_trans; [exact S1|].
    apply finishPass_steps; [exact I1|congruence].
  - exact S1.
  - exact S1.
Qed.

Lemma matchNextOrderWithin_steps P env n : forall r fs,
  wfBook (bookOf (eng r) fs) ->
  steps P (bookOf (eng r) fs)
          (bookOf (eng (drainRun (matchNextOrderWithin n env r)))
                  (fs ++ drainFills (matchNextOrderWithin n env r))).
Proof.
  induction n as [|n IH]; intros r fs W.
  - cbn [matchNextOrderWithin].
    destruct (processing (eng r)); cbn [drainRun drainFills];
      [rewrite app_nil_r; apply steps_refl|].
    destruct (rejects env _); cbn [drainRun drainFills];
      [rewrite app_nil_r; apply steps_refl|].
    cbn [tick onEngine eng trips setProcessing orders].
    destruct (findOne byCreatedAsc isUnprocessed (orders (eng r))) as [order|] eqn:F;
      cbn [drainRun drainFills]; [|rewrite app_nil_r; apply steps_refl].
    apply (findOne_In _ byCreatedAsc_asym byCreatedAsc_cotrans) in F. destruct F as [I U].
    apply (processOrderWithin_steps P _ env order
             (mkRun (setProcessing (eng r) true) (S (trips r))) fs W I).
    unfold isUnprocessed in U. destruct (status order); try discriminate. reflexivity.
  - cbn [matchNextOrderWithin].
    destruct (processing (eng r)); cbn [drainRun drainFills];
      [rewrite app_nil_r; apply steps_refl|].
    destruct (rejects env _); cbn [drainRun drainFills];
      [rewrite app_nil_r; apply steps_refl|].
    cbn [tick onEngine eng trips setProcessing orders].
    destruct (findOne byCreatedAsc isUnprocessed (orders (eng r))) as [order|] eqn:F;
      cbn [drainRun drainFills]; [|rewrite app_nil_r; apply steps_refl].
    apply (findOne_In _ byCreatedAsc_asym byCreatedAsc_cotrans) in F. destruct F as [I U].
    assert (St : status order = unprocessed).
    { unfold isUnprocessed in U. destruct (status order); try discriminate. reflexivity. }
    set (r1 := mkRun (setProcessing (eng r) true) (S (trips r))).
    pose proof (processOrderWithin_steps P (turnsFor order (orders (eng r1))) env order
                  r1 fs W I St) as S1.
    fold (processOrder env order r1) in S1.
    set (p := processOrder env order r1) in *.
    assert (W' := wfBook_steps _ _ _ W S1).
    specialize (IH (passRun p) (fs ++ passFills p) W').
    rewrite app_assoc. eapply steps_trans; eassumption.
Qed.

(** Every call changes the book by a sequence of writes. *)
Lemma call_steps P c e fs :
  wfBook (bookOf e fs) -> placing P c ->
  steps P (bookOf e fs) (bookOf (after (call c e)) (fs ++ fills (call c e))).
Proof.
  intros W Pc. destruct c as [env l v u s|id|env]; cbn [call].
  - unfold placeOrder.
    destruct (BN.is_empty v); cbn [after fills];
      [rewrite app_nil_r; apply steps_one; apply (step_skip P (bookOf e fs))|].
    destruct (BN.is_empty u); cbn [after fills];
      [rewrite app_nil_r; apply steps_one; apply (step_skip P (bookOf e fs))|].
    destruct (rejects env 0); cbn [after fills];
      [rewrite app_nil_r; apply steps_one; apply (step_skip P (bookOf e fs))|].
    assert (S1 := step_insert P (bookOf e fs) l v u s (now env 0) Pc).
    eapply steps_step; [exact S1|].
    apply (matchNextOrderWithin_steps P env _
             (mkRun (setOrders (mkEngine (orders e) (marketData e) (processing e)
                                         (S (nextId e)) (console e))
                      (orders e ++ [mkOrder (nextId e) l v v s unprocessed u (now env 0)]))
                    1) fs).
    exact (wfBook_step _ _ _ W S1).
  - unfold cancelOrder. cbn [after fills]. rewrite app_nil_r.
    apply steps_one. apply (step_cancel P (bookOf e fs) id).
  - cbn [after fills].
    apply (matchNextOrderWithin_steps P env _ (mkRun e 0) fs W).
Qed.

Lemma wfBook_initial : wfBook (bookOf initial []).
Proof. split; [constructor|split; intros ? []]. Qed.

Lemma reachableBy_steps P e fs :
  reachableBy P e fs ->
  steps P (bookOf initial []) (bookOf e fs) /\ wfBook (bookOf e fs).
Proof.
  induction 1 as [|e fs c R [S1 W] Pc].
  - split; [apply steps_refl|apply wfBook_initial].
  - assert (S2 := call_steps P c e fs W Pc).
    split; [eapply steps_trans; eassumption|eapply wfBook_steps; eassumption].
Qed.

Lemma reachable_reachableBy e fs : reachable e fs <-> reachableBy (fun _ => True) e fs.
Proof.
  split; induction 1; try constructor; auto.
  destruct c; exact I.
Qed.

Lemma runCalls_reachable cs : forall e fs,
  reachable e fs ->
  reachable (fst (runCalls cs e)) (fs ++ snd (runCalls cs e)).
Proof.
  induction cs as [|c cs IH]; intros e fs R; cbn [runCalls].
  - cbn [fst snd]. rewrite app_nil_r. exact R.
  - specialize (IH _ _ (reach_call e fs c R)).
    destruct (runCalls cs (after (call c e))) as [e' fs']. cbn [fst snd] in *.
    rewrite app_assoc. exact IH.
Qed.

Lemma runCalls_initial cs :
  reachable (fst (runCalls cs initial)) (snd (runCalls cs initial)).
Proof. exact (runCalls_reachable cs initial [] reach_initial). Qed.

(* ===================================================================== *)
(** ** Every event is a sequence of writes                               *)
(* ===================================================================== *)

(** The documents after a fill: the two that were written and the others
    as they were. *)
Lemma fill_docs order stored matching sO sM l docs1 n1 docs2 n2 :
  NoDup (map _id l) ->
  In stored l -> _id stored = _id order -> isSelling stored = isSelling order ->
  findMatching order l = Some matching ->
  updateCurrentVolume (_id order) sO l = (docs1, n1) ->
  updateCurrentVolume (_id matching) sM docs1 = (docs2, n2) ->
  _id matching <> _id order /\ In matching l /\
  n1 = (if String.eqb (currentVolume stored) sO then O else 1%nat) /\
  In (withCurrentVolume stored sO) docs2 /\
  In (withCurrentVolume matching sM) docs2 /\
  forall x, In x docs2 ->
    x = withCurrentVolume matching sM \/ x = withCurrentVolume stored sO \/
    (In x l /\ _id x <> _id order /\ _id x <> _id matching).
Proof.
  intros ND I Eid Es Em U1 U2.
  destruct (findMatching_In _ _ _ Em) as [Im El].
  assert (Dif : _id matching <> _id order).
  { intros C. assert (matching = stored) by (eapply same_id; eauto; congruence). subst.
    apply eligible_other_side in El. rewrite Es in El.
    destruct (isSelling order); discriminate. }
  rewrite <- Eid in U1.
  destruct (updateCurrentVolume_hit _ _ _ _ _ ND I U1) as (N1 & A1 & B1 & C1).
  assert (ND1 : NoDup (map _id docs1))
    by (rewrite (updateCurrentVolume_ids_eq _ _ _ _ _ U1); exact ND).
  assert (Im1 : In matching docs1) by (apply C1; congruence).
  destruct (updateCurrentVolume_hit _ _ _ _ _ ND1 Im1 U2) as (_ & A2 & B2 & D2).
  repeat split; auto.
  - apply D2; [exact A1|]. cbn [_id withCurrentVolume]. destruct stored; cbn [_id] in *. congruence.
  - intros x Ix. destruct (B2 x Ix) as [E|[I1 N]]; [left; exact E|].
    destruct (B1 x I1) as [E|[I0 N0]]; [right; left; exact E|].
    right. right. repeat split; auto. congruence.
Qed.

(** A turn that went round is a fill, and the in-memory document agrees
    again with the stored one. *)
Lemma turn_write P env order r order' m r' fs :
  NoDup (map _id (orders (eng r))) -> agree (orders (eng r)) order ->
  turn env order r = Turned order' m r' ->
  write P (bookOf (eng r) fs) (bookOf (eng r') (fs ++ [m])) /\
  agree (orders (eng r')) order'.
Proof.
  intros ND A H.
  destruct (turn_Turned _ _ _ _ _ _ H)
    as (ov & matching & mv & v & docs1 & n1 & docs2 & n2 &
        Eo & Ep & R1 & Em & Ev & Ew & R2 & U1 & U2 & -> & -> & ->).
  split.
  - unfold bookOf. cbn [eng setOrders orders nextId].
    exact (write_fill P (mkBook (orders (eng r)) (nextId (eng r)) fs)
             order matching ov mv v _ docs1 n1 docs2 n2 A Eo Ep Em Ev Ew U1 U2).
  - cbn [eng setOrders orders].
    destruct A as (stored & Is & Eid & Ec & Es).
    destruct (fill_docs _ _ _ _ _ _ _ _ _ _ ND Is Eid Es Em U1 U2)
      as (_ & _ & N1 & A1 & _).
    set (s := BN.toString (BN.minus ov v)) in *.
    exists (withCurrentVolume stored s). split; [exact A1|].
    rewrite N1.
    destruct (String.eqb (currentVolume stored) s) eqn:Q; cbn [Nat.eqb].
    + apply String.eqb_eq in Q. repeat split; cbn; congruence.
    + repeat split; cbn; congruence.
Qed.



Lemma agree_app l x order : agree l order -> agree (l ++ [x]) order.
Proof.
  intros (stored & I & H). exists stored. split; [|exact H].
  apply in_or_app. left. exact I.
Qed.

Lemma agree_updateStatus id s l order :
  agree l order -> agree (updateStatus id s l) order.
Proof.
  intros (stored & I & Eid & Ec & Es).
  destruct (updateStatus_keeps id s l stored I) as (o' & I' & [->| ->]).
  - exists stored. auto.
  - exists (withStatus stored s). repeat split; auto.
Qed.

Lemma worldOk_trigger w : worldOk w -> worldOk (trigger w).
Proof.
  unfold trigger. destruct (processing (engine w)); [auto|]. intros _. exact I.
Qed.

Lemma book_trigger w fs : bookOfWorld (trigger w) fs = bookOfWorld w fs.
Proof. unfold trigger. destruct (processing (engine w)); reflexivity. Qed.

(** Every event changes the book by a sequence of writes. *)
Lemma react_writes P ev w fs :
  wfBook (bookOfWorld w fs) -> worldOk w -> placingEvent P ev ->
  writes P (bookOfWorld w fs) (bookOfWorld (fst (react ev w)) (fs ++ snd (react ev w))) /\
  worldOk (fst (react ev w)).
Proof.
  intros W Ok Pe. destruct ev as [[env l v u s|id|env]|env]; cbn [react fst snd].
  - (* placeOrder *)
    rewrite app_nil_r. unfold placed.
    destruct (BN.is_empty v);
      [split; [apply writes_one; apply (write_skip P (bookOfWorld w fs))|exact Ok]|].
    destruct (BN.is_empty u);
      [split; [apply writes_one; apply (write_skip P (bookOfWorld w fs))|exact Ok]|].
    destruct (rejects env 0);
      [split; [apply writes_one; apply (write_skip P (bookOfWorld w fs))|exact Ok]|].
    rewrite book_trigger. split.
    + apply writes_one.
      exact (write_insert P (bookOfWorld w fs) l v u s (now env 0) Pe).
    + apply worldOk_trigger. unfold worldOk in *. cbn [drain engine setOrders orders].
      destruct (drain w); auto. now apply agree_app.
  - (* cancelOrder *)
    rewrite app_nil_r. split.
    + apply writes_one. exact (write_status P (bookOfWorld w fs) id canceled).
    + unfold worldOk in *. cbn [drain engine cancelOrder after setOrders orders].
      destruct (drain w); auto. now apply agree_updateStatus.
  - (* matchNextOrder *)
    rewrite app_nil_r, book_trigger. split; [apply writes_refl|now apply worldOk_trigger].
  - (* the drain goes on *)
    unfold resume. destruct (drain w) as [| |order fs0] eqn:D; cbn [fst snd].
    + rewrite app_nil_r. split; [apply writes_refl|exact Ok].
    + destruct (rejects env 0); cbn [fst snd];
        [rewrite app_nil_r; split; [apply writes_refl|exact I]|].
      destruct (findOne byCreatedAsc isUnprocessed (orders (engine w))) as [order|] eqn:F;
        cbn [fst snd]; rewrite app_nil_r; (split; [apply writes_refl|]); [|exact I].
      apply (findOne_In _ byCreatedAsc_asym byCreatedAsc_cotrans) in F.
      unfold worldOk. cbn [drain engine]. apply agree_In. apply F.
    + unfold worldOk in Ok. rewrite D in Ok.
      destruct (turn env order (mkRun (engine w) 0)) as [err r|r|order' m r] eqn:T;
        cbn [fst snd].
      * apply turn_Raised in T. cbn [eng] in T. rewrite app_nil_r.
        split; [|exact I]. unfold bookOfWorld, bookOf. cbn [engine log orders nextId].
        rewrite T. apply writes_refl.
      * apply turn_Left in T. cbn [eng] in T.
        assert (Wr : writes P (bookOfWorld w fs)
                       (bookOf (eng (passRun (finishPass env order fs0 r))) fs)).
        { unfold bookOfWorld, bookOf. rewrite nextId_finishPass, T.
          destruct (orders_finishPass env order fs0 r) as [E|E]; rewrite E, T.
          - apply writes_refl.
          - apply writes_one.
            exact (write_status P (mkBook (orders (engine w)) (nextId (engine w)) fs)
                     (_id order) processed). }
        destruct (passEnd (finishPass env order fs0 r)); cbn [fst snd];
          rewrite app_nil_r; try (split; [exact Wr|exact I]).
        rewrite book_trigger. split; [exact Wr|]. apply worldOk_trigger. exact I.
      * destruct (turn_write P env order (mkRun (engine w) 0) order' m r fs (proj1 W) Ok T)
          as (Wr & A).
        split; [apply writes_one; exact Wr|exact A].
Qed.

Lemma wfWorld_initial : wfBook (bookOfWorld initialWorld []).
Proof. exact wfBook_initial. Qed.

Lemma reachableWorld_writes P w fs :
  reachableWorld P w fs ->
  writes P (bookOf initial []) (bookOfWorld w fs) /\
  wfBook (bookOfWorld w fs) /\ worldOk w.
Proof.
  induction 1 as [|w fs ev R (S1 & W & Ok) Pe].
  - split; [apply writes_refl|]. split; [apply wfBook_initial|exact I].
  - destruct (react_writes P ev w fs W Ok Pe) as (S2 & Ok').
    split; [eapply writes_trans; eassumption|].
    split; [eapply wfBook_writes; eassumption|exact Ok'].
Qed.




Lemma reactAll_reachableWorld P evs : forall w fs,
  reachableWorld P w fs -> Forall (placingEvent P) evs ->
  reachableWorld P (fst (reactAll evs w)) (fs ++ snd (reactAll evs w)).
Proof.
  induction evs as [|ev evs IH]; intros w fs R F; cbn [reactAll].
  - cbn [fst snd]. rewrite app_nil_r. exact R.
  - inversion F as [|? ? Pe F']; subst.
    pose proof (world_event _ w fs ev R Pe) as R1.
    destruct (react ev w) as [w1 fs1]. cbn [fst snd] in R1.
    specialize (IH w1 (fs ++ fs1) R1 F').
    destruct (reactAll evs w1) as [w2 fs2]. cbn [fst snd] in *.
    rewrite app_assoc. exact IH.
Qed.

Lemma reactAll_from_initial P evs :
  Forall (placingEvent P) evs ->
  reachableWorld P (fst (reactAll evs initialWorld)) (snd (reactAll evs initialWorld)).
Proof. exact (reactAll_reachableWorld P evs initialWorld [] (world_initial _)). Qed.

(** Writes keep the stored volumes decimal. *)
Lemma parses_updateCurrentVolume id v : forall l l' n,
  parses l -> (exists d, BigNumber v = Some d) ->
  updateCurrentVolume id v l = (l', n) -> parses l'.
Proof.
  induction l as [|y r IH]; intros l' n P V E; cbn [updateCurrentVolume] in E.
  - injection E as <- <-. intros o [].
  - destruct (Nat.eqb (_id y) id).
    + injection E as <- <-. intros o [<-|I]; [exact V|].
      apply P. right. exact I.
    + destruct (updateCurrentVolume id v r) as [r' n'] eqn:U. injection E as <- <-.
      intros o [<-|I]; [apply P; left; reflexivity|].
      refine (IH r' n' _ V eq_refl o I).
      intros x Ix. apply P. right. exact Ix.
Qed.

Lemma parses_updateStatus id s l : parses l -> parses (updateStatus id s l).
Proof.
  intros P o I. destruct (updateStatus_any _ _ _ _ I) as [I'|(x & Ix & _ & ->)].
  - exact (P o I').
  - exact (P x Ix).
Qed.

Lemma parses_turn env order r order' m r' :
  parses (orders (eng r)) -> turn env order r = Turned order' m r' ->
  parses (orders (eng r')).
Proof.
  intros P T.
  destruct (turn_Turned _ _ _ _ _ _ T)
    as (ov & matching & mv & v & docs1 & n1 & docs2 & n2 & H).
  destruct H as (_ & _ & _ & _ & _ & _ & _ & U1 & U2 & _ & _ & ->).
  cbn [eng setOrders orders].
  assert (V : forall d, exists d', BigNumber (BN.toString d) = Some d')
    by (intros d; exists (BN.normalize d); apply parse_toString).
  eapply parses_updateCurrentVolume; [|apply V|exact U2].
  eapply parses_updateCurrentVolume; [exact P|apply V|exact U1].
Qed.


(* ===================================================================== *)
(** ** Choice of the counterparty (C1) and the fill (C2)                 *)
(* ===================================================================== *)

Local Open Scope Q_scope.

Lemma byLimit_false_price order a b :
  byLimit (if isSelling order then Desc else Asc) a b = false ->
  priceAtLeastAsGood order b a.
Proof.
  unfold priceAtLeastAsGood. destruct (isSelling order); cbn [byLimit];
    rewrite ltb_false_Qle; auto.
Qed.

Lemma byLimit_true_price order a b :
  byLimit (if isSelling order then Desc else Asc) a b = true ->
  ~ samePrice b a.
Proof.
  unfold samePrice. destruct (isSelling order); cbn [byLimit];
    rewrite ltb_Qlt; intros H E; rewrite E in H; exact (Qlt_irrefl _ H).
Qed.

(** The counterparty query: the document returned passes the filter, has
    the best price among those that do, and is the first of them in the
    collection among those with that price. *)
Lemma findMatching_spec order l m :
  findMatching order l = Some m ->
  In m l /\ eligible order m = true /\
  (forall x, In x l -> eligible order x = true -> priceAtLeastAsGood order m x) /\
  (exists d1 d2, l = d1 ++ m :: d2 /\
     forall x, In x d1 -> eligible order x = true -> ~ samePrice x m).
Proof.
  intros H. destruct (findMatching_In _ _ _ H) as [I E].
  split; [exact I|]. split; [exact E|]. split.
  - intros x Ix Ex. apply byLimit_false_price.
    exact (findOne_best _ (byLimit_asym _) (byLimit_cotrans _) _ _ _ H x Ix Ex).
  - destruct (findOne_split _ (byLimit_asym _) (byLimit_cotrans _) _ _ _ H)
      as (d1 & d2 & -> & F1 & _).
    exists d1, d2. split; [reflexivity|].
    intros x Ix Ex. eapply byLimit_true_price. apply F1; assumption.
Qed.



(** The volume and the price of a turn's fill. *)
Lemma turn_fill env order r order' m r' :
  turn env order r = Turned order' m r' -> fillAsComputed m.
Proof.
  intros T.
  destruct (turn_Turned _ _ _ _ _ _ T)
    as (ov & matching & mv & v & docs1 & n1 & docs2 & n2 & H).
  destruct H as (Eo & _ & _ & _ & Ev & Ew & _ & _ & _ & _ & -> & _).
  unfold fillAsComputed. cbn [incoming counterparty fillVolume fillPrice].
  unfold BN.valueOf in *. unfold BigNumber in Ew. rewrite parse_toString in Ew.
  injection Ew as <-.
  exists ov, mv, (BN.normalize (BN.min ov mv)).
  destruct (isSelling order).
  - exists (BN.normalize (BN.max (limit order) (limit matching))).
    repeat split; auto.
    + unfold BigNumber. apply parse_toString.
    + rewrite toQ_normalize. apply toQ_min.
    + cbn [priceValue]. unfold BigNumber. apply parse_toString.
    + rewrite toQ_normalize. apply toQ_max.
  - exists (limit order).
    repeat split; auto.
    + unfold BigNumber. apply parse_toString.
    + rewrite toQ_normalize. apply toQ_min.
Qed.

Lemma matchLoop_fills env n : forall order r,
  Forall fillAsComputed (loopFills (matchLoop env n order r)).
Proof.
  induction n as [|n IH]; intros order r; cbn [matchLoop]; [constructor|].
  destruct (turn env order r) as [err r'|r'|order' m r'] eqn:T;
    cbn [loopFills]; try constructor.
  - eapply turn_fill; eassumption.
  - apply IH.
Qed.

Lemma passFills_loopFills n env order r :
  passFills (processOrderWithin n env order r) = loopFills (matchLoop env n order r).
Proof.
  unfold processOrderWithin.
  destruct (loopEnd (matchLoop env n order r)); cbn [passFills]; try reflexivity.
  apply fills_finishPass.
Qed.

(** C2: every fill of a pass has volume min(incoming.currentVolume,
    counterparty.currentVolume), the current volumes being those the turn
    read; its price is max(incoming.limit, counterparty.limit) when the
    incoming order sells and incoming.limit when it buys. *)
Theorem fills_of_pass_as_computed env order r :
  Forall fillAsComputed (passFills (processOrder env order r)).
Proof.
  unfold processOrder. rewrite passFills_loopFills. apply matchLoop_fills.
Qed.

(** The partial fill of the specification: ask A (limit 10, volume 5),
    then bid B (limit 12, volume 8): one fill of 5 at 12; A is left with
    0 and B with 3, both processed. *)
Example partial_fill :
  let e1 := after (call (PlaceOrder (healthy 100) (dec 10) "5" "ann" true) initial) in
  let out := call (PlaceOrder (healthy 200) (dec 12) "8" "bob" false) e1 in
  map (fun m => (_id (incoming m), _id (counterparty m), fillVolume m, fillPrice m))
      (fills out) = [(1%nat, 0%nat, "5"%string, JNumber (dec 12))] /\
  map (fun o => (_id o, currentVolume o, status o)) (orders (after out))
    = [(0%nat, "0"%string, processed); (1%nat, "3"%string, processed)].
Proof. split; vm_compute; reflexivity. Qed.

Local Close Scope Q_scope.

(* ===================================================================== *)
(** ** The matching loop ends (C10)                                      *)
(* ===================================================================== *)



Lemma live_cons o l :
  List.length (live (o :: l)) = (liveText (currentVolume o) + List.length (live l))%nat.
Proof.
  unfold live, liveText. cbn [List.filter].
  destruct (String.eqb (currentVolume o) "0"); reflexivity.
Qed.

(** Writing the volume of a stored document moves the number of live
    documents by the difference between the new text and the old. *)
Lemma live_updateCurrentVolume o s : forall l l' n,
  NoDup (map _id l) -> In o l ->
  updateCurrentVolume (_id o) s l = (l', n) ->
  (List.length (live l') + liveText (currentVolume o)
   = List.length (live l) + liveText s)%nat.
Proof.
  induction l as [|y r IH]; intros l' n ND I E; [destruct I|].
  cbn [updateCurrentVolume] in E. inversion ND as [|? ? NI ND']; subst.
  destruct (Nat.eqb (_id y) (_id o)) eqn:Q.
  - apply Nat.eqb_eq in Q. injection E as <- <-.
    assert (y = o).
    { destruct I as [I|I]; [exact I|]. exfalso. apply NI. rewrite Q. now apply in_ids. }
    subst y. rewrite !live_cons. cbn [currentVolume withCurrentVolume]. lia.
  - apply Nat.eqb_neq in Q.
    destruct (updateCurrentVolume (_id o) s r) as [r' n'] eqn:U.
    injection E as <- <-.
    destruct I as [I|I]; [congruence|].
    specialize (IH r' n' ND' I eq_refl). rewrite !live_cons. lia.
Qed.

Lemma minus_self_text a b :
  (BN.toQ a == BN.toQ b)%Q -> BN.toString (BN.minus a b) = "0"%string.
Proof.
  intros E. apply toString_zero. apply toQ_zero_iff. rewrite toQ_minus, E.
  unfold Qminus. apply Qplus_opp_r.
Qed.

Lemma positive_text_live s d :
  BigNumber s = Some d -> BN.isPositive d = true -> liveText s = 1%nat.
Proof.
  intros P H. unfold liveText. destruct (String.eqb s "0") eqn:Q; [|reflexivity].
  apply String.eqb_eq in Q. subst s. injection P as <-. discriminate.
Qed.

(** A turn that went round wrote ["0"] into the incoming order or into the
    counterparty. *)
Lemma turn_zeroes env order r order' m r' :
  NoDup (map _id (orders (eng r))) -> In order (orders (eng r)) ->
  turn env order r = Turned order' m r' ->
  (currentVolume order' = "0"%string \/
   In (withCurrentVolume (counterparty m) "0") (orders (eng r'))) /\
  (List.length (live (orders (eng r'))) < List.length (live (orders (eng r))))%nat.
Proof.
  intros ND I T.
  destruct (turn_step (fun _ => True) _ _ _ _ _ _ [] ND I T) as (_ & I' & _).
  destruct (turn_Turned _ _ _ _ _ _ T)
    as (ov & matching & mv & v & docs1 & n1 & docs2 & n2 &
        Eo & Ep & R1 & Em & Ev & Ew & R2 & U1 & U2 & EO & -> & ->).
  cbn [counterparty eng setOrders orders] in *.
  unfold BN.valueOf, BigNumber in Ew. rewrite parse_toString in Ew. injection Ew as <-.
  destruct (findMatching_In _ _ _ Em) as [Im El].
  assert (Dif : _id matching <> _id order).
  { intros C. assert (matching = order) by (eapply same_id; eassumption). subst.
    apply eligible_other_side in El. destruct (isSelling order); discriminate. }
  destruct (updateCurrentVolume_hit _ _ _ _ _ ND I U1) as (N1 & A1 & B1 & C1).
  assert (ND1 : NoDup (map _id docs1)).
  { replace (map _id docs1) with (map _id (orders (eng r))); [exact ND|].
    rewrite <- (updateCurrentVolume_ids (_id order)
                  (BN.toString (BN.minus ov (BN.normalize (BN.min ov mv)))) (orders (eng r))).
    now rewrite U1. }
  assert (Im1 : In matching docs1) by (apply C1; assumption).
  destruct (updateCurrentVolume_hit _ _ _ _ _ ND1 Im1 U2) as (_ & A2 & _ & _).
  pose proof (live_updateCurrentVolume _ _ _ _ _ ND I U1) as L1.
  pose proof (live_updateCurrentVolume _ _ _ _ _ ND1 Im1 U2) as L2.
  rewrite (positive_text_live _ _ Eo Ep) in L1.
  assert (Lm : liveText (currentVolume matching) = 1%nat).
  { unfold liveText. apply eligible_live in El.
    destruct (String.eqb (currentVolume matching) "0") eqn:Q; [|reflexivity].
    apply String.eqb_eq in Q. contradiction. }
  rewrite Lm in L2.
  assert (Z : BN.toString (BN.minus ov (BN.normalize (BN.min ov mv))) = "0"%string \/
              BN.toString (BN.minus mv (BN.normalize (BN.min ov mv))) = "0"%string).
  { unfold BN.min. destruct (BN.leb ov mv); [left|right];
      apply minus_self_text; symmetry; apply toQ_normalize. }
  assert (B : forall s, (liveText s <= 1)%nat).
  { intros s. unfold liveText. destruct (String.eqb s "0"); lia. }
  pose proof (B (BN.toString (BN.minus ov (BN.normalize (BN.min ov mv))))) as B1'.
  pose proof (B (BN.toString (BN.minus mv (BN.normalize (BN.min ov mv))))) as B2'.
  destruct Z as [Z|Z].
  - split.
    + left. rewrite EO, N1.
      destruct (String.eqb (currentVolume order) _) eqn:Q; cbn [Nat.eqb].
      * apply String.eqb_eq in Q. congruence.
      * exact Z.
    + rewrite Z in L1. change (liveText "0") with O in L1. lia.
  - split.
    + right. rewrite <- Z. exact A2.
    + rewrite Z in L2. change (liveText "0") with O in L2. lia.
Qed.

Lemma matchLoop_ends env n : forall order r,
  NoDup (map _id (orders (eng r))) -> In order (orders (eng r)) ->
  (List.length (live (orders (eng r))) < n)%nat ->
  loopEnd (matchLoop env n order r) <> StillTurning.
Proof.
  induction n as [|n IH]; intros order r ND I L; [lia|].
  cbn [matchLoop].
  destruct (turn env order r) as [err r'|r'|order' m r'] eqn:T; cbn [loopEnd];
    try discriminate.
  destruct (turn_step (fun _ => True) _ _ _ _ _ _ [] ND I T) as (S1 & I' & _).
  destruct (turn_zeroes _ _ _ _ _ _ ND I T) as (_ & D).
  apply IH; [|exact I'|lia].
  destruct (turn_Turned _ _ _ _ _ _ T)
    as (ov & matching & mv & v & docs1 & n1 & docs2 & n2 & H).
  destruct H as (_ & _ & _ & _ & _ & _ & _ & U1 & U2 & _ & _ & ->).
  cbn [eng setOrders orders].
  rewrite (updateCurrentVolume_ids_eq _ _ _ _ _ U2), (updateCurrentVolume_ids_eq _ _ _ _ _ U1).
  exact ND.
Qed.

Lemma live_length l : (List.length (live l) <= List.length l)%nat.
Proof. apply filter_length_le. Qed.

Lemma turnsFor_live order l : (List.length (live l) < turnsFor order l)%nat.
Proof. unfold turnsFor. pose proof (live_length l). lia. Qed.

(** *** The loop for any in-memory document *)
















Lemma ownSide_In order l : NoDup (map _id l) -> In order l -> ownSide order l.
Proof.
  intros ND I x Ix Ex. rewrite (same_id _ _ _ ND Ix I Ex). reflexivity.
Qed.

Lemma agree_In_self order l : In order l -> agree l order.
Proof. intros I. exists order. auto. Qed.

(** *** Why a turn ends as it does *)

(** A turn raises only when a store round trip is rejected, when a volume
    is not a decimal, or when the incoming order sells and [BigNumber]
    refuses one of the two limits. *)
Lemma turn_Raised_why env order r err r' :
  turn env order r = Raised err r' ->
  BigNumber (currentVolume order) = None \/
  rejects env (trips r) = true \/ rejects env (S (trips r)) = true \/
  exists matching, findMatching order (orders (eng r)) = Some matching /\
    (BigNumber (currentVolume matching) = None \/
     (isSelling order = true /\
      (BN.refuses (limit order) = true \/ BN.refuses (limit matching) = true))).
Proof.
  unfold turn. intros H.
  destruct (BigNumber (currentVolume order)) as [ov|] eqn:Eo; [|left; reflexivity].
  destruct (BN.isPositive ov); cbn [negb] in H; [|discriminate].
  destruct (rejects env (trips r)) eqn:R1; [right; left; reflexivity|].
  cbn [tick eng trips] in H.
  destruct (findMatching order (orders (eng r))) as [matching|] eqn:F; [|discriminate].
  destruct (BigNumber (currentVolume matching)) as [mv|] eqn:Ev;
    [|right; right; right; exists matching; split; [reflexivity|left; exact Ev]].
  destruct (priceOf order matching) as [price|] eqn:Epr.
  2:{ right. right. right. exists matching. split; [reflexivity|right].
      unfold priceOf in Epr. destruct (isSelling order); [|discriminate].
      split; [reflexivity|].
      destruct (BN.refuses (limit order)); [left; reflexivity|].
      destruct (BN.refuses (limit matching)); [right; reflexivity|discriminate]. }
  unfold BN.valueOf, BigNumber at 1 in H. rewrite parse_toString in H.
  destruct (rejects env (S (trips r))) eqn:R2; [right; right; left; reflexivity|].
  destruct (updateCurrentVolume (_id order) _ (orders (eng r))) as [docs1 n1].
  destruct (updateCurrentVolume (_id matching) _ docs1) as [docs2 n2].
  discriminate.
Qed.

(** On a store that answers, with decimal volumes and limits [BigNumber]
    accepts, no turn raises. *)
Lemma turn_not_Raised env order r err r' :
  answers env -> parses (orders (eng r)) -> acceptedLimits (orders (eng r)) ->
  In order (orders (eng r)) ->
  turn env order r <> Raised err r'.
Proof.
  intros A N AL I T.
  destruct (turn_Raised_why _ _ _ _ _ T) as [E|[E|[E|(matching & F & [E|(_ & [E|E])])]]].
  - destruct (N order I) as [ov Eo]. congruence.
  - rewrite A in E. discriminate.
  - rewrite A in E. discriminate.
  - destruct (N matching (proj1 (findMatching_In _ _ _ F))) as [mv Em]. congruence.
  - rewrite (AL order I) in E. discriminate.
  - rewrite (AL matching (proj1 (findMatching_In _ _ _ F))) in E. discriminate.
Qed.

(** A turn leaves the loop only when the volume of the incoming order is
    not above zero or when no counterparty is found. *)
Lemma turn_Left_why env order r r' :
  turn env order r = Left r' ->
  (exists ov, BigNumber (currentVolume order) = Some ov /\ BN.isPositive ov = false) \/
  findMatching order (orders (eng r)) = None.
Proof.
  unfold turn. intros H.
  destruct (BigNumber (currentVolume order)) as [ov|]; [|discriminate].
  destruct (BN.isPositive ov) eqn:P; cbn [negb] in H; [|left; exists ov; auto].
  destruct (rejects env (trips r)); [discriminate|].
  cbn [tick eng trips] in H.
  destruct (findMatching order (orders (eng r))) as [matching|]; [|right; reflexivity].
  destruct (BigNumber (currentVolume matching)) as [mv|]; [|discriminate].
  destruct (priceOf order matching) as [price|]; [|discriminate].
  destruct (BigNumber (BN.valueOf (BN.min ov mv))) as [v|]; [|discriminate].
  destruct (rejects env (S (trips r))); [discriminate|].
  destruct (updateCurrentVolume (_id order) _ (orders (eng r))) as [docs1 n1].
  destruct (updateCurrentVolume (_id matching) _ docs1) as [docs2 n2].
  discriminate.
Qed.



(* ===================================================================== *)
(** ** The shared task                                                   *)
(* ===================================================================== *)

(** With nothing queued a turn is the turn of [turn]. *)
Lemma turnWith_nil env order r : turnWith [] env order r = (turn env order r, []).
Proof.
  unfold turnWith, turn, cancelAll. cbn [fold_left].
  destruct (BigNumber (currentVolume order)) as [ov|]; [|reflexivity].
  destruct (negb (BN.isPositive ov)); [reflexivity|].
  destruct (rejects env (trips r)); [reflexivity|]. cbv zeta.
  destruct (findMatching order (orders (eng (tick r)))) as [matching|]; [|reflexivity].
  destruct (BigNumber (currentVolume matching)) as [mv|]; [|reflexivity].
  destruct (priceOf order matching) as [price|]; [|reflexivity].
  destruct (BigNumber (BN.valueOf (BN.min ov mv))) as [v|]; [|reflexivity].
  destruct (rejects env (trips (tick r))); [reflexivity|].
  destruct (updateCurrentVolume (_id order) _ _) as [docs1 n1].
  destruct (updateCurrentVolume (_id matching) _ docs1) as [docs2 n2].
  reflexivity.
Qed.

Lemma resumeWith_nil env w :
  resumeWith [] env w = (fst (resume env w), snd (resume env w), []).
Proof.
  unfold resumeWith, resume. destruct (drain w) as [| |order fs]; try reflexivity.
  rewrite turnWith_nil.
  destruct (turn env order (mkRun (engine w) 0)) as [err r|r|order' m r]; try reflexivity.
  destruct (passEnd (finishPass env order fs r)); reflexivity.
Qed.

(** With nothing queued, and no [cancelOrder] at its read, the events go
    as in [react]. *)
Lemma move_made ev w n :
  move (Made ev) (mkMachine w [] n) = (mkMachine (fst (react ev w)) [] n, snd (react ev w)).
Proof.
  destruct ev as [[env l v u s|id|env]|env]; cbn [move world task reading react fst snd];
    try reflexivity.
  rewrite resumeWith_nil. reflexivity.
Qed.

Lemma reachableWorld_reachableMachine P w fs :
  reachableWorld P w fs -> reachableMachine P (mkMachine w [] O) fs.
Proof.
  induction 1 as [|w fs ev R IH Pe]; [exact (machine_initial P)|].
  assert (C : calm (Made ev) (mkMachine w [] O)).
  { destruct ev as [c|env]; cbn; [exact I|]. destruct (drain w); auto. }
  pose proof (machine_move P _ _ (Made ev) IH Pe C) as M.
  rewrite move_made in M. exact M.
Qed.

Lemma cancelAll_app q id l : cancelAll (q ++ [id]) l = updateStatus id canceled (cancelAll q l).
Proof. unfold cancelAll. rewrite fold_left_app. reflexivity. Qed.









(* ===================================================================== *)
(** ** Volumes stay within bounds (C3)                                   *)
(* ===================================================================== *)

Local Open Scope Q_scope.

Lemma numeric_unique s q q' : numeric s q -> numeric s q' -> q == q'.
Proof.
  intros (d & P & E) (d' & P' & E'). rewrite P in P'. injection P' as <-.
  rewrite <- E, <- E'. reflexivity.
Qed.

Lemma numeric_parsed s d : BigNumber s = Some d -> numeric s (BN.toQ d).
Proof. intros P. exists d. split; [exact P|reflexivity]. Qed.

Lemma numeric_eq s q q' : numeric s q -> q == q' -> numeric s q'.
Proof. intros (d & P & E) H. exists d. split; [exact P|]. rewrite E. exact H. Qed.

Lemma numeric_toString d : numeric (BN.toString d) (BN.toQ d).
Proof.
  exists (BN.normalize d). split; [apply parse_toString|apply toQ_normalize].
Qed.

Lemma filled_app id fs m :
  filled id (fs ++ [m]) == filled id fs + (if involves id m then volumeOf m else 0).
Proof.
  induction fs as [|x r IH]; cbn [app filled].
  - ring.
  - rewrite IH. ring.
Qed.

Lemma filledBetween_app a b fs m :
  filledBetween a b (fs ++ [m]) ==
  filledBetween a b fs + (if (involves a m && involves b m)%bool then volumeOf m else 0).
Proof.
  induction fs as [|x r IH]; cbn [app filledBetween].
  - ring.
  - rewrite IH. ring.
Qed.

Lemma filled_nonneg id fs :
  (forall m, In m fs -> 0 <= volumeOf m) -> 0 <= filled id fs.
Proof.
  induction fs as [|x r IH]; intros H; cbn [filled]; [apply Qle_refl|].
  assert (0 <= filled id r) by (apply IH; intros; apply H; right; assumption).
  assert (0 <= volumeOf x) by (apply H; left; reflexivity).
  destruct (involves id x); lra.
Qed.

Lemma filledBetween_le a b fs :
  (forall m, In m fs -> 0 <= volumeOf m) ->
  filledBetween a b fs <= filled a fs /\ filledBetween a b fs <= filled b fs.
Proof.
  induction fs as [|x r IH]; intros H; cbn [filled filledBetween]; [split; apply Qle_refl|].
  assert (V : 0 <= volumeOf x) by (apply H; left; reflexivity).
  destruct IH as [A B]; [intros; apply H; right; assumption|].
  destruct (involves a x), (involves b x); cbn [andb]; split; lra.
Qed.

Lemma filled_fresh id fs :
  (forall m, In m fs -> (_id (incoming m) < id)%nat /\ (_id (counterparty m) < id)%nat) ->
  filled id fs == 0.
Proof.
  induction fs as [|x r IH]; intros H; cbn [filled]; [reflexivity|].
  rewrite IH by (intros; apply H; right; assumption).
  destruct (H x (or_introl eq_refl)) as [A B].
  unfold involves.
  replace (Nat.eqb (_id (incoming x)) id) with false by (symmetry; apply Nat.eqb_neq; lia).
  replace (Nat.eqb (_id (counterparty x)) id) with false by (symmetry; apply Nat.eqb_neq; lia).
  cbn [orb]. ring.
Qed.

Lemma validVolume_numeric v : validVolume v -> exists q, numeric v q /\ 0 <= q.
Proof.
  intros (d & P & N). exists (BN.toQ d). split; [now apply numeric_parsed|].
  unfold Qle. rewrite num_toQ. cbn [Qnum Qden]. lia.
Qed.

Lemma involves_neither id m :
  id <> _id (incoming m) -> id <> _id (counterparty m) -> involves id m = false.
Proof.
  intros A B. unfold involves.
  replace (Nat.eqb (_id (incoming m)) id) with false by (symmetry; apply Nat.eqb_neq; congruence).
  replace (Nat.eqb (_id (counterparty m)) id) with false by (symmetry; apply Nat.eqb_neq; congruence).
  reflexivity.
Qed.

Lemma involves_incoming m : involves (_id (incoming m)) m = true.
Proof. unfold involves. rewrite Nat.eqb_refl. reflexivity. Qed.

Lemma involves_counterparty m : involves (_id (counterparty m)) m = true.
Proof. unfold involves. rewrite Nat.eqb_refl. apply orb_true_r. Qed.

Lemma volumesOk_write b b' :
  wfBook b -> volumesOk b -> write validVolume b b' -> volumesOk b'.
Proof.
  intros (ND & LT & FS) (VO & VF) H. destruct H; unfold volumesOk; cbn [docs next done].
  - split; assumption.
  - split; [|assumption]. intros o Io. apply in_app_or in Io.
    destruct Io as [Io|[<-|[]]]; [now apply VO|].
    cbn [currentVolume originalVolume _id].
    destruct (validVolume_numeric _ H) as (q & Nq & Pq).
    exists q, q. repeat split; auto.
    rewrite (filled_fresh (next b) (done b) FS). ring.
  - (* a fill *)
    rename H0 into Eo, H1 into Ep, H2 into Em, H3 into Ev, H4 into Ew,
           H5 into U1, H6 into U2.
    destruct H as (stored & I & Eid & Ec & Es).
    destruct (fill_docs _ _ _ _ _ _ _ _ _ _ ND I Eid Es Em U1 U2)
      as (Dif & Im & _ & _ & _ & Mem).
    destruct (VO stored I) as (co & vo & Nco & Nvo & Pco & Sco).
    destruct (VO matching Im) as (cm & vm & Ncm & Nvm & Pcm & Scm).
    rewrite Ec in Nco. rewrite Eid in Sco.
    pose proof (numeric_unique _ _ _ Nco (numeric_parsed _ _ Eo)) as Qo.
    pose proof (numeric_unique _ _ _ Ncm (numeric_parsed _ _ Ev)) as Qm.
    unfold BN.valueOf, BigNumber in Ew. rewrite parse_toString in Ew. injection Ew as <-.
    set (m := mkMatched order matching (BN.valueOf (BN.min ov mv)) price).
    assert (Vm : volumeOf m == Qmin co cm).
    { unfold volumeOf, m, BN.valueOf, BigNumber. cbn [fillVolume].
      rewrite parse_toString, toQ_normalize, toQ_min, Qo, Qm. reflexivity. }
    assert (Vn : BN.toQ (BN.normalize (BN.min ov mv)) == Qmin co cm).
    { rewrite toQ_normalize, toQ_min, Qo, Qm. reflexivity. }
    assert (Mn : 0 <= Qmin co cm /\ Qmin co cm <= co /\ Qmin co cm <= cm).
    { destruct (Q.min_spec co cm) as [[L E]|[L E]]; rewrite E; repeat split; lra. }
    destruct Mn as (M0 & M1 & M2).
    split.
    + intros x Ix. destruct (Mem x Ix) as [->|[->|(I0 & N1 & N2)]].
      * cbn [currentVolume originalVolume _id withCurrentVolume].
        exists (cm - Qmin co cm), vm. repeat split; auto.
        -- eapply numeric_eq; [apply numeric_toString|].
           rewrite toQ_minus, Vn, Qm. reflexivity.
        -- lra.
        -- rewrite filled_app.
           replace (involves (_id matching) m) with true
             by (symmetry; apply (involves_counterparty m)).
           rewrite Vm. lra.
      * cbn [currentVolume originalVolume _id withCurrentVolume].
        exists (co - Qmin co cm), vo. repeat split; auto.
        -- eapply numeric_eq; [apply numeric_toString|].
           rewrite toQ_minus, Vn, Qo. reflexivity.
        -- lra.
        -- rewrite Eid, filled_app.
           replace (involves (_id order) m) with true
             by (symmetry; apply (involves_incoming m)).
           rewrite Vm. lra.
      * destruct (VO x I0) as (c & v & Nc & Nv & Pc & Sc).
        exists c, v. repeat split; auto.
        rewrite filled_app, (involves_neither (_id x) m) by assumption. lra.
    + intros x Ix. apply in_app_or in Ix. destruct Ix as [Ix|[<-|[]]]; [now apply VF|].
      rewrite Vm. exact M0.
  - split; [|assumption]. intros x Ix.
    destruct (updateStatus_any _ _ _ _ Ix) as [I0|(o' & I0 & _ & ->)];
      [now apply VO|exact (VO o' I0)].
Qed.

Lemma volumesOk_writes b b' :
  wfBook b -> volumesOk b -> writes validVolume b b' -> volumesOk b'.
Proof.
  intros W V H. induction H as [|? ? ? S1 S2 IH]; [exact V|].
  apply IH; [eapply wfBook_write|eapply volumesOk_write]; eassumption.
Qed.

Lemma volumesOk_initial : volumesOk (bookOf initial []).
Proof. split; intros ? []. Qed.

Lemma volumes_of_book b fs0 :
  volumesOk b -> fs0 = done b ->
  (forall o, In o (docs b) ->
     exists c v, numeric (currentVolume o) c /\ numeric (originalVolume o) v /\
                 0 <= c /\ c <= v) /\
  (forall x y, In x (docs b) -> In y (docs b) ->
     exists vx vy, numeric (originalVolume x) vx /\ numeric (originalVolume y) vy /\
                   filledBetween (_id x) (_id y) fs0 <= Qmin vx vy).
Proof.
  intros [VO VF] ->. split.
  - intros o Io. destruct (VO o Io) as (c & v & Nc & Nv & Pc & Sc).
    exists c, v. repeat split; auto.
    pose proof (filled_nonneg (_id o) (done b) VF). lra.
  - intros x y Ix Iy.
    destruct (VO x Ix) as (cx & vx & _ & Nvx & Pcx & Scx).
    destruct (VO y Iy) as (cy & vy & _ & Nvy & Pcy & Scy).
    exists vx, vy. repeat split; auto.
    destruct (filledBetween_le (_id x) (_id y) (done b) VF) as [A B].
    destruct (Q.min_spec vx vy) as [[L E]|[L E]]; rewrite E; lra.
Qed.


(** The same for events in which every [cancelOrder] is taken whole. *)
Lemma volumes_within_bounds_events w fs :
  reachableWorld validVolume w fs ->
  (forall o, In o (orders (engine w)) ->
     exists c v, numeric (currentVolume o) c /\ numeric (originalVolume o) v /\
                 0 <= c /\ c <= v) /\
  (forall a b, In a (orders (engine w)) -> In b (orders (engine w)) ->
     exists va vb, numeric (originalVolume a) va /\ numeric (originalVolume b) vb /\
                   filledBetween (_id a) (_id b) fs <= Qmin va vb).
Proof.
  intros R. destruct (reachableWorld_writes _ _ _ R) as (S & W & _).
  pose proof (volumesOk_writes _ _ wfBook_initial volumesOk_initial S) as V.
  exact (volumes_of_book _ fs V eq_refl).
Qed.

(** The same for calls that each run to the end of the drain they
    start. *)
Lemma volumes_within_bounds_calls e fs :
  reachableBy validVolume e fs ->
  (forall o, In o (orders e) ->
     exists c v, numeric (currentVolume o) c /\ numeric (originalVolume o) v /\
                 0 <= c /\ c <= v) /\
  (forall a b, In a (orders e) -> In b (orders e) ->
     exists va vb, numeric (originalVolume a) va /\ numeric (originalVolume b) vb /\
                   filledBetween (_id a) (_id b) fs <= Qmin va vb).
Proof.
  intros R. destruct (reachableBy_steps _ _ _ R) as [S W].
  pose proof (volumesOk_writes _ _ wfBook_initial volumesOk_initial (steps_writes _ _ _ S)) as V.
  exact (volumes_of_book _ fs V eq_refl).
Qed.


(** Without the condition on the task the bounds fail even for volumes
    from 0 up.  An ask for 5 rests; a bid for 3 is placed; a
    [cancelOrder] for an id the collection does not hold queues its
    update and awaits its read; the first turn of the pass for the bid
    runs the task: [results[0]] is the result of the queued update, which
    modified nothing, so the in-memory volume of the bid stays 3 while
    the stored one is 0.  The next turn fills the bid again, with the 2
    left of the ask, and writes 3 - 2 = 1: the bid of 3 has fills of 5,
    and a current volume of 1 with its original volume spent. *)
Example cancel_in_flight_fills_twice :
  let go := Made (Resumed (healthy 0)) in
  let ask := Made (Called (PlaceOrder (healthy 100) (dec 10) "5" "ann" true)) in
  let bid := Made (Called (PlaceOrder (healthy 200) (dec 10) "3" "bob" false)) in
  let mvs := [ask; go; go; go; bid; go; CancelAsked 99; go; go; go; CancelRead (healthy 300)] in
  let m := fst (moveAll mvs initialMachine) in
  let fs := snd (moveAll mvs initialMachine) in
  Forall (placingMove validVolume) mvs /\
  calmAll mvs initialMachine = false /\
  map fillVolume fs = ["3"; "2"]%string /\
  map (fun m => (_id (incoming m), _id (counterparty m))) fs = [(1, 0); (1, 0)]%nat /\
  map (fun o => (_id o, originalVolume o, currentVolume o)) (orders (engine (world m)))
    = [(0%nat, "5", "0"); (1%nat, "3", "1")]%string /\
  ~ filledBetween 0 1 fs <= Qmin (3 # 1) (5 # 1).
Proof.
  intros go ask bid mvs m fs. split; [|split; [|split; [|split; [|split]]]].
  - unfold mvs. repeat constructor;
      [exists (dec 5)|exists (dec 3)]; (split; [reflexivity|cbn; lia]).
  - vm_compute. reflexivity.
  - vm_compute. reflexivity.
  - vm_compute. reflexivity.
  - vm_compute. reflexivity.
  - vm_compute. intros H. apply H. reflexivity.
Qed.

Local Close Scope Q_scope.

(* ===================================================================== *)
(** ** The status only moves forward (C4); canceled orders are never
       matched again (C6)                                                *)
(* ===================================================================== *)

Lemma updateCurrentVolume_keeps id v : forall l l' n o,
  updateCurrentVolume id v l = (l', n) -> In o l ->
  exists o', In o' l' /\ (o' = o \/ o' = withCurrentVolume o v).
Proof.
  induction l as [|y r IH]; intros l' n o E I; [destruct I|].
  cbn [updateCurrentVolume] in E. destruct (Nat.eqb (_id y) id).
  - injection E as <- <-. destruct I as [<-|I].
    + exists (withCurrentVolume y v). split; [left; reflexivity|right; reflexivity].
    + exists o. split; [right; exact I|left; reflexivity].
  - destruct (updateCurrentVolume id v r) as [r' n'] eqn:U. injection E as <- <-.
    destruct I as [<-|I].
    + exists y. split; [left; reflexivity|left; reflexivity].
    + destruct (IH r' n' o eq_refl I) as (o' & F & G).
      exists o'. split; [right; exact F|exact G].
Qed.

Lemma mayMove_refl s : mayMove s s.
Proof. left. reflexivity. Qed.

Lemma mayMove_trans a b c : mayMove a b -> mayMove b c -> mayMove a c.
Proof.
  unfold mayMove. destruct a, b, c; intuition congruence.
Qed.

Lemma mayMove_canceled s : mayMove s canceled.
Proof. unfold mayMove. destruct s; intuition congruence. Qed.

Lemma mayMove_from_canceled s : mayMove canceled s -> s = canceled.
Proof. unfold mayMove. intuition congruence. Qed.

(** One write keeps every document, under its id, and moves its status
    forward if at all. *)
Lemma step_status P b b' :
  wfBook b -> step P b b' ->
  forall o, In o (docs b) ->
    exists o', In o' (docs b') /\ _id o' = _id o /\ mayMove (status o) (status o').
Proof.
  intros (ND & _) H o Io. destruct H; cbn [docs].
  - exists o. repeat split; auto using mayMove_refl.
  - exists o. repeat split; auto using mayMove_refl. apply in_or_app. left. exact Io.
  - destruct (updateCurrentVolume_keeps _ _ _ _ _ _ H5 Io) as (o1 & I1 & E1).
    destruct (updateCurrentVolume_keeps _ _ _ _ _ _ H6 I1) as (o2 & I2 & E2).
    exists o2. split; [exact I2|].
    destruct E1 as [->| ->], E2 as [->| ->]; split; auto using mayMove_refl.
  - destruct (Nat.eq_dec (_id o) (_id o0)) as [E|E].
    + assert (o = o0) by (eapply same_id; eassumption). subst o0.
      destruct (updateStatus_hit o processed _ ND Io) as (A & _).
      exists (withStatus o processed). repeat split; auto.
      rewrite H0. right. left. split; reflexivity.
    + destruct (updateStatus_hit o0 processed _ ND H) as (_ & _ & D).
      exists o. repeat split; auto using mayMove_refl.
  - destruct (updateStatus_keeps id canceled _ _ Io) as (o' & I' & [->| ->]).
    + exists o. repeat split; auto using mayMove_refl.
    + exists (withStatus o canceled). repeat split; auto using mayMove_canceled.
Qed.

Lemma steps_status P b b' :
  wfBook b -> steps P b b' ->
  forall o, In o (docs b) ->
    exists o', In o' (docs b') /\ _id o' = _id o /\ mayMove (status o) (status o').
Proof.
  intros W H. induction H as [|b1 b2 b3 S1 S2 IH]; intros o Io.
  - exists o. repeat split; auto using mayMove_refl.
  - destruct (step_status _ _ _ W S1 o Io) as (o1 & I1 & E1 & M1).
    destruct (IH (wfBook_step _ _ _ W S1) o1 I1) as (o2 & I2 & E2 & M2).
    exists o2. repeat split; [exact I2|congruence|eapply mayMove_trans; eassumption].
Qed.

Lemma runCalls_steps cs : forall e fs,
  wfBook (bookOf e fs) ->
  steps (fun _ => True) (bookOf e fs)
        (bookOf (fst (runCalls cs e)) (fs ++ snd (runCalls cs e))).
Proof.
  induction cs as [|c cs IH]; intros e fs W; cbn [runCalls].
  - cbn [fst snd]. rewrite app_nil_r. apply steps_refl.
  - assert (Pc : placing (fun _ => True) c) by (destruct c; exact I).
    pose proof (call_steps _ c e fs W Pc) as S1.
    specialize (IH _ _ (wfBook_steps _ _ _ W S1)).
    destruct (runCalls cs (after (call c e))) as [e' fs']. cbn [fst snd] in *.
    rewrite app_assoc. eapply steps_trans; eassumption.
Qed.

Lemma reachable_wf e fs : reachable e fs -> wfBook (bookOf e fs).
Proof.
  intros R. apply reachable_reachableBy in R. now apply reachableBy_steps in R.
Qed.

(** When every call runs to the end of the drain it starts before the next
    call is made, an order keeps its document, and its status either stays
    or moves unprocessed -> processed, unprocessed -> canceled or
    processed -> canceled; a canceled order stays canceled. *)
Lemma status_moves_forward_between_calls e fs cs o :
  reachable e fs -> In o (orders e) ->
  exists o', In o' (orders (fst (runCalls cs e))) /\ _id o' = _id o /\
    (forall x, In x (orders (fst (runCalls cs e))) -> _id x = _id o -> x = o') /\
    mayMove (status o) (status o') /\
    (status o = canceled -> status o' = canceled).
Proof.
  intros R Io. pose proof (reachable_wf _ _ R) as W.
  pose proof (runCalls_steps cs e fs W) as S.
  destruct (steps_status _ _ _ W S o Io) as (o' & I' & E & M).
  pose proof (wfBook_steps _ _ _ W S) as (ND' & _).
  cbn [bookOf docs] in I', ND'.
  exists o'. repeat split; auto.
  - intros x Ix Ex. eapply same_id; eauto. congruence.
  - intros C. rewrite C in M. now apply mayMove_from_canceled.
Qed.

(** A document canceled under [id] stays so, and no later fill has it as
    counterparty. *)
Lemma step_canceled P id b b' :
  wfBook b -> step P b b' ->
  (exists o, In o (docs b) /\ _id o = id /\ status o = canceled) ->
  (exists o, In o (docs b') /\ _id o = id /\ status o = canceled) /\
  (exists new, done b' = done b ++ new /\
     Forall (fun m => _id (counterparty m) <> id) new).
Proof.
  intros W H (oc & Ic & Eid & Ec).
  pose proof (step_status _ _ _ W H oc Ic) as (o' & I' & E' & M').
  rewrite Ec in M'. apply mayMove_from_canceled in M'.
  split; [exists o'; repeat split; auto; congruence|].
  destruct W as (ND & _).
  destruct H; cbn [done]; try (exists []; rewrite app_nil_r; split; [reflexivity|constructor]).
  eexists. split; [reflexivity|]. constructor; [|constructor].
  cbn [counterparty]. intros C.
  destruct (findMatching_In _ _ _ H2) as [Imt El].
  assert (matching = oc) by (eapply same_id; eauto; congruence). subst.
  now apply eligible_not_canceled in El.
Qed.

Lemma steps_canceled P id b b' :
  wfBook b -> steps P b b' ->
  (exists o, In o (docs b) /\ _id o = id /\ status o = canceled) ->
  exists new, done b' = done b ++ new /\
    Forall (fun m => _id (counterparty m) <> id) new.
Proof.
  intros W H. induction H as [|b1 b2 b3 S1 S2 IH]; intros C.
  - exists []. rewrite app_nil_r. split; [reflexivity|constructor].
  - destruct (step_canceled _ id _ _ W S1 C) as (C2 & n1 & E1 & F1).
    destruct (IH (wfBook_step _ _ _ W S1) C2) as (n2 & E2 & F2).
    exists (n1 ++ n2). split.
    + rewrite E2, E1, app_assoc. reflexivity.
    + apply Forall_app. split; assumption.
Qed.

(** When every call runs to the end of the drain it starts before the next
    call is made: once [cancelOrder(id)] has run for an order of the
    collection, no fill of any later call has that order as counterparty,
    whatever volume it has left. *)
Lemma canceled_stays_out_between_calls e fs id cs :
  reachable e fs ->
  (exists o, In o (orders e) /\ _id o = id) ->
  Forall (fun m => _id (counterparty m) <> id)
         (snd (runCalls cs (after (call (CancelOrder id) e)))).
Proof.
  intros R (o & Io & Eo).
  pose proof (reach_call e fs (CancelOrder id) R) as R1.
  pose proof (reachable_wf _ _ R) as (ND & _). cbn [bookOf docs] in ND.
  pose proof (reachable_wf _ _ R1) as W1.
  pose proof (runCalls_steps cs _ _ W1) as S.
  assert (C : exists x, In x (docs (bookOf (after (call (CancelOrder id) e))
                                           (fs ++ fills (call (CancelOrder id) e)))) /\
                        _id x = id /\ status x = canceled).
  { exists (withStatus o canceled). cbn [bookOf docs call cancelOrder after setOrders orders].
    subst id. destruct (updateStatus_hit o canceled _ ND Io) as (A & _).
    repeat split; auto. }
  destruct (steps_canceled _ id _ _ W1 S C) as (new & E & F).
  cbn [bookOf done] in E. apply app_inv_head in E. rewrite E. exact F.
Qed.

(** C4 and the code: [placeOrder] does not await the drain it starts, so
    [cancelOrder] can run while the pass of the order is suspended.  A bid
    is placed and picked by the drain; [cancelOrder] then sets it to
    canceled; the pass ends with its unguarded
    [update({_id}, {status: 'processed'})], and the order is processed
    again. *)
Theorem cancel_during_pass_is_overwritten :
  let go := Resumed (healthy 0) in
  let bid := Called (PlaceOrder (healthy 100) (dec 10) "8" "ann" false) in
  let w1 := fst (reactAll [bid; go; Called (CancelOrder 0)] initialWorld) in
  let w2 := fst (react go w1) in
  map (fun o => (_id o, status o)) (orders (engine w1)) = [(0%nat, canceled)] /\
  map (fun o => (_id o, status o)) (orders (engine w2)) = [(0%nat, processed)].
Proof. split; vm_compute; reflexivity. Qed.

(** C6 and the code: the bid above, canceled during its own pass and set
    back to processed by it, is the counterparty of an ask placed
    later. *)
Theorem canceled_order_is_matched_again :
  let go := Resumed (healthy 0) in
  let bid := Called (PlaceOrder (healthy 100) (dec 10) "8" "ann" false) in
  let ask := Called (PlaceOrder (healthy 300) (dec 9) "3" "bob" true) in
  let w1 := fst (reactAll [bid; go; Called (CancelOrder 0)] initialWorld) in
  map (fun o => (_id o, status o)) (orders (engine w1)) = [(0%nat, canceled)] /\
  map (fun m => (_id (incoming m), _id (counterparty m), fillVolume m))
      (snd (reactAll [go; go; ask; go; go; go; go] w1))
    = [(1%nat, 0%nat, "3"%string)].
Proof. split; vm_compute; reflexivity. Qed.

(* ===================================================================== *)
(** ** The snapshot of a pass without fill (C5)                          *)
(* ===================================================================== *)

(** What the end of a pass appends when the store answers. *)
Lemma finishPass_answered env order fs r :
  answers env ->
  let p := finishPass env order fs r in
  passEnd p = Completed /\
  processing (eng (passRun p)) = false /\
  console (eng (passRun p)) = console (eng r) /\
  exists snapshot,
    marketData (eng (passRun p)) = marketData (eng r) ++ [snapshot] /\
    matchVolume snapshot =
      castString (fst (carryForward (latestOf (marketData (eng r)))
                                    (lastVolume fs) (lastPrice fs))) /\
    matchPrice snapshot =
      castString (snd (carryForward (latestOf (marketData (eng r)))
                                    (lastVolume fs) (lastPrice fs))).
Proof.
  intros A. unfold finishPass. cbn [tick onEngine eng trips].
  rewrite !A. cbn [passEnd passRun eng setProcessing addMarketData processing console
                  marketData setOrders].
  repeat split. eexists. split; [reflexivity|]. split; reflexivity.
Qed.

Lemma carryForward_no_fill prev :
  carryForward (Some prev) (lastVolume []) (lastPrice [])
  = (JString (matchVolume prev), JString (matchPrice prev)).
Proof. reflexivity. Qed.

(** In the copy with the hooks, a pass that runs to its end on a store
    that answers and commits no fill appends one snapshot, and when there
    was a snapshot before, the new one has the matchVolume and matchPrice
    of the latest one. *)
Lemma no_fill_carries_last_match_forward env order r :
  answers env ->
  passEnd (processOrder env order r) = Completed ->
  passFills (processOrder env order r) = [] ->
  exists snapshot,
    marketData (eng (passRun (processOrder env order r)))
      = marketData (eng r) ++ [snapshot] /\
    forall prev, latestOf (marketData (eng r)) = Some prev ->
      matchVolume snapshot = matchVolume prev /\
      matchPrice snapshot = matchPrice prev.
Proof.
  intros A. unfold processOrder, processOrderWithin.
  pose proof (matchLoop_rest env (turnsFor order (orders (eng r))) order r) as (M & _).
  set (l := matchLoop env (turnsFor order (orders (eng r))) order r) in *.
  destruct (loopEnd l); try discriminate.
  intros _ F. rewrite fills_finishPass in F.
  destruct (finishPass_answered env (loopOrder l) (loopFills l) (loopRun l) A)
    as (_ & _ & _ & s & E & V & Pr).
  exists s. rewrite E, M. split; [reflexivity|].
  intros prev L.
  rewrite V, Pr, M, L, F, carryForward_no_fill. split; reflexivity.
Qed.

(** On a log whose timestamps grow, the latest snapshot is the one
    appended last. *)
Lemma latestOf_last l s :
  (forall x, In x l -> mdCreated x < mdCreated s) -> latestOf (l ++ [s]) = Some s.
Proof.
  intros H. unfold latestOf, findOne.
  assert (F : forall l' : list MarketData, List.filter (fun _ => true) l' = l').
  { induction l' as [|x r IH]; cbn; congruence. }
  rewrite F. clear F. induction l as [|x r IH]; [reflexivity|].
  cbn [app sortBy fold_right]. rewrite hd_insertSorted.
  fold (sortBy byCreatedDesc (r ++ [s])).
  rewrite IH by (intros; apply H; right; assumption).
  unfold byCreatedDesc. specialize (H x (or_introl eq_refl)).
  apply Z.ltb_lt in H. rewrite H. reflexivity.
Qed.

(** Two passes without a counterparty: the second snapshot repeats the
    (empty) match of the first; after a fill, a pass without fill repeats
    the fill's volume and price. *)
Example carry_forward_after_fill :
  let ask := PlaceOrder (healthy 100) (dec 10) "5" "ann" true in
  let bid := PlaceOrder (healthy 200) (dec 12) "8" "bob" false in
  let far := PlaceOrder (healthy 300) (dec 50) "1" "cid" true in
  map (fun s => (matchVolume s, matchPrice s))
      (marketData (fst (runCalls [ask; bid; far] initial)))
  = [(""%string, ""%string); ("5"%string, "12"%string); ("5"%string, "12"%string)].
Proof. vm_compute. reflexivity. Qed.

(* ===================================================================== *)
(** ** Errors during a drain (C7)                                        *)
(* ===================================================================== *)

Lemma processing_finishPass_threw env order fs r err :
  passEnd (finishPass env order fs r) = Threw err ->
  processing (eng (passRun (finishPass env order fs r))) = processing (eng r).
Proof.
  unfold finishPass. cbn [tick onEngine eng trips].
  repeat match goal with
         | |- context [if ?c then _ else _] => destruct c
         end; cbn; try reflexivity; discriminate.
Qed.

(** An exception inside a pass is caught and logged by [processOrder],
    whose [catch] does not touch the flag: the flag stays as the drain had
    set it. *)
Lemma pass_that_throws_keeps_flag n env order r err :
  passEnd (processOrderWithin n env order r) = Threw err ->
  processing (eng (passRun (processOrderWithin n env order r))) = processing (eng r) /\
  exists before, console (eng (passRun (processOrderWithin n env order r)))
                 = before ++ [err].
Proof.
  unfold processOrderWithin.
  pose proof (matchLoop_rest env n order r) as (_ & Pr & _ & Co).
  destruct (loopEnd (matchLoop env n order r)) eqn:L; cbn [passEnd passRun]; intros H.
  - split; [rewrite processing_finishPass_threw with (err := err); auto|].
    revert H. unfold finishPass. cbn [tick onEngine eng trips].
    repeat match goal with
           | |- context [if ?c then _ else _] => destruct c
           end; cbn; try discriminate; intros [= <-]; eexists; reflexivity.
  - injection H as ->. cbn [onEngine eng log processing console]. split; [exact Pr|].
    eexists. reflexivity.
  - discriminate.
Qed.

(** With the flag set, [matchNextOrder] returns at once. *)
Lemma matchNextOrder_when_flag_set n env r :
  processing (eng r) = true ->
  matchNextOrderWithin n env r = mkDrain [] r.
Proof. intros H. destruct n; cbn [matchNextOrderWithin]; rewrite H; reflexivity. Qed.

(** A rejected query of [matchNextOrder] itself (between passes) goes to
    its own [catch], which logs and clears the flag. *)
Lemma drain_query_rejected_clears_flag n env r :
  processing (eng r) = false -> rejects env (trips r) = true ->
  processing (eng (drainRun (matchNextOrderWithin n env r))) = false /\
  console (eng (drainRun (matchNextOrderWithin n env r))) = console (eng r) ++ [StoreError] /\
  orders (eng (drainRun (matchNextOrderWithin n env r))) = orders (eng r).
Proof.
  intros H R. destruct n; cbn [matchNextOrderWithin]; rewrite H;
    cbn [onEngine trips eng]; rewrite R; cbn; auto.
Qed.

(** C7 and the code: a bid is placed while the store rejects the first
    round trip of its pass (the counterparty query).  The error is caught
    and logged and the drain stops, but the flag stays set: an ask placed
    later on a store that answers is stored and never looked at; it stays
    unprocessed, no snapshot is written, and the flag is still set. *)
Theorem error_in_pass_leaves_flag_set :
  let failing := mkEnv (fun k => 100 + Z.of_nat k) (fun k => Nat.eqb k 2) in
  let e1 := after (call (PlaceOrder failing (dec 10) "8" "ann" false) initial) in
  let e2 := after (call (PlaceOrder (healthy 200) (dec 9) "3" "bob" true) e1) in
  (processing e1 = true /\ console e1 = [StoreError] /\
   map (fun o => (_id o, status o)) (orders e1) = [(0%nat, unprocessed)]) /\
  (processing e2 = true /\ console e2 = [StoreError] /\ marketData e2 = [] /\
   map (fun o => (_id o, currentVolume o, status o)) (orders e2)
     = [(0%nat, "8"%string, unprocessed); (1%nat, "3"%string, unprocessed)]) /\
  after (call (MatchNextOrder (healthy 300)) e2) = e2.
Proof. repeat split; vm_compute; reflexivity. Qed.

(** The same in the interleaved model. *)
Example error_in_pass_leaves_flag_set_world :
  let failing := mkEnv (fun k => 100 + Z.of_nat k) (fun k => Nat.eqb k 0) in
  let bid := Called (PlaceOrder (healthy 100) (dec 10) "8" "ann" false) in
  let ask := Called (PlaceOrder (healthy 200) (dec 9) "3" "bob" true) in
  let go := Resumed (healthy 300) in
  let w := fst (reactAll [bid; go; Resumed failing; ask; go; go] initialWorld) in
  drain w = Idle /\ processing (engine w) = true /\ console (engine w) = [StoreError] /\
  map (fun o => (_id o, status o)) (orders (engine w))
    = [(0%nat, unprocessed); (1%nat, unprocessed)].
Proof. repeat split; vm_compute; reflexivity. Qed.

(* ===================================================================== *)
(** ** The bounds on turns and passes are never reached                  *)
(* ===================================================================== *)


Lemma pending_updateCurrentVolume id v : forall l l' n,
  updateCurrentVolume id v l = (l', n) -> pending l' = pending l.
Proof.
  unfold pending. induction l as [|y r IH]; intros l' n E; cbn [updateCurrentVolume] in E.
  - injection E as <- <-. reflexivity.
  - destruct (Nat.eqb (_id y) id).
    + injection E as <- <-. cbn [List.filter].
      change (isUnprocessed (withCurrentVolume y v)) with (isUnprocessed y).
      destruct (isUnprocessed y); reflexivity.
    + destruct (updateCurrentVolume id v r) as [r' n'] eqn:U. injection E as <- <-.
      cbn [List.filter]. specialize (IH r' n' eq_refl).
      destruct (isUnprocessed y); cbn [List.length]; congruence.
Qed.

Lemma pending_processed o : forall l,
  NoDup (map _id l) -> In o l -> status o = unprocessed ->
  S (pending (updateStatus (_id o) processed l)) = pending l.
Proof.
  unfold pending. induction l as [|y r IH]; intros ND I St; [destruct I|].
  inversion ND as [|? ? NI ND']; subst. cbn [updateStatus].
  destruct (Nat.eqb (_id y) (_id o)) eqn:Q.
  - apply Nat.eqb_eq in Q.
    assert (y = o).
    { destruct I as [I|I]; [exact I|]. exfalso. apply NI. rewrite Q. now apply in_ids. }
    subst y. cbn [List.filter].
    change (isUnprocessed (withStatus o processed)) with false.
    assert (U : isUnprocessed o = true) by (unfold isUnprocessed; rewrite St; reflexivity).
    rewrite U. reflexivity.
  - apply Nat.eqb_neq in Q. destruct I as [I|I]; [congruence|].
    cbn [List.filter]. specialize (IH ND' I St).
    destruct (isUnprocessed y); cbn [List.length]; congruence.
Qed.

Lemma pending_In o l : In o l -> status o = unprocessed -> (1 <= pending l)%nat.
Proof.
  intros I St. unfold pending.
  assert (F : In o (List.filter isUnprocessed l)).
  { apply filter_In. split; [exact I|]. unfold isUnprocessed. rewrite St. reflexivity. }
  destruct (List.filter isUnprocessed l); [destruct F|cbn; lia].
Qed.

Lemma matchLoop_keeps env n : forall order r,
  pending (orders (eng (loopRun (matchLoop env n order r)))) = pending (orders (eng r)) /\
  map _id (orders (eng (loopRun (matchLoop env n order r)))) = map _id (orders (eng r)).
Proof.
  induction n as [|n IH]; intros order r; cbn [matchLoop]; [split; reflexivity|].
  destruct (turn env order r) as [err r'|r'|order' m r'] eqn:T; cbn [loopRun].
  - apply turn_Raised in T. rewrite T. split; reflexivity.
  - apply turn_Left in T. rewrite T. split; reflexivity.
  - destruct (turn_Turned _ _ _ _ _ _ T)
      as (ov & matching & mv & v & docs1 & n1 & docs2 & n2 & H).
    destruct H as (_ & _ & _ & _ & _ & _ & _ & U1 & U2 & _ & _ & E).
    destruct (IH order' r') as [A B]. rewrite A, B, E. cbn [eng setOrders orders].
    rewrite (pending_updateCurrentVolume _ _ _ _ _ U2),
            (pending_updateCurrentVolume _ _ _ _ _ U1).
    rewrite (updateCurrentVolume_ids_eq _ _ _ _ _ U2), (updateCurrentVolume_ids_eq _ _ _ _ _ U1).
    split; reflexivity.
Qed.

Lemma finishPass_completed env order fs r :
  passEnd (finishPass env order fs r) = Completed ->
  orders (eng (passRun (finishPass env order fs r)))
    = updateStatus (_id order) processed (orders (eng r)).
Proof.
  unfold finishPass. cbn [tick onEngine eng trips].
  repeat match goal with
         | |- context [if ?c then _ else _] => destruct c
         end; cbn; try reflexivity; discriminate.
Qed.

Lemma finishPass_ids env order fs r :
  map _id (orders (eng (passRun (finishPass env order fs r)))) = map _id (orders (eng r)).
Proof.
  destruct (orders_finishPass env order fs r) as [E|E]; rewrite E; [reflexivity|].
  apply updateStatus_ids.
Qed.

(** A pass of the drain does not reach the bound on its turns. *)
Lemma processOrder_ends env order r :
  NoDup (map _id (orders (eng r))) -> In order (orders (eng r)) ->
  passEnd (processOrder env order r) <> StillTurning.
Proof.
  intros ND I. unfold processOrder, processOrderWithin.
  pose proof (matchLoop_ends env (turnsFor order (orders (eng r))) order r ND I) as E.
  specialize (E (turnsFor_live order (orders (eng r)))).
  destruct (loopEnd (matchLoop env _ order r)) eqn:L; cbn [passEnd]; try discriminate;
    [|congruence].
  unfold finishPass. cbn [tick onEngine eng trips].
  repeat match goal with
         | |- context [if ?c then _ else _] => destruct c
         end; cbn; discriminate.
Qed.

(** After a pass of the drain the flag is still set, or one order less is
    unprocessed. *)
Lemma pass_progress env order r :
  NoDup (map _id (orders (eng r))) -> In order (orders (eng r)) ->
  status order = unprocessed -> processing (eng r) = true ->
  NoDup (map _id (orders (eng (passRun (processOrder env order r))))) /\
  (processing (eng (passRun (processOrder env order r))) = true \/
   S (pending (orders (eng (passRun (processOrder env order r))))) = pending (orders (eng r))).
Proof.
  intros ND I St Pr. unfold processOrder, processOrderWithin.
  set (n := turnsFor order (orders (eng r))).
  pose proof (matchLoop_keeps env n order r) as [Kp Ki].
  pose proof (matchLoop_rest env n order r) as (_ & Pl & _).
  destruct (matchLoop_steps (fun _ => True) env n order r [] ND I) as (_ & Il & Sl & _).
  set (l := matchLoop env n order r) in *.
  assert (NDl : NoDup (map _id (orders (eng (loopRun l))))) by (rewrite Ki; exact ND).
  destruct (loopEnd l); cbn [passRun].
  - split; [rewrite finishPass_ids; exact NDl|].
    destruct (passEnd (finishPass env (loopOrder l) (loopFills l) (loopRun l))) eqn:E.
    + right. rewrite (finishPass_completed _ _ _ _ E), <- Kp.
      apply pending_processed; [exact NDl|exact Il|congruence].
    + left. rewrite (processing_finishPass_threw _ _ _ _ _ E). congruence.
    + exfalso. revert E. unfold finishPass. cbn [tick onEngine eng trips].
      repeat match goal with
             | |- context [if ?c then _ else _] => destruct c
             end; cbn; discriminate.
  - cbn [onEngine eng log orders processing]. split; [exact NDl|left; congruence].
  - split; [exact NDl|left; congruence].
Qed.

(** More passes than there are unprocessed orders change nothing: the
    bound of [matchNextOrder] is never reached. *)
Lemma matchNextOrderWithin_enough env n : forall r k,
  NoDup (map _id (orders (eng r))) ->
  (pending (orders (eng r)) <= n)%nat ->
  matchNextOrderWithin (n + k) env r = matchNextOrderWithin n env r.
Proof.
  induction n as [|n IH]; intros r k ND Le.
  - destruct k as [|k]; [reflexivity|]. cbn [Nat.add matchNextOrderWithin].
    destruct (processing (eng r)); [reflexivity|].
    destruct (rejects env _); [reflexivity|].
    cbn [tick onEngine eng trips setProcessing orders].
    destruct (findOne byCreatedAsc isUnprocessed (orders (eng r))) as [order|] eqn:F;
      [|reflexivity].
    exfalso. apply (findOne_In _ byCreatedAsc_asym byCreatedAsc_cotrans) in F.
    destruct F as [I U].
    assert (St : status order = unprocessed)
      by (unfold isUnprocessed in U; destruct (status order); try discriminate; reflexivity).
    pose proof (pending_In _ _ I St). lia.
  - cbn [Nat.add matchNextOrderWithin].
    destruct (processing (eng r)); [reflexivity|].
    destruct (rejects env _); [reflexivity|].
    cbn [tick onEngine eng trips setProcessing orders].
    destruct (findOne byCreatedAsc isUnprocessed (orders (eng r))) as [order|] eqn:F;
      [|reflexivity].
    apply (findOne_In _ byCreatedAsc_asym byCreatedAsc_cotrans) in F.
    destruct F as [I U].
    assert (St : status order = unprocessed)
      by (unfold isUnprocessed in U; destruct (status order); try discriminate; reflexivity).
    set (r1 := mkRun (setProcessing (eng r) true) (S (trips r))).
    destruct (pass_progress env order r1 ND I St eq_refl) as (ND' & [Pr|Dn]).
    + rewrite !matchNextOrder_when_flag_set by exact Pr. reflexivity.
    + rewrite IH; [reflexivity|exact ND'|].
      change (S (pending (orders (eng (passRun (processOrder env order
                (tick (onEngine (fun e : Engine => setProcessing e true) r)))))))
              = pending (orders (eng r))) in Dn.
      lia.
Qed.

Lemma pending_length l : (pending l <= List.length l)%nat.
Proof. apply filter_length_le. Qed.

Lemma matchNextOrder_all_passes env r k :
  NoDup (map _id (orders (eng r))) ->
  matchNextOrderWithin (List.length (orders (eng r)) + k) env r = matchNextOrder env r.
Proof.
  intros ND. apply matchNextOrderWithin_enough; [exact ND|apply pending_length].
Qed.

(* ===================================================================== *)
(** ** What [placeOrder] accepts (C8) and returns (C9)                   *)
(* ===================================================================== *)

Lemma sameOrder_refl o : sameOrder o o.
Proof. repeat split. Qed.

Lemma sameOrder_trans a b c : sameOrder a b -> sameOrder b c -> sameOrder a c.
Proof. unfold sameOrder. intuition congruence. Qed.

(** No write removes a document or touches what [placeOrder] fixed. *)
Lemma write_keeps P b b' :
  write P b b' -> forall o, In o (docs b) -> exists o', In o' (docs b') /\ sameOrder o o'.
Proof.
  intros H o Io. destruct H; cbn [docs].
  - exists o. split; [exact Io|apply sameOrder_refl].
  - exists o. split; [apply in_or_app; left; exact Io|apply sameOrder_refl].
  - destruct (updateCurrentVolume_keeps _ _ _ _ _ _ H5 Io) as (o1 & I1 & E1).
    destruct (updateCurrentVolume_keeps _ _ _ _ _ _ H6 I1) as (o2 & I2 & E2).
    exists o2. split; [exact I2|].
    destruct E1 as [->| ->], E2 as [->| ->]; repeat split.
  - destruct (updateStatus_keeps id s _ _ Io) as (o' & I' & [->| ->]).
    + exists o. split; [exact I'|apply sameOrder_refl].
    + exists (withStatus o s). split; [exact I'|repeat split].
Qed.

Lemma writes_keeps P b b' :
  writes P b b' -> forall o, In o (docs b) -> exists o', In o' (docs b') /\ sameOrder o o'.
Proof.
  induction 1 as [|b1 b2 b3 S1 S2 IH]; intros o Io.
  - exists o. split; [exact Io|apply sameOrder_refl].
  - destruct (write_keeps _ _ _ S1 o Io) as (o1 & I1 & E1).
    destruct (IH o1 I1) as (o2 & I2 & E2).
    exists o2. split; [exact I2|eapply sameOrder_trans; eassumption].
Qed.

(** C8, as the engine does it: [placeOrder] does not look at the sign of
    the limit or of the volume.  The commit checks the schema's required
    paths only: when volume and userId are not empty and the store accepts
    the commit, the order is stored under a fresh id with the limit,
    volume, side and owner given, whatever their sign, and is still there
    when the drain that the call starts is over.  Nothing is raised to
    the caller: the call returns undefined, and when it does not store
    the order it logs the error. *)
Theorem placeOrder_stores_any_limit_and_volume env l v u s e fs :
  reachable e fs ->
  BN.is_empty v = false -> BN.is_empty u = false -> rejects env O = false ->
  returned (placeOrder env l v u s e) = JUndefined /\
  (forall o, In o (orders e) -> _id o <> nextId e) /\
  exists o, In o (orders (after (placeOrder env l v u s e))) /\
    _id o = nextId e /\ limit o = l /\ originalVolume o = v /\
    isSelling o = s /\ userId o = u.
Proof.
  intros R Ev Eu Er.
  pose proof (reachable_wf _ _ R) as W.
  split; [|split].
  - unfold placeOrder. rewrite Ev, Eu, Er. reflexivity.
  - intros o Io C. destruct W as (_ & LT & _). cbn [bookOf docs next] in LT.
    specialize (LT (_id o) (in_ids _ _ Io)). lia.
  - unfold placeOrder. rewrite Ev, Eu, Er. cbn [after].
    set (order := mkOrder (nextId e) l v v s unprocessed u (now env 0)).
    set (e1 := setOrders (mkEngine (orders e) (marketData e) (processing e)
                                   (S (nextId e)) (console e))
                         (orders e ++ [order])).
    assert (S1 : step (fun _ => True) (bookOf e fs) (bookOf e1 fs))
      by exact (step_insert _ (bookOf e fs) l v u s (now env 0) I).
    pose proof (wfBook_step _ _ _ W S1) as W1.
    pose proof (matchNextOrderWithin_steps (fun _ => True) env
                  (List.length (orders e1)) (mkRun e1 1) fs W1) as S2.
    apply steps_writes in S2.
    destruct (writes_keeps _ _ _ S2 order) as (o' & I' & Id & Li & Ov & Is & Us & _).
    { cbn [bookOf docs eng]. unfold e1. cbn [setOrders orders].
      apply in_or_app. right. left. reflexivity. }
    exists o'. split; [exact I'|]. unfold order in *. cbn in Id, Li, Ov, Is, Us.
    repeat split; assumption.
Qed.

(** What [placeOrder] does with an input it does not store: it logs. *)
Lemma placeOrder_rejections env l v u s e :
  (BN.is_empty v = true \/ BN.is_empty u = true \/ rejects env O = true) ->
  returned (placeOrder env l v u s e) = JUndefined /\
  orders (after (placeOrder env l v u s e)) = orders e /\
  exists err, console (after (placeOrder env l v u s e)) = console e ++ [err].
Proof.
  intros H. unfold placeOrder.
  destruct (BN.is_empty v); [cbn; repeat split; eexists; reflexivity|].
  destruct (BN.is_empty u); [cbn; repeat split; eexists; reflexivity|].
  destruct (rejects env 0); [cbn; repeat split; eexists; reflexivity|].
  destruct H as [H|[H|H]]; discriminate.
Qed.

(** C8 as stated fails: a bid with limit 0 and volume -5 is stored like any
    other; nothing is logged and the call returns undefined. *)
Lemma nonpositive_order_is_stored :
  let out := placeOrder (healthy 100) (dec 0) "-5" "ann" false initial in
  BN.leb (dec 0) BN.zero = true /\
  (exists d, BigNumber "-5" = Some d /\ BN.leb d BN.zero = true) /\
  orders (after out) = [mkOrder 0 (dec 0) "-5" "-5" false processed "ann" 100] /\
  console (after out) = [] /\
  returned out = JUndefined.
Proof.
  cbv zeta. split; [reflexivity|]. split; [exists (dec (-5)); split; reflexivity|].
  repeat split; vm_compute; reflexivity.
Qed.

(** C9, as the engine does it: [placeOrder] has no [return] statement; its
    promise resolves to undefined for every input.  (The id it generated
    is given to the [onBeforePlaceOrder] hook only.) *)
Theorem placeOrder_returns_undefined env l v u s e :
  returned (placeOrder env l v u s e) = JUndefined.
Proof.
  unfold placeOrder.
  destruct (BN.is_empty v); [reflexivity|].
  destruct (BN.is_empty u); [reflexivity|].
  destruct (rejects env 0); reflexivity.
Qed.

(** C9 as stated fails: a valid bid is stored under id 0, and the call
    returns undefined, not that id. *)
Lemma placeOrder_does_not_return_id :
  let out := placeOrder (healthy 100) (dec 10) "5" "ann" false initial in
  map _id (orders (after out)) = [0%nat] /\
  returned out <> JObjectId 0.
Proof.
  cbv zeta. split; vm_compute; [reflexivity|discriminate].
Qed.

(* ===================================================================== *)
(** ** The older copy (src/order-matching.js)                            *)
(* ===================================================================== *)

(** For an in-memory document that is the stored one, the always-true test
    of the older copy makes no difference: when the write changed nothing
    the stored text already was the new text. *)
Lemma legacy_turn_same env order r :
  NoDup (map _id (orders (eng r))) -> In order (orders (eng r)) ->
  Legacy.turn env order r = turn env order r.
Proof.
  intros ND I. unfold Legacy.turn, turn.
  destruct (BigNumber (currentVolume order)) as [ov|]; [|reflexivity].
  destruct (BN.isPositive ov); cbn [negb]; [|reflexivity].
  destruct (rejects env (trips r)); [reflexivity|].
  cbn [tick eng trips].
  destruct (findMatching order (orders (eng r))) as [matching|]; [|reflexivity].
  destruct (BigNumber (currentVolume matching)) as [mv|]; [|reflexivity].
  destruct (priceOf order matching) as [price|]; [|reflexivity].
  destruct (BigNumber (BN.valueOf (BN.min ov mv))) as [v|]; [|reflexivity].
  destruct (rejects env (S (trips r))); [reflexivity|].
  destruct (updateCurrentVolume (_id order) _ (orders (eng r))) as [docs1 n1] eqn:U1.
  destruct (updateCurrentVolume (_id matching) _ docs1) as [docs2 n2].
  destruct (updateCurrentVolume_hit _ _ _ _ _ ND I U1) as (N1 & _).
  rewrite N1.
  destruct (String.eqb (currentVolume order) (BN.toString (BN.minus ov v))) eqn:Q;
    cbn [Nat.eqb]; [|reflexivity].
  apply String.eqb_eq in Q. rewrite <- Q, withCurrentVolume_same. reflexivity.
Qed.

Lemma legacy_matchLoop_same env n : forall order r,
  NoDup (map _id (orders (eng r))) -> In order (orders (eng r)) ->
  Legacy.matchLoop env n order r = matchLoop env n order r.
Proof.
  induction n as [|n IH]; intros order r ND I; [reflexivity|].
  cbn [Legacy.matchLoop matchLoop]. rewrite legacy_turn_same by assumption.
  destruct (turn env order r) as [err r'|r'|order' m r'] eqn:T; try reflexivity.
  destruct (turn_step (fun _ => True) _ _ _ _ _ _ [] ND I T) as (_ & I' & _).
  rewrite IH; [reflexivity| |exact I'].
  rewrite (turn_ids _ _ _ _ _ _ T). exact ND.
Qed.

(** The fills of the older copy are computed by the same two lines. *)
Lemma legacy_turn_fill env order r order' m r' :
  Legacy.turn env order r = Turned order' m r' -> fillAsComputed m.
Proof.
  unfold Legacy.turn. intros H.
  destruct (BigNumber (currentVolume order)) as [ov|] eqn:Eo; [|discriminate].
  destruct (BN.isPositive ov); cbn [negb] in H; [|discriminate].
  destruct (rejects env (trips r)); [discriminate|].
  cbn [tick eng trips] in H.
  destruct (findMatching order (orders (eng r))) as [matching|]; [|discriminate].
  destruct (BigNumber (currentVolume matching)) as [mv|] eqn:Ev; [|discriminate].
  destruct (priceOf order matching) as [price|] eqn:Epr; [|discriminate].
  destruct (BigNumber (BN.valueOf (BN.min ov mv))) as [v|] eqn:Ew; [|discriminate].
  destruct (rejects env (S (trips r))); [discriminate|].
  destruct (updateCurrentVolume (_id order) _ (orders (eng r))) as [docs1 n1].
  destruct (updateCurrentVolume (_id matching) _ docs1) as [docs2 n2].
  injection H as _ <- _.
  pose proof (priceOf_Some _ _ _ Epr) as ->.
  unfold fillAsComputed. cbn [incoming counterparty fillVolume fillPrice].
  exists ov, mv, (BN.normalize (BN.min ov mv)).
  destruct (isSelling order).
  - exists (BN.normalize (BN.max (limit order) (limit matching))).
    repeat split; auto.
    + unfold BigNumber. apply parse_toString.
    + rewrite toQ_normalize. apply toQ_min.
    + cbn [priceValue]. unfold BigNumber. apply parse_toString.
    + rewrite toQ_normalize. apply toQ_max.
  - exists (limit order).
    repeat split; auto.
    + unfold BigNumber. apply parse_toString.
    + rewrite toQ_normalize. apply toQ_min.
Qed.

(** The loop of the older copy ends like the other one. *)
Lemma legacy_loop_terminates env order r :
  NoDup (map _id (orders (eng r))) -> In order (orders (eng r)) ->
  loopEnd (Legacy.matchLoop env (turnsFor order (orders (eng r))) order r) <> StillTurning.
Proof.
  intros ND I. rewrite legacy_matchLoop_same by assumption.
  apply matchLoop_ends; auto. apply turnsFor_live.
Qed.

(** In the older copy the end of a pass without fill never reaches the
    snapshot: the condition raises, whatever the store does. *)
Lemma legacy_finishPass_no_fill env order r :
  passEnd (Legacy.finishPass env order [] r) <> Completed /\
  marketData (eng (passRun (Legacy.finishPass env order [] r))) = marketData (eng r).
Proof.
  unfold Legacy.finishPass. cbn [tick onEngine eng trips lastVolume rev truthy BN.is_empty negb].
  repeat match goal with
         | |- context [if ?c then _ else _] => destruct c
         end; cbn; split; try reflexivity; discriminate.
Qed.

(** C5 and the code: the copy in src/order-matching.js tests
    [!latestVolume && !matchPrice && latestMarketData], and [matchPrice] is
    not declared anywhere.  For a lone ask (no counterparty, no fill) on a
    store that answers, with a snapshot recording a match of 5 at 12
    before it, evaluating the condition raises a ReferenceError; the
    [catch] logs it and no snapshot is appended.  The other copy of the
    class reads [latestPrice] there and appends the snapshot with 5 and
    12. *)
Theorem legacy_pass_without_fill_appends_no_snapshot :
  let ask := mkOrder 0 (dec 50) "1" "1" true unprocessed "ann" 100 in
  let prev := mkMarketData "" "" "3" "12" "5" "12" 90 in
  let r := mkRun (mkEngine [ask] [prev] true 1 []) 0 in
  (passEnd (Legacy.processOrder (healthy 0) ask r) = Threw (ReferenceError "matchPrice") /\
   passFills (Legacy.processOrder (healthy 0) ask r) = [] /\
   marketData (eng (passRun (Legacy.processOrder (healthy 0) ask r))) = [prev] /\
   console (eng (passRun (Legacy.processOrder (healthy 0) ask r)))
     = [ReferenceError "matchPrice"]) /\
  (passEnd (processOrder (healthy 0) ask r) = Completed /\
   map (fun s => (matchVolume s, matchPrice s))
       (marketData (eng (passRun (processOrder (healthy 0) ask r))))
     = [("5"%string, "12"%string); ("5"%string, "12"%string)]).
Proof. repeat split; vm_compute; reflexivity. Qed.

(* ===================================================================== *)
(** ** A call followed to the end of its drain is a run of the world     *)
(* ===================================================================== *)

Lemma reactAll_app evs1 : forall evs2 w,
  reactAll (evs1 ++ evs2) w =
  (fst (reactAll evs2 (fst (reactAll evs1 w))),
   snd (reactAll evs1 w) ++ snd (reactAll evs2 (fst (reactAll evs1 w)))).
Proof.
  induction evs1 as [|ev evs1 IH]; intros evs2 w; cbn [app reactAll].
  - cbn [fst snd app]. destruct (reactAll evs2 w); reflexivity.
  - destruct (react ev w) as [w1 fs1]. rewrite IH.
    destruct (reactAll evs1 w1) as [w2 fs2]. cbn [fst snd].
    destruct (reactAll evs2 w2) as [w3 fs3]. cbn [fst snd].
    rewrite app_assoc. reflexivity.
Qed.

(** A turn started at round trip [k] is the turn started at round trip 0
    in the shifted environment. *)
Lemma turn_shift env order e k :
  match turn env order (mkRun e k), turn (shift k env) order (mkRun e O) with
  | Raised err r, Raised err' r' => err = err' /\ eng r = eng r'
  | Left r, Left r' => eng r = eng r' /\ trips r = (k + trips r')%nat
  | Turned o m r, Turned o' m' r' =>
      o = o' /\ m = m' /\ eng r = eng r' /\ trips r = (k + trips r')%nat
  | _, _ => False
  end.
Proof.
  unfold turn. cbn [shift rejects now trips eng tick onEngine].
  rewrite Nat.add_0_r, Nat.add_1_r.
  destruct (BigNumber (currentVolume order)) as [ov|]; [|split; reflexivity].
  destruct (BN.isPositive ov); cbn [negb]; [|split; cbn [eng trips tick onEngine]; [reflexivity|lia]].
  destruct (rejects env k); [split; reflexivity|].
  destruct (findMatching order (orders e)) as [matching|];
    [|split; cbn [eng trips tick onEngine]; [reflexivity|lia]].
  destruct (BigNumber (currentVolume matching)) as [mv|]; [|split; reflexivity].
  destruct (priceOf order matching) as [price|]; [|split; reflexivity].
  destruct (BigNumber (BN.valueOf (BN.min ov mv))) as [v|]; [|split; reflexivity].
  destruct (rejects env (S k)); [split; reflexivity|].
  destruct (updateCurrentVolume (_id order) _ (orders e)) as [docs1 n1].
  destruct (updateCurrentVolume (_id matching) _ docs1) as [docs2 n2].
  cbn [eng trips tick onEngine]. repeat split; lia.
Qed.

Lemma trips_if (b : bool) f r : trips (if b then onEngine f r else r) = trips r.
Proof. destruct b; reflexivity. Qed.

(** The same for the statements after the loop. *)
Lemma finishPass_shift env order fs e k j :
  passEnd (finishPass env order fs (mkRun e (k + j)))
    = passEnd (finishPass (shift k env) order fs (mkRun e j)) /\
  eng (passRun (finishPass env order fs (mkRun e (k + j))))
    = eng (passRun (finishPass (shift k env) order fs (mkRun e j))).
Proof.
  unfold finishPass.
  repeat (cbn [shift rejects now trips eng tick onEngine];
          rewrite ?trips_if, <- ?plus_n_Sm;
          match goal with
          | |- context [if ?c then _ else _] => destruct c
          end);
    cbn [shift rejects now trips eng tick onEngine passEnd passRun];
    rewrite ?trips_if, <- ?plus_n_Sm; split; reflexivity.
Qed.

(** The turns of a pass, one resumption each. *)
Lemma loop_as_events env n : forall order e k fs0,
  loopEnd (matchLoop env n order (mkRun e k)) <> StillTurning ->
  exists envs,
    reactAll (map Resumed envs) (mkWorld e (Matching order fs0)) =
    (let l := matchLoop env n order (mkRun e k) in
     match loopEnd l with
     | Threw err => mkWorld (log (eng (loopRun l)) err) Idle
     | _ =>
         let p := finishPass env (loopOrder l) (fs0 ++ loopFills l) (loopRun l) in
         match passEnd p with
         | Completed => trigger (mkWorld (eng (passRun p)) Idle)
         | _ => mkWorld (eng (passRun p)) Idle
         end
     end,
     loopFills (matchLoop env n order (mkRun e k))).
Proof.
  induction n as [|n IH]; intros order e k fs0 NS; [exfalso; apply NS; reflexivity|].
  cbn [matchLoop] in NS |- *.
  pose proof (turn_shift env order e k) as TS.
  destruct (turn env order (mkRun e k)) as [err r|r|order' m r] eqn:T;
    destruct (turn (shift k env) order (mkRun e O)) as [err' r'|r'|o' m' r'] eqn:T';
    try contradiction.
  - destruct TS as (<- & E). exists [shift k env].
    cbn [map reactAll react resume drain engine]. rewrite T'.
    cbn [loopEnd loopRun loopFills app]. rewrite E. reflexivity.
  - destruct TS as (E & Tr). exists [shift k env].
    cbn [map reactAll react resume drain engine]. rewrite T'.
    cbn [loopEnd loopRun loopFills loopOrder app]. rewrite app_nil_r.
    destruct r as [er tr], r' as [er' tr']. cbn [eng trips] in E, Tr. subst er tr.
    destruct (finishPass_shift env order fs0 er' k tr') as (E1 & E2).
    rewrite E1, E2.
    destruct (passEnd (finishPass (shift k env) order fs0 (mkRun er' tr'))); reflexivity.
  - destruct TS as (<- & <- & E & Tr).
    destruct r as [er tr], r' as [er' tr']. cbn [eng trips] in E, Tr. subst er tr.
    cbn [loopEnd] in NS.
    destruct (IH order' er' (k + tr')%nat (fs0 ++ [m]) NS) as (envs & R).
    exists (shift k env :: envs).
    cbn [map reactAll react resume drain engine]. rewrite T'. cbn [eng].
    rewrite R. cbn [loopEnd loopRun loopFills loopOrder].
    rewrite <- app_assoc. reflexivity.
Qed.

(** One unfolding of [matchNextOrderWithin] when the flag is clear. *)
Lemma matchNextOrderWithin_S n env e k :
  processing e = false ->
  matchNextOrderWithin (S n) env (mkRun e k) =
  if rejects env k
  then mkDrain [] (mkRun (setProcessing (log (setProcessing e true) StoreError) false) (S k))
  else
    match findOne byCreatedAsc isUnprocessed (orders e) with
    | None => mkDrain [] (mkRun (setProcessing (setProcessing e true) false) (S k))
    | Some order =>
        let p := processOrder env order (mkRun (setProcessing e true) (S k)) in
        let d := matchNextOrderWithin n env (passRun p) in
        mkDrain (passFills p ++ drainFills d) (drainRun d)
    end.
Proof.
  intros Pr. cbn [matchNextOrderWithin eng onEngine trips tick]. rewrite Pr. reflexivity.
Qed.

(** A pass, from the query of [matchNextOrder] that finds its order to the
    next [this.matchNextOrder()]. *)
Lemma pass_as_events env order e k :
  NoDup (map _id (orders e)) -> processing e = true ->
  rejects env k = false ->
  findOne byCreatedAsc isUnprocessed (orders e) = Some order ->
  exists envs,
    reactAll (map Resumed envs) (mkWorld e Picking) =
    (trigger (mkWorld (eng (passRun (processOrder env order (mkRun e (S k))))) Idle),
     passFills (processOrder env order (mkRun e (S k)))).
Proof.
  intros ND Pr Rj F.
  pose proof F as F'.
  apply (findOne_In _ byCreatedAsc_asym byCreatedAsc_cotrans) in F'.
  destruct F' as (I & _).
  pose proof (processOrder_ends env order (mkRun e (S k)) ND I) as PE.
  pose proof (matchLoop_rest env (turnsFor order (orders e)) order (mkRun e (S k)))
    as (_ & Pr' & _).
  pose proof (pass_that_throws_keeps_flag (turnsFor order (orders e)) env order
                (mkRun e (S k))) as K.
  unfold processOrder, processOrderWithin in PE, K |- *. cbn [eng] in *.
  set (l := matchLoop env (turnsFor order (orders e)) order (mkRun e (S k))) in *.
  assert (LE : loopEnd l <> StillTurning).
  { intros H. apply PE. rewrite H. reflexivity. }
  destruct (loop_as_events env _ order e (S k) [] LE) as (envs1 & R1).
  fold l in R1. cbv zeta in R1. cbn [app] in R1.
  exists (shift k env :: envs1).
  cbn [map reactAll react resume drain engine shift rejects].
  rewrite Nat.add_0_r, Rj, F, R1. cbn [app].
  destruct (loopEnd l) as [|err|] eqn:L; [| |contradiction].
  - rewrite fills_finishPass.
    destruct (passEnd (finishPass env (loopOrder l) (loopFills l) (loopRun l)))
      as [|err|] eqn:FE.
    + reflexivity.
    + destruct (K err eq_refl) as (Kp & _). rewrite Pr in Kp.
      unfold trigger. cbn [engine]. rewrite Kp. reflexivity.
    + exfalso. apply PE. reflexivity.
  - cbn [passRun passFills onEngine eng].
    unfold trigger. cbn [engine log processing]. rewrite Pr', Pr. reflexivity.
Qed.

(** The drain, from the un-awaited [this.matchNextOrder()] on. *)
Lemma drain_as_events env n : forall e k,
  NoDup (map _id (orders e)) -> (pending (orders e) <= n)%nat ->
  exists envs,
    reactAll (map Resumed envs) (trigger (mkWorld e Idle)) =
    (mkWorld (eng (drainRun (matchNextOrderWithin n env (mkRun e k)))) Idle,
     drainFills (matchNextOrderWithin n env (mkRun e k))).
Proof.
  induction n as [|n IH]; intros e k ND Le.
  - unfold trigger. cbn [engine matchNextOrderWithin eng onEngine trips tick].
    destruct (processing e) eqn:Pr; [exists []; reflexivity|].
    exists [shift k env].
    cbn [map reactAll react resume drain engine shift rejects].
    rewrite Nat.add_0_r.
    destruct (rejects env k); [reflexivity|].
    cbn [setProcessing orders].
    destruct (findOne byCreatedAsc isUnprocessed (orders e)) as [order|] eqn:F;
      [|reflexivity].
    exfalso.
    apply (findOne_In _ byCreatedAsc_asym byCreatedAsc_cotrans) in F.
    destruct F as (I & U).
    assert (St : status order = unprocessed).
    { unfold isUnprocessed in U. destruct (status order); [reflexivity|discriminate..]. }
    pose proof (pending_In _ _ I St). lia.
  - unfold trigger. cbn [engine].
    destruct (processing e) eqn:Pr.
    { exists []. rewrite (matchNextOrder_when_flag_set (S n) env (mkRun e k) Pr).
      reflexivity. }
    rewrite (matchNextOrderWithin_S n env e k Pr).
    set (e1 := setProcessing e true).
    assert (Oe : orders e1 = orders e) by reflexivity.
    assert (Pe : processing e1 = true) by reflexivity.
    clearbody e1.
    destruct (rejects env k) eqn:Rj.
    { exists [shift k env].
      cbn [map reactAll react resume drain engine shift rejects].
      rewrite Nat.add_0_r, Rj. reflexivity. }
    destruct (findOne byCreatedAsc isUnprocessed (orders e)) as [order|] eqn:F.
    2:{ exists [shift k env].
        cbn [map reactAll react resume drain engine shift rejects].
        rewrite Nat.add_0_r, Rj, Oe, F. reflexivity. }
    cbv zeta. cbn [drainFills drainRun].
    rewrite <- Oe in F, ND, Le.
    destruct (pass_as_events env order e1 k ND Pe Rj F) as (envsP & RP).
    pose proof F as F'.
    apply (findOne_In _ byCreatedAsc_asym byCreatedAsc_cotrans) in F'.
    destruct F' as (I & U).
    assert (St : status order = unprocessed).
    { unfold isUnprocessed in U. destruct (status order); [reflexivity|discriminate..]. }
    destruct (pass_progress env order (mkRun e1 (S k)) ND I St Pe) as (ND2 & Pg).
    set (p := processOrder env order (mkRun e1 (S k))) in *.
    destruct (processing (eng (passRun p))) eqn:Pr2.
    + rewrite (matchNextOrder_when_flag_set n env (passRun p) Pr2).
      cbn [drainFills drainRun]. rewrite app_nil_r.
      exists envsP. rewrite RP. unfold trigger. cbn [engine]. rewrite Pr2. reflexivity.
    + destruct Pg as [Pg|Pg]; [congruence|].
      assert (Le2 : (pending (orders (eng (passRun p))) <= n)%nat).
      { cbn [eng] in Pg. lia. }
      destruct (IH (eng (passRun p)) (trips (passRun p)) ND2 Le2) as (envsD & RD).
      assert (Eta : mkRun (eng (passRun p)) (trips (passRun p)) = passRun p)
        by (destruct (passRun p); reflexivity).
      rewrite Eta in RD.
      exists (envsP ++ envsD). rewrite map_app, reactAll_app, RP. cbn [fst snd].
      rewrite RD. reflexivity.
Qed.

(** A call followed to the end of the drain it starts is the call and
    then the resumptions of the drain, with no other call in between. *)
Lemma call_as_events c e :
  NoDup (map _id (orders e)) ->
  (forall i, In i (map _id (orders e)) -> (i < nextId e)%nat) ->
  exists envs,
    reactAll (Called c :: map Resumed envs) (mkWorld e Idle) =
    (mkWorld (after (call c e)) Idle, fills (call c e)).
Proof.
  intros ND Lt. destruct c as [env l v u s|id|env].
  - cbn [call]. unfold placeOrder.
    destruct (BN.is_empty v) eqn:Ev.
    { exists []. cbn [map reactAll react]. unfold placed. cbn [engine drain].
      rewrite Ev. reflexivity. }
    destruct (BN.is_empty u) eqn:Eu.
    { exists []. cbn [map reactAll react]. unfold placed. cbn [engine drain].
      rewrite Ev, Eu. reflexivity. }
    destruct (rejects env O) eqn:Rj.
    { exists []. cbn [map reactAll react]. unfold placed. cbn [engine drain].
      rewrite Ev, Eu, Rj. reflexivity. }
    cbv zeta. cbn [after fills orders].
    set (e1 := setOrders _ _).
    assert (ND1 : NoDup (map _id (orders e1))).
    { subst e1. cbn [setOrders orders]. rewrite map_app. cbn [map _id].
      apply NoDup_app.
      - exact ND.
      - repeat constructor. intros [].
      - intros i Hi [<-|[]]. apply Lt in Hi. lia. }
    destruct (drain_as_events env (List.length (orders e1)) e1 1 ND1
                (pending_length _)) as (envs & R).
    assert (Pl : placed env l v u s (mkWorld e Idle) = trigger (mkWorld e1 Idle)).
    { unfold placed. cbn [engine drain]. rewrite Ev, Eu, Rj. reflexivity. }
    exists envs. cbn [reactAll react]. rewrite Pl, R. reflexivity.
  - exists []. reflexivity.
  - cbn [call after fills].
    destruct (drain_as_events env (List.length (orders e)) e O ND
                (pending_length _)) as (envs & R).
    exists envs. cbn [map reactAll react]. rewrite R. reflexivity.
Qed.

(** So every engine that calls lead to, one after the other, is a world
    that events lead to. *)
Lemma reachableBy_reachableWorld P e fs :
  reachableBy P e fs -> reachableWorld P (mkWorld e Idle) fs.
Proof.
  induction 1 as [|e fs c R IH Pc]; [constructor|].
  destruct (reachableBy_steps P e fs R) as (_ & ND & Lt & _).
  destruct (call_as_events c e ND Lt) as (envs & E).
  assert (F : Forall (placingEvent P) (Called c :: map Resumed envs)).
  { constructor; [exact Pc|]. apply Forall_forall. intros ev I.
    apply in_map_iff in I. destruct I as (x & <- & _). constructor. }
  pose proof (reactAll_reachableWorld P _ _ _ IH F) as RW.
  rewrite E in RW. exact RW.
Qed.

(* ===================================================================== *)
(** ** Further properties of the engine                                  *)
(* ===================================================================== *)

(** *** What no write changes *)

Lemma placedAs_updateCurrentVolume id v : forall l l' n,
  updateCurrentVolume id v l = (l', n) -> map placedAs l' = map placedAs l.
Proof.
  induction l as [|y r IH]; intros l' n E; cbn [updateCurrentVolume] in E.
  - injection E as <- <-. reflexivity.
  - destruct (Nat.eqb (_id y) id).
    + injection E as <- <-. reflexivity.
    + destruct (updateCurrentVolume id v r) as [r' n'] eqn:U. injection E as <- <-.
      cbn [map]. f_equal. eapply IH. reflexivity.
Qed.

Lemma placedAs_updateStatus id s : forall l,
  map placedAs (updateStatus id s l) = map placedAs l.
Proof.
  induction l as [|y r IH]; cbn [updateStatus]; [reflexivity|].
  destruct (Nat.eqb (_id y) id); cbn [map]; [reflexivity|]. f_equal. exact IH.
Qed.

Lemma placedAs_turn env order r order' m r' :
  turn env order r = Turned order' m r' ->
  map placedAs (orders (eng r')) = map placedAs (orders (eng r)).
Proof.
  intros T.
  destruct (turn_Turned _ _ _ _ _ _ T)
    as (ov & matching & mv & v & docs1 & n1 & docs2 & n2 & H).
  destruct H as (_ & _ & _ & _ & _ & _ & _ & U1 & U2 & _ & _ & ->).
  cbn [eng setOrders orders].
  rewrite (placedAs_updateCurrentVolume _ _ _ _ _ U2).
  exact (placedAs_updateCurrentVolume _ _ _ _ _ U1).
Qed.

Lemma placedAs_finishPass env order fs r :
  map placedAs (orders (eng (passRun (finishPass env order fs r))))
    = map placedAs (orders (eng r)).
Proof.
  destruct (orders_finishPass env order fs r) as [E|E]; rewrite E; [reflexivity|].
  apply placedAs_updateStatus.
Qed.

Lemma placedAs_matchLoop env n : forall order r,
  map placedAs (orders (eng (loopRun (matchLoop env n order r))))
    = map placedAs (orders (eng r)).
Proof.
  induction n as [|n IH]; intros order r; cbn [matchLoop]; [reflexivity|].
  destruct (turn env order r) as [err r'|r'|order' m r'] eqn:T; cbn [loopRun].
  - apply turn_Raised in T. rewrite T. reflexivity.
  - apply turn_Left in T. rewrite T. reflexivity.
  - rewrite IH. eapply placedAs_turn. exact T.
Qed.

Lemma placedAs_processOrderWithin n env order r :
  map placedAs (orders (eng (passRun (processOrderWithin n env order r))))
    = map placedAs (orders (eng r)).
Proof.
  unfold processOrderWithin.
  destruct (loopEnd (matchLoop env n order r)); cbn [passRun onEngine eng log orders].
  - rewrite placedAs_finishPass. apply placedAs_matchLoop.
  - apply placedAs_matchLoop.
  - apply placedAs_matchLoop.
Qed.

Lemma placedAs_matchNextOrderWithin env n : forall r,
  map placedAs (orders (eng (drainRun (matchNextOrderWithin n env r))))
    = map placedAs (orders (eng r)).
Proof.
  induction n as [|n IH]; intros r; cbn [matchNextOrderWithin];
    destruct (processing (eng r)); try reflexivity;
    cbn [onEngine eng trips tick setProcessing orders];
    destruct (rejects env (trips r)); try reflexivity;
    destruct (findOne byCreatedAsc isUnprocessed (orders (eng r))); try reflexivity;
    cbn [drainRun].
  - unfold processOrder. rewrite placedAs_processOrderWithin. reflexivity.
  - rewrite IH. unfold processOrder. rewrite placedAs_processOrderWithin. reflexivity.
Qed.

Lemma placedAs_trigger w :
  orders (engine (trigger w)) = orders (engine w).
Proof. unfold trigger. destruct (processing (engine w)); reflexivity. Qed.

(** X9.  No event deletes or reorders the documents of the order
    collection, or changes the id, limit, original volume, side, user or
    creation time of one: they stay as they are, and [placeOrder] alone
    adds a document, at the end, with the values it was given. *)
Theorem events_keep_what_was_placed ev w :
  let docs := orders (engine w) in
  let docs' := orders (engine (fst (react ev w))) in
  match ev with
  | Called (PlaceOrder env l v u s) =>
      map placedAs docs' = map placedAs docs \/
      map placedAs docs'
        = map placedAs docs ++ [(nextId (engine w), l, v, s, u, now env O)]
  | _ => map placedAs docs' = map placedAs docs
  end.
Proof.
  cbv zeta. destruct ev as [[env l v u s|id|env]|env]; cbn [react fst].
  - unfold placed.
    destruct (BN.is_empty v); [left; reflexivity|].
    destruct (BN.is_empty u); [left; reflexivity|].
    destruct (rejects env O); [left; reflexivity|].
    right. rewrite placedAs_trigger. cbn [engine setOrders orders].
    rewrite map_app. reflexivity.
  - cbn [engine cancelOrder after setOrders orders]. apply placedAs_updateStatus.
  - rewrite placedAs_trigger. reflexivity.
  - unfold resume. destruct (drain w) as [| |order fs]; cbn [fst engine].
    + reflexivity.
    + destruct (rejects env O); [reflexivity|].
      destruct (findOne byCreatedAsc isUnprocessed (orders (engine w))); reflexivity.
    + destruct (turn env order (mkRun (engine w) O)) as [err r|r|order' m r] eqn:T;
        cbn [fst engine log orders].
      * apply turn_Raised in T. rewrite T. reflexivity.
      * pose proof (placedAs_finishPass env order fs r) as F.
        apply turn_Left in T. rewrite T in F. cbn [eng] in F.
        destruct (passEnd (finishPass env order fs r)); cbn [fst];
          rewrite ?placedAs_trigger; exact F.
      * exact (placedAs_turn _ _ _ _ _ _ T).
Qed.

(** *** [getOrdersByUserId] *)

Lemma ids_by_user u : forall l l',
  map placedAs l = map placedAs l' ->
  map _id (List.filter (fun o => String.eqb (userId o) u) l)
    = map _id (List.filter (fun o => String.eqb (userId o) u) l').
Proof.
  induction l as [|x l IH]; intros [|y l'] E; try discriminate; [reflexivity|].
  cbn [map] in E. unfold placedAs at 1 3 in E.
  injection E as Hid _ _ _ Hu _ E2.
  cbn [List.filter]. rewrite Hu.
  destruct (String.eqb (userId y) u); cbn [map]; rewrite ?Hid, (IH l' E2);
    reflexivity.
Qed.

(** A rejected read is logged, and the method gives nothing. *)
Lemma getOrdersByUserId_rejected env u e :
  rejects env O = true -> getOrdersByUserId env u e = (None, log e StoreError).
Proof. intros R. unfold getOrdersByUserId. rewrite R. reflexivity. Qed.

(** X8.  An order that [placeOrder] has stored (the call followed to the
    end of the drain it starts, with no other call in between) is listed
    by a [getOrdersByUserId] whose read the store answers for its user,
    after the orders that user had, and for no other user; the drain
    takes no order off any user's list, and the read changes nothing. *)
Theorem placed_order_is_listed_for_its_user env l v u s e env' u' :
  BN.is_empty v = false -> BN.is_empty u = false -> rejects env O = false ->
  rejects env' O = false ->
  let e' := after (placeOrder env l v u s e) in
  exists had has,
    getOrdersByUserId env' u' e = (Some had, e) /\
    getOrdersByUserId env' u' e' = (Some has, e') /\
    map _id has = map _id had ++ (if String.eqb u u' then [nextId e] else []).
Proof.
  intros Ev Eu Rj Rj' e'. unfold getOrdersByUserId. rewrite Rj'.
  eexists. eexists. split; [reflexivity|]. split; [reflexivity|].
  subst e'. unfold placeOrder. rewrite Ev, Eu, Rj. cbv zeta. cbn [after].
  unfold matchNextOrder.
  set (e1 := setOrders _ _).
  rewrite (ids_by_user u' _ (orders e1) (placedAs_matchNextOrderWithin env _ (mkRun e1 1))).
  subst e1. cbn [setOrders orders]. rewrite filter_app, map_app. f_equal.
  cbn [List.filter userId]. destruct (String.eqb u u'); reflexivity.
Qed.

(** *** [cancelOrder] *)

Lemma findById_updateStatus id s : forall l,
  findById id (updateStatus id s l)
    = option_map (fun o => withStatus o s) (findById id l).
Proof.
  unfold findById. induction l as [|y r IH]; cbn [updateStatus List.find]; [reflexivity|].
  destruct (Nat.eqb (_id y) id) eqn:E; cbn [List.find withStatus _id]; rewrite E.
  - reflexivity.
  - exact IH.
Qed.

Lemma findById_updateStatus_other id j s : forall l,
  j <> id -> findById j (updateStatus id s l) = findById j l.
Proof.
  unfold findById. intros l N. induction l as [|y r IH]; cbn [updateStatus List.find]; [reflexivity|].
  destruct (Nat.eqb (_id y) id) eqn:E; cbn [List.find withStatus _id].
  - apply Nat.eqb_eq in E.
    destruct (Nat.eqb (_id y) j) eqn:F; [|reflexivity].
    apply Nat.eqb_eq in F. congruence.
  - destruct (Nat.eqb (_id y) j); [reflexivity|exact IH].
Qed.

Lemma currentVolume_updateStatus id s : forall l,
  map currentVolume (updateStatus id s l) = map currentVolume l.
Proof.
  induction l as [|y r IH]; cbn [updateStatus]; [reflexivity|].
  destruct (Nat.eqb (_id y) id); cbn [map]; [reflexivity|]. f_equal. exact IH.
Qed.

(** X12.  A [cancelOrder(id)] made while nothing is queued on the task
    writes nothing before its read is answered: its update waits on the
    task.  When the read and the run are answered, with no other method
    running the task in between, the order with that id is canceled
    whatever its status was, and nothing else is changed: not its
    volumes, not another order, not the flag, the market data or the
    drain; the task is empty again.  When the read is rejected nothing is
    written and the update stays on the task, for the next method that
    runs it. *)
Theorem cancelOrder_only_sets_status id env m :
  task m = [] ->
  let m1 := fst (move (CancelAsked id) m) in
  let m2 := fst (move (CancelRead env) m1) in
  let e := engine (world m) in
  let e' := engine (world m2) in
  world m1 = world m /\ task m1 = [id] /\
  (rejects env 0 = false -> rejects env 1 = false ->
     findById id (orders e')
       = option_map (fun o => withStatus o canceled) (findById id (orders e)) /\
     (forall j, j <> id -> findById j (orders e') = findById j (orders e)) /\
     map currentVolume (orders e') = map currentVolume (orders e) /\
     sameRest e e' /\ drain (world m2) = drain (world m) /\ task m2 = []) /\
  (rejects env 0 = true ->
     orders e' = orders e /\ console e' = console e ++ [StoreError] /\
     task m2 = [id]).
Proof.
  intros T. destruct m as [w q n]. cbn [task] in T. subst q. cbv zeta.
  cbn [move fst world task reading app].
  split; [reflexivity|]. split; [reflexivity|]. split.
  - intros R0 R1. rewrite R0, R1. cbn [world task engine drain setOrders orders cancelAll fold_left].
    split; [apply findById_updateStatus|].
    split; [intros j N; now apply findById_updateStatus_other|].
    split; [apply currentVolume_updateStatus|].
    split; [repeat split|]. split; reflexivity.
  - intros R0. rewrite R0. cbn [world task engine log orders console].
    repeat split.
Qed.

(** *** [getLatestMarketData] *)

(** X7.  When its read is rejected, [getLatestMarketData()] logs the
    error and gives [undefined].  When the read is answered it changes
    nothing, and gives [null] exactly when no snapshot is stored;
    otherwise it gives a stored snapshot than which none was created
    later. *)
Theorem getLatestMarketData_is_latest env e :
  (rejects env O = true -> getLatestMarketData env e = (None, log e StoreError)) /\
  (rejects env O = false ->
     exists latest, getLatestMarketData env e = (Some latest, e) /\
       (latest = None <-> marketData e = []) /\
       (forall m, latest = Some m ->
          In m (marketData e) /\
          forall x, In x (marketData e) -> mdCreated x <= mdCreated m)).
Proof.
  unfold getLatestMarketData. split; intros R; rewrite R; [reflexivity|].
  exists (latestOf (marketData e)). split; [reflexivity|]. unfold latestOf. split.
  - split.
    + intros H. destruct (marketData e) as [|x l] eqn:M; [reflexivity|].
      pose proof (findOne_none _ _ _ H x (or_introl eq_refl)). discriminate.
    + intros ->. reflexivity.
  - intros m H. split.
    + eapply (findOne_In _ byCreatedDesc_asym byCreatedDesc_cotrans). exact H.
    + intros x I.
      pose proof (findOne_best _ byCreatedDesc_asym byCreatedDesc_cotrans _ _ _ H x I eq_refl) as B.
      unfold byCreatedDesc in B. apply Z.ltb_ge in B. exact B.
Qed.

(** *** The order the drain takes next *)

(** X1.  The drain takes the unprocessed order that was created first:
    the order [matchNextOrder] hands to [processOrder] is a stored
    document with status unprocessed, and no unprocessed document has an
    earlier creation time. *)
Theorem drain_takes_earliest_unprocessed env e order fs :
  drain (fst (resume env (mkWorld e Picking))) = Matching order fs ->
  fs = [] /\ In order (orders e) /\ status order = unprocessed /\
  forall x, In x (orders e) -> status x = unprocessed -> created order <= created x.
Proof.
  unfold resume. cbn [drain engine].
  destruct (rejects env O); [discriminate|].
  destruct (findOne byCreatedAsc isUnprocessed (orders e)) as [o|] eqn:F; [|discriminate].
  cbn [fst drain]. intros H. injection H as <- <-.
  pose proof (findOne_In _ byCreatedAsc_asym byCreatedAsc_cotrans _ _ _ F) as (I & U).
  assert (St : status o = unprocessed).
  { unfold isUnprocessed in U. destruct (status o); [reflexivity|discriminate..]. }
  repeat split; auto.
  intros x Ix Sx.
  assert (Ux : isUnprocessed x = true) by (unfold isUnprocessed; rewrite Sx; reflexivity).
  pose proof (findOne_best _ byCreatedAsc_asym byCreatedAsc_cotrans _ _ _ F x Ix Ux) as B.
  unfold byCreatedAsc in B. apply Z.ltb_ge in B. exact B.
Qed.

(** *** The price and the sides of a fill *)

Lemma eligible_crosses order m :
  eligible order m = true ->
  if isSelling order
  then (BN.toQ (limit order) <= BN.toQ (limit m))%Q
  else (BN.toQ (limit m) <= BN.toQ (limit order))%Q.
Proof.
  unfold eligible. intros H.
  apply andb_prop in H. destruct H as (H & _).
  apply andb_prop in H. destruct H as (_ & H).
  destruct (isSelling order); apply leb_Qle; exact H.
Qed.

Lemma turn_pricedAtBid env order r order' m r' :
  turn env order r = Turned order' m r' -> pricedAtBid m.
Proof.
  intros T.
  destruct (turn_Turned _ _ _ _ _ _ T)
    as (ov & matching & mv & v & docs1 & n1 & docs2 & n2 & H).
  destruct H as (_ & _ & _ & F & _ & _ & _ & _ & _ & _ & -> & _).
  destruct (findMatching_spec _ _ _ F) as (_ & El & _).
  pose proof (eligible_crosses _ _ El) as Cr.
  pose proof (eligible_other_side _ _ El) as Os.
  unfold pricedAtBid, buyer, seller. cbn [incoming counterparty fillPrice].
  destruct (isSelling order) eqn:S; cbn [negb] in Os.
  - repeat split; auto.
    exists (BN.normalize (BN.max (limit order) (limit matching))). split.
    + cbn [priceValue]. unfold BigNumber, BN.valueOf. apply parse_toString.
    + rewrite toQ_normalize, toQ_max. apply Q.max_r. exact Cr.
  - repeat split; auto.
    exists (limit order). split; [reflexivity|apply Qeq_refl].
Qed.

Lemma matchLoop_pricedAtBid env n : forall order r,
  Forall pricedAtBid (loopFills (matchLoop env n order r)).
Proof.
  induction n as [|n IH]; intros order r; cbn [matchLoop]; [constructor|].
  destruct (turn env order r) as [err r'|r'|order' m r'] eqn:T;
    cbn [loopFills]; try constructor.
  - eapply turn_pricedAtBid; eassumption.
  - apply IH.
Qed.

(** X3.  Every fill of a pass is made at the bid: the incoming order and
    its counterparty are a buyer and a seller, the price of the fill is
    the buyer's limit (also when the buyer is the incoming order), and the
    seller's limit is not above it. *)
Theorem fills_are_priced_at_the_bid env order r :
  Forall pricedAtBid (passFills (processOrder env order r)).
Proof.
  unfold processOrder. rewrite passFills_loopFills. apply matchLoop_pricedAtBid.
Qed.

Lemma matchLoop_other_side env n : forall order r,
  NoDup (map _id (orders (eng r))) -> In order (orders (eng r)) ->
  Forall (fun m => _id (incoming m) = _id order /\
                   _id (counterparty m) <> _id order /\
                   isSelling (counterparty m) = negb (isSelling order) /\
                   currentVolume (counterparty m) <> "0"%string)
         (loopFills (matchLoop env n order r)).
Proof.
  induction n as [|n IH]; intros order r ND I; cbn [matchLoop]; [constructor|].
  destruct (turn env order r) as [err r'|r'|order' m r'] eqn:T;
    cbn [loopFills]; try constructor.
  - destruct (turn_Turned _ _ _ _ _ _ T)
      as (ov & matching & mv & v & docs1 & n1 & docs2 & n2 & H).
    destruct H as (_ & _ & _ & F & _ & _ & _ & _ & _ & _ & -> & _).
    destruct (findMatching_spec _ _ _ F) as (Im & El & _).
    cbn [incoming counterparty].
    pose proof (eligible_other_side _ _ El) as Os.
    split; [reflexivity|]. split; [|split; [exact Os|exact (eligible_live _ _ El)]].
    intros E. pose proof (same_id _ _ _ ND Im I E) as Eq. subst matching.
    destruct (isSelling order); discriminate.
  - destruct (turn_step (fun _ => True) _ _ _ _ _ _ [] ND I T) as (_ & I' & (s & Es)).
    assert (ND' : NoDup (map _id (orders (eng r'))))
      by (rewrite (turn_ids _ _ _ _ _ _ T); exact ND).
    specialize (IH order' r' ND' I'). subst order'.
    cbn [withCurrentVolume _id isSelling] in IH. exact IH.
Qed.

(** X4.  In a pass for a stored order, every fill has that order as its
    incoming side and another order, of the opposite side, as its
    counterparty, whose stored volume was not the text "0" when it was
    selected: an order is never matched with itself, with an order of its
    own side, or with an order marked as exhausted. *)
Theorem counterparty_is_another_order_of_the_other_side env order r :
  NoDup (map _id (orders (eng r))) -> In order (orders (eng r)) ->
  Forall (fun m => _id (incoming m) = _id order /\
                   _id (counterparty m) <> _id order /\
                   isSelling (counterparty m) = negb (isSelling order) /\
                   currentVolume (counterparty m) <> "0"%string)
         (passFills (processOrder env order r)).
Proof.
  intros ND I. unfold processOrder. rewrite passFills_loopFills.
  now apply matchLoop_other_side.
Qed.


(** *** When the loop of a pass ends *)

Lemma filter_nothing {A} (p : A -> bool) : forall l,
  (forall z, In z l -> p z = false) -> List.filter p l = [].
Proof.
  induction l as [|y r IH]; intros H; [reflexivity|]. cbn [List.filter].
  rewrite (H y (or_introl eq_refl)). apply IH. intros z I. apply H. right. exact I.
Qed.

Lemma matchLoop_exit env n : forall order r,
  loopEnd (matchLoop env n order r) = Completed ->
  (exists ov, BigNumber (currentVolume (loopOrder (matchLoop env n order r))) = Some ov /\
              BN.isPositive ov = false) \/
  findMatching (loopOrder (matchLoop env n order r))
               (orders (eng (loopRun (matchLoop env n order r)))) = None.
Proof.
  induction n as [|n IH]; intros order r; cbn [matchLoop]; [discriminate|].
  destruct (turn env order r) as [err r'|r'|order' m r'] eqn:T;
    cbn [loopEnd loopOrder loopRun]; intros E; try discriminate.
  - rewrite (turn_Left _ _ _ _ T). exact (turn_Left_why _ _ _ _ T).
  - apply IH. exact E.
Qed.

(** X14.  When a pass during which no other call is made (the steps of
    the drain follow one another, see [pass_as_events]) has run to its
    end, the order it was for is stored as processed, and either its
    remaining volume is not above zero or no order in the book can be
    matched with it: an order is left resting with volume only when
    nothing crosses it. *)
Theorem processed_order_rests_only_uncrossed env order r :
  NoDup (map _id (orders (eng r))) -> In order (orders (eng r)) ->
  passEnd (processOrder env order r) = Completed ->
  exists o, In o (orders (eng (passRun (processOrder env order r)))) /\
    _id o = _id order /\ status o = processed /\
    ((exists ov, BigNumber (currentVolume o) = Some ov /\ BN.isPositive ov = false) \/
     findMatching o (orders (eng (passRun (processOrder env order r)))) = None).
Proof.
  intros ND I. unfold processOrder, processOrderWithin.
  set (n := turnsFor order (orders (eng r))).
  pose proof (matchLoop_keeps env n order r) as [_ Ki].
  destruct (matchLoop_steps (fun _ => True) env n order r [] ND I) as (_ & Il & _ & Idl).
  pose proof (matchLoop_exit env n order r) as Ex.
  set (l := matchLoop env n order r) in *.
  assert (NDl : NoDup (map _id (orders (eng (loopRun l))))) by (rewrite Ki; exact ND).
  destruct (loopEnd l); cbn [passEnd passRun]; intros E; try discriminate.
  rewrite (finishPass_completed _ _ _ _ E).
  destruct (updateStatus_hit (loopOrder l) processed _ NDl Il) as (Hin & Hany & _).
  exists (withStatus (loopOrder l) processed).
  split; [exact Hin|]. split; [exact Idl|]. split; [reflexivity|].
  destruct (Ex eq_refl) as [Z|Nn]; [left; exact Z|right].
  unfold findMatching, findOne in *. cbn [withStatus isSelling].
  rewrite filter_nothing; [reflexivity|].
  intros z Iz.
  assert (Fl : forall x, In x (orders (eng (loopRun l))) ->
                 eligible (loopOrder l) x = false).
  { intros x Ix.
    destruct (eligible (loopOrder l) x) eqn:El; [|reflexivity].
    exfalso.
    assert (Fx : In x (List.filter (eligible (loopOrder l)) (orders (eng (loopRun l)))))
      by (apply filter_In; split; assumption).
    pose proof (hd_sortBy_none _ _ Nn) as Em. rewrite Em in Fx. destruct Fx. }
  destruct (Hany z Iz) as [->|(Iz' & _)].
  - unfold eligible. cbn [withStatus isSelling currentVolume status limit].
    destruct (isSelling (loopOrder l)); cbn [negb Bool.eqb];
      rewrite !andb_false_r; reflexivity.
  - exact (Fl z Iz').
Qed.

(** *** A drain on a store that answers *)

Lemma acceptedLimits_placedAs l l' :
  map placedAs l' = map placedAs l -> acceptedLimits l -> acceptedLimits l'.
Proof.
  intros E A o I.
  assert (J : In (placedAs o) (map placedAs l)) by (rewrite <- E; now apply in_map).
  apply in_map_iff in J. destruct J as (x & Ex & Ix).
  unfold placedAs in Ex. injection Ex as _ El _ _ _ _.
  rewrite <- El. exact (A x Ix).
Qed.

Lemma matchLoop_answered env n : answers env -> forall order r,
  NoDup (map _id (orders (eng r))) -> parses (orders (eng r)) ->
  acceptedLimits (orders (eng r)) -> In order (orders (eng r)) ->
  (forall err, loopEnd (matchLoop env n order r) <> Threw err) /\
  parses (orders (eng (loopRun (matchLoop env n order r)))).
Proof.
  intros A. induction n as [|n IH]; intros order r ND P AL I; cbn [matchLoop].
  - split; [discriminate|exact P].
  - destruct (turn env order r) as [err r'|r'|order' m r'] eqn:T;
      cbn [loopEnd loopRun].
    + exfalso. exact (turn_not_Raised env order r err r' A P AL I T).
    + split; [discriminate|]. rewrite (turn_Left _ _ _ _ T). exact P.
    + destruct (turn_step (fun _ => True) _ _ _ _ _ _ [] ND I T) as (_ & I' & _).
      assert (ND' : NoDup (map _id (orders (eng r'))))
        by (rewrite (turn_ids _ _ _ _ _ _ T); exact ND).
      assert (AL' : acceptedLimits (orders (eng r')))
        by (exact (acceptedLimits_placedAs _ _ (placedAs_turn _ _ _ _ _ _ T) AL)).
      exact (IH order' r' ND' (parses_turn _ _ _ _ _ _ P T) AL' I').
Qed.

Lemma pass_answered env order r :
  answers env -> NoDup (map _id (orders (eng r))) -> parses (orders (eng r)) ->
  acceptedLimits (orders (eng r)) ->
  In order (orders (eng r)) -> status order = unprocessed ->
  processing (eng r) = true ->
  let p := processOrder env order r in
  passEnd p = Completed /\
  processing (eng (passRun p)) = false /\
  console (eng (passRun p)) = console (eng r) /\
  List.length (marketData (eng (passRun p))) = S (List.length (marketData (eng r))) /\
  NoDup (map _id (orders (eng (passRun p)))) /\
  parses (orders (eng (passRun p))) /\
  acceptedLimits (orders (eng (passRun p))) /\
  S (pending (orders (eng (passRun p)))) = pending (orders (eng r)).
Proof.
  intros A ND P AL I St Pr p.
  assert (AL' : acceptedLimits (orders (eng (passRun p)))).
  { unfold p, processOrder.
    exact (acceptedLimits_placedAs _ _ (placedAs_processOrderWithin _ _ _ _) AL). }
  destruct (pass_progress env order r ND I St Pr) as (ND' & Pg).
  pose proof (processOrder_ends env order r ND I) as NS.
  fold p in ND', Pg, NS.
  unfold processOrder, processOrderWithin in p.
  set (n := turnsFor order (orders (eng r))) in *.
  destruct (matchLoop_answered env n A order r ND P AL I) as (NT & Pl).
  pose proof (matchLoop_rest env n order r) as (Md & _ & _ & Co).
  set (l := matchLoop env n order r) in *.
  destruct (finishPass_answered env (loopOrder l) (loopFills l) (loopRun l) A)
    as (Fe & Fp & Fc & s & Fm & _).
  destruct (loopEnd l) as [|err|] eqn:L.
  - subst p. cbv beta iota. split; [exact Fe|]. split; [exact Fp|].
    split; [rewrite Fc; exact Co|].
    split; [rewrite Fm, List.length_app, Md; cbn [List.length]; lia|].
    split; [exact ND'|].
    split.
    + rewrite (finishPass_completed _ _ _ _ Fe). apply parses_updateStatus. exact Pl.
    + split; [exact AL'|]. destruct Pg as [Pg|Pg]; [congruence|exact Pg].
  - exfalso. exact (NT err eq_refl).
  - exfalso. apply NS. reflexivity.
Qed.

Lemma pending_none l :
  findOne byCreatedAsc isUnprocessed l = None -> pending l = O.
Proof.
  intros H. unfold pending. rewrite filter_nothing; [reflexivity|].
  exact (findOne_none _ _ _ H).
Qed.

Lemma drain_answered env n : answers env -> forall e k,
  NoDup (map _id (orders e)) -> parses (orders e) -> acceptedLimits (orders e) ->
  processing e = false ->
  (pending (orders e) <= n)%nat ->
  let d := matchNextOrderWithin n env (mkRun e k) in
  pending (orders (eng (drainRun d))) = O /\
  processing (eng (drainRun d)) = false /\
  console (eng (drainRun d)) = console e /\
  List.length (marketData (eng (drainRun d)))
    = (List.length (marketData e) + pending (orders e))%nat.
Proof.
  intros A. induction n as [|n IH]; intros e k ND P AL Pr Le d.
  - subst d. cbn [matchNextOrderWithin eng onEngine trips tick]. rewrite Pr, A.
    cbn [setProcessing orders].
    destruct (findOne byCreatedAsc isUnprocessed (orders e)) as [order|] eqn:F.
    + exfalso.
      apply (findOne_In _ byCreatedAsc_asym byCreatedAsc_cotrans) in F.
      destruct F as (I & U).
      assert (St : status order = unprocessed).
      { unfold isUnprocessed in U. destruct (status order); [reflexivity|discriminate..]. }
      pose proof (pending_In _ _ I St). lia.
    + cbn [drainRun eng onEngine tick setProcessing orders processing console marketData].
      rewrite (pending_none _ F). repeat split; lia.
  - subst d. rewrite (matchNextOrderWithin_S n env e k Pr), A.
    destruct (findOne byCreatedAsc isUnprocessed (orders e)) as [order|] eqn:F.
    2:{ cbn [drainRun eng setProcessing orders processing console marketData].
        rewrite (pending_none _ F). repeat split; lia. }
    cbv zeta. cbn [drainRun].
    apply (findOne_In _ byCreatedAsc_asym byCreatedAsc_cotrans) in F.
    destruct F as (I & U).
    assert (St : status order = unprocessed).
    { unfold isUnprocessed in U. destruct (status order); [reflexivity|discriminate..]. }
    destruct (pass_answered env order (mkRun (setProcessing e true) (S k)) A ND P AL I St
                eq_refl)
      as (_ & Pp & Pc & Pm & Pn & Pq & Pa & Pg).
    set (p := processOrder env order (mkRun (setProcessing e true) (S k))) in *.
    cbn [eng setProcessing orders console marketData] in Pc, Pm, Pg.
    assert (Le' : (pending (orders (eng (passRun p))) <= n)%nat) by lia.
    pose proof (IH (eng (passRun p)) (trips (passRun p)) Pn Pq Pa Pp Le') as R.
    assert (Eta : mkRun (eng (passRun p)) (trips (passRun p)) = passRun p)
      by (destruct (passRun p); reflexivity).
    rewrite Eta in R. cbv zeta in R.
    destruct R as (R1 & R2 & R3 & R4).
    split; [exact R1|]. split; [exact R2|]. split; [congruence|]. lia.
Qed.

(** X2.  On a store that answers every round trip, holding only decimal
    volumes and limits [BigNumber] accepts, a drain that starts with the
    flag clear and during which no other call is made (the steps of the
    drain follow one another, see [drain_as_events]) processes every
    unprocessed order: when it ends no order is left unprocessed, the
    flag is clear again, nothing was logged, and one snapshot was appended
    per order that was unprocessed. *)
Theorem drain_processes_every_unprocessed_order env r :
  answers env -> NoDup (map _id (orders (eng r))) -> parses (orders (eng r)) ->
  acceptedLimits (orders (eng r)) ->
  processing (eng r) = false ->
  let d := matchNextOrder env r in
  pending (orders (eng (drainRun d))) = O /\
  processing (eng (drainRun d)) = false /\
  console (eng (drainRun d)) = console (eng r) /\
  List.length (marketData (eng (drainRun d)))
    = (List.length (marketData (eng r)) + pending (orders (eng r)))%nat.
Proof.
  intros A ND P AL Pr. unfold matchNextOrder. destruct r as [e k]. cbn [eng] in *.
  exact (drain_answered env _ A e k ND P AL Pr (pending_length _)).
Qed.

(** *** The snapshot of a pass *)

Lemma finishPass_snapshot env order fs r :
  passEnd (finishPass env order fs r) = Completed ->
  let docs := orders (eng (passRun (finishPass env order fs r))) in
  exists s,
    marketData (eng (passRun (finishPass env order fs r))) = marketData (eng r) ++ [s] /\
    (sellVolume s, sellPrice s)
      = match findOne (byLimit Asc) (resting true) docs with
        | Some o => (currentVolume o, BN.toString (limit o))
        | None => (""%string, ""%string)
        end /\
    (buyVolume s, buyPrice s)
      = match findOne (byLimit Desc) (resting false) docs with
        | Some o => (currentVolume o, BN.toString (limit o))
        | None => (""%string, ""%string)
        end.
Proof.
  unfold finishPass. cbn [tick onEngine eng trips].
  repeat match goal with
         | |- context [if ?c then _ else _] => destruct c
         end;
    cbn [passEnd]; intros E; try discriminate E; cbv zeta;
    cbn [passRun eng tick onEngine addMarketData setProcessing setOrders log
         orders marketData];
    eexists; (split; [reflexivity|]);
    unfold snapshotOf; cbn [sellVolume sellPrice buyVolume buyPrice];
    split;
    match goal with
    | |- context [findOne ?b ?p ?l] => destruct (findOne b p l); reflexivity
    end.
Qed.

Lemma topOfBook_findOne_sell docs :
  let f := findOne (byLimit Asc) (resting true) docs in
  topOfBook true docs (match f with Some o => currentVolume o | None => "" end)
                      (match f with Some o => BN.toString (limit o) | None => "" end).
Proof.
  cbv zeta. destruct (findOne (byLimit Asc) (resting true) docs) as [a|] eqn:F.
  - left. exists a.
    destruct (findOne_In _ (byLimit_asym Asc) (byLimit_cotrans Asc) _ _ _ F) as (I & R).
    repeat split; auto. intros x Ix Rx.
    pose proof (findOne_best _ (byLimit_asym Asc) (byLimit_cotrans Asc) _ _ _ F x Ix Rx) as B.
    cbn [byLimit] in B. apply ltb_false_Qle. exact B.
  - right. repeat split. exact (findOne_none _ _ _ F).
Qed.

Lemma topOfBook_findOne_buy docs :
  let f := findOne (byLimit Desc) (resting false) docs in
  topOfBook false docs (match f with Some o => currentVolume o | None => "" end)
                       (match f with Some o => BN.toString (limit o) | None => "" end).
Proof.
  cbv zeta. destruct (findOne (byLimit Desc) (resting false) docs) as [a|] eqn:F.
  - left. exists a.
    destruct (findOne_In _ (byLimit_asym Desc) (byLimit_cotrans Desc) _ _ _ F) as (I & R).
    repeat split; auto. intros x Ix Rx.
    pose proof (findOne_best _ (byLimit_asym Desc) (byLimit_cotrans Desc) _ _ _ F x Ix Rx) as B.
    cbn [byLimit] in B. apply ltb_false_Qle. exact B.
  - right. repeat split. exact (findOne_none _ _ _ F).
Qed.

(** X6.  A pass during which no other call is made (the steps of the
    drain follow one another, see [pass_as_events]) and that runs to its
    end appends one snapshot, and that snapshot shows the top of the book
    as the pass leaves it: the volume
    and limit of the lowest-priced resting sell order and of the
    highest-priced resting buy order (resting: not canceled, stored
    volume not the text "0"), and empty strings for a side on which no
    order rests. *)
Theorem snapshot_shows_top_of_book env order r :
  passEnd (processOrder env order r) = Completed ->
  let e' := eng (passRun (processOrder env order r)) in
  exists s,
    marketData e' = marketData (eng r) ++ [s] /\
    topOfBook true (orders e') (sellVolume s) (sellPrice s) /\
    topOfBook false (orders e') (buyVolume s) (buyPrice s).
Proof.
  unfold processOrder, processOrderWithin.
  set (n := turnsFor order (orders (eng r))).
  pose proof (matchLoop_rest env n order r) as (Md & _).
  set (l := matchLoop env n order r) in *.
  destruct (loopEnd l); cbn [passEnd passRun]; intros E; try discriminate.
  destruct (finishPass_snapshot _ _ _ _ E) as (s & M & Sl & By).
  cbv zeta. exists s. split; [rewrite M, Md; reflexivity|].
  set (docs := orders (eng (passRun (finishPass env (loopOrder l) (loopFills l) (loopRun l))))) in *.
  pose proof (topOfBook_findOne_sell docs) as Ts.
  pose proof (topOfBook_findOne_buy docs) as Tb.
  cbv zeta in Ts, Tb.
  destruct (findOne (byLimit Asc) (resting true) docs);
    destruct (findOne (byLimit Desc) (resting false) docs);
    injection Sl as -> ->; injection By as -> ->; split; assumption.
Qed.

(** *** One drain at a time *)

Lemma flagOk_trigger e d :
  flagOk (mkWorld e d) -> flagOk (trigger (mkWorld e d)).
Proof.
  unfold trigger, flagOk. cbn [engine drain]. intros H.
  destruct (processing e) eqn:P; cbn [engine drain]; [|right; reflexivity].
  destruct H as [H|H]; [left; exact H|right; exact P].
Qed.

Lemma processing_turn env order r order' m r' :
  turn env order r = Turned order' m r' -> processing (eng r') = processing (eng r).
Proof.
  intros T.
  destruct (turn_Turned _ _ _ _ _ _ T)
    as (ov & matching & mv & v & docs1 & n1 & docs2 & n2 & H).
  destruct H as (_ & _ & _ & _ & _ & _ & _ & _ & _ & _ & _ & ->). reflexivity.
Qed.

Lemma flagOk_react ev w : flagOk w -> flagOk (fst (react ev w)).
Proof.
  intros F. destruct w as [e d].
  destruct ev as [[env l v u s|id|env]|env]; cbn [react fst].
  - unfold placed. cbn [engine drain].
    destruct (BN.is_empty v); [exact F|].
    destruct (BN.is_empty u); [exact F|].
    destruct (rejects env O); [exact F|].
    apply flagOk_trigger. exact F.
  - exact F.
  - apply flagOk_trigger. exact F.
  - unfold resume. cbn [engine drain].
    destruct d as [| |order fs]; cbn [fst].
    + exact F.
    + destruct (rejects env O); [left; reflexivity|].
      destruct (findOne byCreatedAsc isUnprocessed (orders e)); [|left; reflexivity].
      right. destruct F as [F|F]; [discriminate|exact F].
    + destruct (turn env order (mkRun e O)) as [err r|r|order' m r] eqn:T; cbn [fst].
      * left. reflexivity.
      * destruct (passEnd (finishPass env order fs r)); cbn [fst];
          [apply flagOk_trigger|..]; left; reflexivity.
      * right. cbn [engine]. rewrite (processing_turn _ _ _ _ _ _ T). cbn [eng].
        destruct F as [F|F]; [discriminate|exact F].
Qed.

Lemma reachableWorld_flagOk P w fs : reachableWorld P w fs -> flagOk w.
Proof.
  induction 1 as [|w fs ev R IH Pe]; [left; reflexivity|].
  now apply flagOk_react.
Qed.

(** X10.  At most one drain runs at a time: in every state that calls
    and resumptions lead to, the processing flag is set for as long as a
    drain is suspended, so a call of [placeOrder], [cancelOrder] or
    [matchNextOrder] made in the meantime starts no second drain and
    leaves the running one where it is. *)
Theorem no_second_drain_is_started P w fs :
  reachableWorld P w fs -> drain w <> Idle ->
  processing (engine w) = true /\
  forall c, drain (fst (react (Called c) w)) = drain w.
Proof.
  intros R N. destruct (reachableWorld_flagOk P w fs R) as [F|F]; [contradiction|].
  split; [exact F|].
  intros [env l v u s|id|env]; cbn [react fst].
  - unfold placed.
    destruct (BN.is_empty v); [reflexivity|].
    destruct (BN.is_empty u); [reflexivity|].
    destruct (rejects env O); [reflexivity|].
    unfold trigger. cbn [engine setOrders processing]. rewrite F. reflexivity.
  - reflexivity.
  - unfold trigger. rewrite F. reflexivity.
Qed.

(** *** The older copy *)

Lemma legacy_turn_rest env order r order' m r' :
  Legacy.turn env order r = Turned order' m r' ->
  processing (eng r') = processing (eng r).
Proof.
  unfold Legacy.turn. intros H.
  destruct (BigNumber (currentVolume order)) as [ov|]; [|discriminate].
  destruct (BN.isPositive ov); cbn [negb] in H; [|discriminate].
  destruct (rejects env (trips r)); [discriminate|].
  cbn [tick eng trips] in H.
  destruct (findMatching order (orders (eng r))) as [matching|]; [|discriminate].
  destruct (BigNumber (currentVolume matching)) as [mv|]; [|discriminate].
  destruct (priceOf order matching) as [price|]; [|discriminate].
  destruct (BigNumber (BN.valueOf (BN.min ov mv))) as [v|]; [|discriminate].
  destruct (rejects env (S (trips r))); [discriminate|].
  destruct (updateCurrentVolume (_id order) _ (orders (eng r))) as [docs1 n1].
  destruct (updateCurrentVolume (_id matching) _ docs1) as [docs2 n2].
  injection H as _ _ <-. reflexivity.
Qed.

Lemma legacy_turn_stops env order r :
  match Legacy.turn env order r with
  | Raised _ r' | Left r' => eng r' = eng r
  | Turned _ _ _ => True
  end.
Proof.
  unfold Legacy.turn.
  destruct (BigNumber (currentVolume order)) as [ov|]; [|reflexivity].
  destruct (BN.isPositive ov); cbn [negb]; [|reflexivity].
  destruct (rejects env (trips r)); [reflexivity|].
  cbn [tick eng trips].
  destruct (findMatching order (orders (eng r))) as [matching|]; [|reflexivity].
  destruct (BigNumber (currentVolume matching)) as [mv|]; [|reflexivity].
  destruct (priceOf order matching) as [price|]; [|reflexivity].
  destruct (BigNumber (BN.valueOf (BN.min ov mv))) as [v|]; [|reflexivity].
  destruct (rejects env (S (trips r))); [reflexivity|].
  destruct (updateCurrentVolume (_id order) _ (orders (eng r))) as [docs1 n1].
  destruct (updateCurrentVolume (_id matching) _ docs1) as [docs2 n2].
  exact I.
Qed.

Lemma legacy_matchLoop_flag env n : forall order r,
  processing (eng (loopRun (Legacy.matchLoop env n order r))) = processing (eng r).
Proof.
  induction n as [|n IH]; intros order r; cbn [Legacy.matchLoop]; [reflexivity|].
  pose proof (legacy_turn_stops env order r) as S.
  destruct (Legacy.turn env order r) as [err r'|r'|order' m r'] eqn:T; cbn [loopRun].
  - rewrite S. reflexivity.
  - rewrite S. reflexivity.
  - rewrite IH. exact (legacy_turn_rest _ _ _ _ _ _ T).
Qed.

Lemma legacy_finishPass_flag env order fs r :
  processing (eng (passRun (Legacy.finishPass env order fs r))) = processing (eng r).
Proof.
  unfold Legacy.finishPass. cbn [tick onEngine eng trips].
  repeat match goal with
         | |- context [if ?c then _ else _] => destruct c
         end; reflexivity.
Qed.

Lemma legacy_pass_flag env order r :
  processing (eng (passRun (Legacy.processOrder env order r))) = processing (eng r).
Proof.
  unfold Legacy.processOrder.
  pose proof (legacy_matchLoop_flag env (turnsFor order (orders (eng r))) order r) as L.
  destruct (loopEnd (Legacy.matchLoop env (turnsFor order (orders (eng r))) order r));
    cbn [passRun onEngine eng log processing]; rewrite ?legacy_finishPass_flag; exact L.
Qed.

Lemma legacy_drain_when_flag_set n env r :
  processing (eng r) = true -> Legacy.matchNextOrderWithin n env r = mkDrain [] r.
Proof. intros H. destruct n; cbn [Legacy.matchNextOrderWithin]; rewrite H; reflexivity. Qed.

(** X11.  In the older copy nothing clears the processing flag after a
    pass.  Once [matchNextOrder] has handed an order to [processOrder],
    the flag stays set: that drain makes this one pass and no more, and
    every order placed afterwards is stored as unprocessed and never
    matched. *)
Theorem legacy_engine_stops_after_one_pass n env e k order :
  processing e = false -> rejects env k = false ->
  findOne byCreatedAsc isUnprocessed (orders e) = Some order ->
  let d := Legacy.matchNextOrderWithin n env (mkRun e k) in
  let e' := eng (drainRun d) in
  processing e' = true /\
  drainFills d = passFills (Legacy.processOrder env order (mkRun (setProcessing e true) (S k))) /\
  forall env' l v u s,
    BN.is_empty v = false -> BN.is_empty u = false -> rejects env' O = false ->
    let o := Legacy.placeOrder env' l v u s e' in
    fills o = [] /\ processing (after o) = true /\
    orders (after o)
      = orders e' ++ [mkOrder (nextId e') l v v s unprocessed u (now env' O)].
Proof.
  intros Pr Rj F.
  set (p := Legacy.processOrder env order (mkRun (setProcessing e true) (S k))).
  assert (Pp : processing (eng (passRun p)) = true)
    by (unfold p; rewrite legacy_pass_flag; reflexivity).
  assert (D : Legacy.matchNextOrderWithin n env (mkRun e k)
              = mkDrain (passFills p) (passRun p)).
  { destruct n; cbn [Legacy.matchNextOrderWithin eng onEngine trips tick];
      rewrite Pr, Rj; change (orders (setProcessing e true)) with (orders e);
      rewrite F;
      change (tick (onEngine (fun e0 => setProcessing e0 true) (mkRun e k)))
        with (mkRun (setProcessing e true) (S k));
      fold p; [reflexivity|].
    rewrite (legacy_drain_when_flag_set n env (passRun p) Pp).
    cbn [drainFills drainRun]. rewrite app_nil_r. reflexivity. }
  cbv zeta. rewrite D. cbn [drainRun drainFills].
  split; [exact Pp|]. split; [reflexivity|].
  intros env' l v u s Ev Eu Rj'.
  unfold Legacy.placeOrder, Legacy.matchNextOrder. rewrite Ev, Eu, Rj'.
  rewrite legacy_drain_when_flag_set by exact Pp.
  cbn [fills after drainFills drainRun eng setOrders orders processing].
  repeat split. exact Pp.
Qed.




(** *** The order of the fills of a pass *)

Lemma updateCurrentVolume_any id v : forall l l' n x,
  updateCurrentVolume id v l = (l', n) -> In x l' ->
  In x l \/ exists o, In o l /\ _id o = id /\ x = withCurrentVolume o v.
Proof.
  induction l as [|y r IH]; intros l' n x E I; cbn [updateCurrentVolume] in E.
  - injection E as <- <-. destruct I.
  - destruct (Nat.eqb (_id y) id) eqn:Q.
    + injection E as <- <-. apply Nat.eqb_eq in Q. destruct I as [<-|I].
      * right. exists y. repeat split; auto. left. reflexivity.
      * left. right. exact I.
    + destruct (updateCurrentVolume id v r) as [r' n'] eqn:U. injection E as <- <-.
      destruct I as [<-|I]; [left; left; reflexivity|].
      destruct (IH r' n' x eq_refl I) as [J|(o & Io & Eo & Ex)].
      * left. right. exact J.
      * right. exists o. repeat split; auto. right. exact Io.
Qed.

Lemma eligible_withCurrentVolume order s x :
  eligible (withCurrentVolume order s) x = eligible order x.
Proof. reflexivity. Qed.

(** An order that can be matched after a turn could be matched before
    it, at the same limit. *)
Lemma turn_eligible env order r order' m r' x' :
  NoDup (map _id (orders (eng r))) -> In order (orders (eng r)) ->
  turn env order r = Turned order' m r' ->
  In x' (orders (eng r')) -> eligible order x' = true ->
  exists x, In x (orders (eng r)) /\ eligible order x = true /\ limit x = limit x'.
Proof.
  intros ND I T Ix El.
  destruct (turn_Turned _ _ _ _ _ _ T)
    as (ov & matching & mv & v & docs1 & n1 & docs2 & n2 & H).
  destruct H as (_ & _ & _ & F & _ & _ & _ & U1 & U2 & _ & _ & ->).
  cbn [eng setOrders orders] in Ix.
  destruct (findMatching_spec _ _ _ F) as (Im & Em & _).
  assert (Own : forall s, eligible order (withCurrentVolume order s) = false).
  { intros s. unfold eligible. cbn [withCurrentVolume isSelling].
    destruct (isSelling order); cbn [negb Bool.eqb]; rewrite !andb_false_r; reflexivity. }
  destruct (updateCurrentVolume_any _ _ _ _ _ _ U2 Ix) as [J|(o & Io & Eo & Ex)].
  - destruct (updateCurrentVolume_any _ _ _ _ _ _ U1 J) as [K|(o & Io & Eo & Ex)].
    + exists x'. repeat split; assumption.
    + exfalso. pose proof (same_id _ _ _ ND Io I Eo) as Q. subst o x'.
      rewrite Own in El. discriminate.
  - destruct (updateCurrentVolume_any _ _ _ _ _ _ U1 Io) as [K|(o0 & Io0 & Eo0 & Ex0)].
    + pose proof (same_id _ _ _ ND K Im Eo) as Q. subst o x'.
      exists matching. repeat split; auto.
    + exfalso. pose proof (same_id _ _ _ ND Io0 I Eo0) as Q. subst o0 o x'.
      change (withCurrentVolume (withCurrentVolume order ?a) ?b)
        with (withCurrentVolume order b) in El.
      rewrite Own in El. discriminate.
Qed.

Lemma matchLoop_counterparties env n : forall order r m,
  NoDup (map _id (orders (eng r))) -> In order (orders (eng r)) ->
  In m (loopFills (matchLoop env n order r)) ->
  exists x, In x (orders (eng r)) /\ eligible order x = true /\
            limit x = limit (counterparty m).
Proof.
  induction n as [|n IH]; intros order r m ND I Im; cbn [matchLoop] in Im; [destruct Im|].
  destruct (turn env order r) as [err r'|r'|order' m1 r'] eqn:T;
    cbn [loopFills] in Im; try (destruct Im; fail).
  destruct Im as [<-|Im].
  - destruct (turn_Turned _ _ _ _ _ _ T)
      as (ov & matching & mv & v & docs1 & n1 & docs2 & n2 & H).
    destruct H as (_ & _ & _ & F & _ & _ & _ & _ & _ & _ & -> & _).
    destruct (findMatching_spec _ _ _ F) as (Im & Em & _).
    exists matching. repeat split; assumption.
  - destruct (turn_step (fun _ => True) _ _ _ _ _ _ [] ND I T) as (_ & I' & (s & Es)).
    assert (ND' : NoDup (map _id (orders (eng r'))))
      by (rewrite (turn_ids _ _ _ _ _ _ T); exact ND).
    destruct (IH order' r' m ND' I' Im) as (x' & Ix' & El' & Lx').
    subst order'. rewrite eligible_withCurrentVolume in El'.
    destruct (turn_eligible _ _ _ _ _ _ _ ND I T Ix' El') as (x & Ix & El & Lx).
    exists x. repeat split; auto. congruence.
Qed.

Lemma bestFirst_withCurrentVolume order s ps :
  bestFirst (withCurrentVolume order s) ps <-> bestFirst order ps.
Proof.
  induction ps as [|a [|b r] IH]; cbn [bestFirst]; tauto.
Qed.

Lemma matchLoop_bestFirst env n : forall order r,
  NoDup (map _id (orders (eng r))) -> In order (orders (eng r)) ->
  bestFirst order (counterpartyLimits (loopFills (matchLoop env n order r))).
Proof.
  induction n as [|n IH]; intros order r ND I; cbn [matchLoop]; [exact Logic.I|].
  destruct (turn env order r) as [err r'|r'|order' m1 r'] eqn:T;
    cbn [loopFills]; try exact Logic.I.
  destruct (turn_step (fun _ => True) _ _ _ _ _ _ [] ND I T) as (_ & I' & (s & Es)).
  assert (ND' : NoDup (map _id (orders (eng r'))))
    by (rewrite (turn_ids _ _ _ _ _ _ T); exact ND).
  pose proof (IH order' r' ND' I') as B.
  pose proof (matchLoop_counterparties env n order' r') as C.
  destruct (loopFills (matchLoop env n order' r')) as [|m2 rest] eqn:L;
    cbn [counterpartyLimits map bestFirst]; [exact Logic.I|].
  split.
  - destruct (C m2 ND' I' (or_introl eq_refl)) as (x' & Ix' & El' & Lx').
    subst order'. rewrite eligible_withCurrentVolume in El'.
    destruct (turn_eligible _ _ _ _ _ _ _ ND I T Ix' El') as (x & Ix & El & Lx).
    destruct (turn_Turned _ _ _ _ _ _ T)
      as (ov & matching & mv & v & docs1 & n1 & docs2 & n2 & H).
    destruct H as (_ & _ & _ & F & _ & _ & _ & _ & _ & _ & -> & _).
    destruct (findMatching_spec _ _ _ F) as (_ & _ & Best & _).
    pose proof (Best x Ix El) as G. unfold priceAtLeastAsGood in G.
    cbn [counterparty]. rewrite <- Lx', <- Lx. exact G.
  - subst order'. apply bestFirst_withCurrentVolume in B. exact B.
Qed.

(** X13.  A pass for a stored order during which no other call is made
    (no order is placed and none canceled between its turns, see
    [pass_as_events]) walks the book from the best price on: the limits
    of the counterparties of its fills, in the order of the fills, never
    get better for the incoming order (they do not fall for an incoming
    buy, and do not rise for an incoming sell). *)
Theorem pass_fills_best_price_first env order r :
  NoDup (map _id (orders (eng r))) -> In order (orders (eng r)) ->
  bestFirst order (counterpartyLimits (passFills (processOrder env order r))).
Proof.
  intros ND I. unfold processOrder. rewrite passFills_loopFills.
  now apply matchLoop_bestFirst.
Qed.

(* ===================================================================== *)
(** ** The theorems at concrete inputs                                   *)
(* ===================================================================== *)





(** A lone ask after a snapshot that recorded a match of 5 at 12. *)
Lemma no_fill_carries_last_match_forward_witness :
  let ask := mkOrder 0 (dec 50) "1" "1" true unprocessed "ann" 100 in
  let prev := mkMarketData "" "" "3" "12" "5" "12" 90 in
  let r := mkRun (mkEngine [ask] [prev] true 1 []) 0 in
  answers (healthy 0) /\
  passEnd (processOrder (healthy 0) ask r) = Completed /\
  passFills (processOrder (healthy 0) ask r) = [] /\
  exists snapshot,
    marketData (eng (passRun (processOrder (healthy 0) ask r))) = [prev] ++ [snapshot] /\
    forall p, latestOf (marketData (eng r)) = Some p ->
      matchVolume snapshot = matchVolume p /\ matchPrice snapshot = matchPrice p.
Proof.
  intros ask prev r.
  assert (A : answers (healthy 0)) by (intros k; reflexivity).
  assert (E : passEnd (processOrder (healthy 0) ask r) = Completed)
    by (vm_compute; reflexivity).
  assert (F : passFills (processOrder (healthy 0) ask r) = [])
    by (vm_compute; reflexivity).
  split; [exact A|]. split; [exact E|]. split; [exact F|].
  exact (no_fill_carries_last_match_forward (healthy 0) ask r A E F).
Defined.

(** A bid with limit 0 and volume -5 on the engine as constructed. *)
Lemma placeOrder_stores_any_limit_and_volume_witness :
  reachable initial [] /\
  BN.is_empty "-5" = false /\ BN.is_empty "ann" = false /\
  rejects (healthy 100) O = false /\
  returned (placeOrder (healthy 100) (dec 0) "-5" "ann" false initial) = JUndefined /\
  exists o, In o (orders (after (placeOrder (healthy 100) (dec 0) "-5" "ann" false initial))) /\
    _id o = nextId initial /\ limit o = dec 0 /\ originalVolume o = "-5"%string /\
    isSelling o = false /\ userId o = "ann"%string.
Proof.
  split; [exact reach_initial|]. split; [reflexivity|]. split; [reflexivity|].
  split; [reflexivity|].
  destruct (placeOrder_stores_any_limit_and_volume (healthy 100) (dec 0) "-5" "ann" false
              initial [] reach_initial eq_refl eq_refl eq_refl) as (A & _ & C).
  split; [exact A|exact C].
Defined.

Lemma nodup_ids_4 : NoDup [0; 1; 2; 3]%nat.
Proof.
  repeat constructor; cbn; intuition discriminate.
Defined.


(* ===================================================================== *)
(** ** The further properties at concrete inputs                         *)
(* ===================================================================== *)

Lemma nodup_ids_3 : NoDup [0; 1; 2]%nat.
Proof.
  repeat constructor; cbn; intuition discriminate.
Defined.

(** Two orders wait; the one created first is taken, though it is stored
    second. *)
Lemma drain_takes_earliest_unprocessed_witness :
  let late := mkOrder 0 (dec 10) "1" "1" true unprocessed "ann" 300 in
  let early := mkOrder 1 (dec 11) "1" "1" true unprocessed "bob" 100 in
  let e := mkEngine [late; early] [] true 2 [] in
  drain (fst (resume (healthy 0) (mkWorld e Picking))) = Matching early [] /\
  In early (orders e) /\ status early = unprocessed /\
  forall x, In x (orders e) -> status x = unprocessed -> created early <= created x.
Proof.
  intros late early e.
  assert (H : drain (fst (resume (healthy 0) (mkWorld e Picking))) = Matching early [])
    by (vm_compute; reflexivity).
  split; [exact H|].
  exact (proj2 (drain_takes_earliest_unprocessed (healthy 0) e early [] H)).
Defined.

(** An ask placed on the engine as constructed is listed for its user. *)
Lemma placed_order_is_listed_for_its_user_witness :
  let e' := after (placeOrder (healthy 100) (dec 10) "5" "ann" true initial) in
  BN.is_empty "5" = false /\ BN.is_empty "ann" = false /\
  rejects (healthy 100) O = false /\ rejects (healthy 200) O = false /\
  exists had has,
    getOrdersByUserId (healthy 200) "ann" initial = (Some had, initial) /\
    getOrdersByUserId (healthy 200) "ann" e' = (Some has, e') /\
    map _id has = map _id had ++ [nextId initial].
Proof.
  intros e'.
  split; [reflexivity|]. split; [reflexivity|]. split; [reflexivity|].
  split; [reflexivity|].
  exact (placed_order_is_listed_for_its_user (healthy 100) (dec 10) "5" "ann" true
           initial (healthy 200) "ann" eq_refl eq_refl eq_refl eq_refl).
Defined.

(** A [cancelOrder] for a resting ask, made when the drain has ended. *)
Lemma cancelOrder_only_sets_status_witness :
  let ask := mkOrder 0 (dec 10) "5" "5" true processed "ann" 100 in
  let m := mkMachine (mkWorld (mkEngine [ask] [] false 1 []) Idle) [] O in
  let m2 := fst (move (CancelRead (healthy 200)) (fst (move (CancelAsked 0) m))) in
  task m = [] /\
  orders (engine (world (fst (move (CancelAsked 0) m)))) = [ask] /\
  findById 0 (orders (engine (world m2))) = Some (withStatus ask canceled) /\
  task m2 = [].
Proof.
  intros ask m m2.
  destruct (cancelOrder_only_sets_status 0 (healthy 200) m eq_refl)
    as (W1 & _ & Ok & _).
  destruct (Ok eq_refl eq_refl) as (F & _ & _ & _ & _ & T).
  split; [reflexivity|]. split; [rewrite W1; reflexivity|].
  split; [exact F|exact T].
Defined.

(** A bid for 4 at 10 meets an ask of 5 at 10 and an ask of 2 at 9. *)
Lemma counterparty_is_another_order_of_the_other_side_witness :
  let ask1 := mkOrder 0 (dec 10) "5" "5" true processed "ann" 100 in
  let ask2 := mkOrder 1 (dec 9) "2" "2" true processed "bob" 200 in
  let bid := mkOrder 2 (dec 10) "4" "4" false unprocessed "cid" 300 in
  let r := mkRun (mkEngine [ask1; ask2; bid] [] true 3 []) 0 in
  NoDup (map _id (orders (eng r))) /\ In bid (orders (eng r)) /\
  List.length (passFills (processOrder (healthy 0) bid r)) = 2%nat /\
  Forall (fun m => _id (incoming m) = _id bid /\
                   _id (counterparty m) <> _id bid /\
                   isSelling (counterparty m) = negb (isSelling bid) /\
                   currentVolume (counterparty m) <> "0"%string)
         (passFills (processOrder (healthy 0) bid r)).
Proof.
  intros ask1 ask2 bid r.
  assert (ND : NoDup (map _id (orders (eng r)))) by exact nodup_ids_3.
  assert (I : In bid (orders (eng r))) by (cbn; auto).
  split; [exact ND|]. split; [exact I|]. split; [vm_compute; reflexivity|].
  exact (counterparty_is_another_order_of_the_other_side (healthy 0) bid r ND I).
Defined.


(** The pass of that bid ends with the bid exhausted. *)
Lemma processed_order_rests_only_uncrossed_witness :
  let ask1 := mkOrder 0 (dec 10) "5" "5" true processed "ann" 100 in
  let ask2 := mkOrder 1 (dec 9) "2" "2" true processed "bob" 200 in
  let bid := mkOrder 2 (dec 10) "4" "4" false unprocessed "cid" 300 in
  let r := mkRun (mkEngine [ask1; ask2; bid] [] true 3 []) 0 in
  let p := processOrder (healthy 0) bid r in
  NoDup (map _id (orders (eng r))) /\ In bid (orders (eng r)) /\
  passEnd p = Completed /\
  exists o, In o (orders (eng (passRun p))) /\
    _id o = _id bid /\ status o = processed /\
    ((exists ov, BigNumber (currentVolume o) = Some ov /\ BN.isPositive ov = false) \/
     findMatching o (orders (eng (passRun p))) = None).
Proof.
  intros ask1 ask2 bid r p.
  assert (ND : NoDup (map _id (orders (eng r)))) by exact nodup_ids_3.
  assert (I : In bid (orders (eng r))) by (cbn; auto).
  assert (E : passEnd p = Completed) by (vm_compute; reflexivity).
  split; [exact ND|]. split; [exact I|]. split; [exact E|].
  exact (processed_order_rests_only_uncrossed (healthy 0) bid r ND I E).
Defined.

(** The same book with the bid waiting: the drain processes it. *)
Lemma drain_processes_every_unprocessed_order_witness :
  let ask1 := mkOrder 0 (dec 10) "5" "5" true processed "ann" 100 in
  let ask2 := mkOrder 1 (dec 9) "2" "2" true processed "bob" 200 in
  let bid := mkOrder 2 (dec 10) "4" "4" false unprocessed "cid" 300 in
  let r := mkRun (mkEngine [ask1; ask2; bid] [] false 3 []) 0 in
  let d := matchNextOrder (healthy 0) r in
  answers (healthy 0) /\ NoDup (map _id (orders (eng r))) /\
  parses (orders (eng r)) /\ acceptedLimits (orders (eng r)) /\
  processing (eng r) = false /\
  pending (orders (eng r)) = 1%nat /\
  pending (orders (eng (drainRun d))) = O /\
  processing (eng (drainRun d)) = false /\
  console (eng (drainRun d)) = console (eng r) /\
  List.length (marketData (eng (drainRun d)))
    = (List.length (marketData (eng r)) + pending (orders (eng r)))%nat.
Proof.
  intros ask1 ask2 bid r d.
  assert (A : answers (healthy 0)) by (intros k; reflexivity).
  assert (ND : NoDup (map _id (orders (eng r)))) by exact nodup_ids_3.
  assert (P : parses (orders (eng r))).
  { intros o [<-|[<-|[<-|[]]]]; eexists; vm_compute; reflexivity. }
  assert (AL : acceptedLimits (orders (eng r))).
  { intros o [<-|[<-|[<-|[]]]]; vm_compute; reflexivity. }
  split; [exact A|]. split; [exact ND|]. split; [exact P|]. split; [exact AL|].
  split; [reflexivity|]. split; [reflexivity|].
  exact (drain_processes_every_unprocessed_order (healthy 0) r A ND P AL eq_refl).
Defined.

(** The snapshot of the pass of the bid: 3 left at 10 on the sell side,
    no bid resting. *)
Lemma snapshot_shows_top_of_book_witness :
  let ask1 := mkOrder 0 (dec 10) "5" "5" true processed "ann" 100 in
  let ask2 := mkOrder 1 (dec 9) "2" "2" true processed "bob" 200 in
  let bid := mkOrder 2 (dec 10) "4" "4" false unprocessed "cid" 300 in
  let r := mkRun (mkEngine [ask1; ask2; bid] [] true 3 []) 0 in
  let e' := eng (passRun (processOrder (healthy 0) bid r)) in
  passEnd (processOrder (healthy 0) bid r) = Completed /\
  map (fun s => (sellVolume s, sellPrice s, buyVolume s, buyPrice s)) (marketData e')
    = [("3"%string, "10"%string, ""%string, ""%string)] /\
  exists s,
    marketData e' = marketData (eng r) ++ [s] /\
    topOfBook true (orders e') (sellVolume s) (sellPrice s) /\
    topOfBook false (orders e') (buyVolume s) (buyPrice s).
Proof.
  intros ask1 ask2 bid r e'.
  assert (E : passEnd (processOrder (healthy 0) bid r) = Completed)
    by (vm_compute; reflexivity).
  split; [exact E|]. split; [vm_compute; reflexivity|].
  exact (snapshot_shows_top_of_book (healthy 0) bid r E).
Defined.

(** An ask has just been placed on the engine as constructed: its drain
    is at its query. *)
Lemma no_second_drain_is_started_witness :
  let ask := Called (PlaceOrder (healthy 100) (dec 10) "5" "ann" true) in
  let w := fst (reactAll [ask] initialWorld) in
  let fs := snd (reactAll [ask] initialWorld) in
  reachableWorld (fun _ => True) w fs /\ drain w = Picking /\
  processing (engine w) = true /\
  forall c, drain (fst (react (Called c) w)) = drain w.
Proof.
  intros ask w fs.
  assert (R : reachableWorld (fun _ => True) w fs).
  { apply reactAll_from_initial. repeat constructor. }
  assert (D : drain w = Picking) by (vm_compute; reflexivity).
  assert (N : drain w <> Idle) by (rewrite D; discriminate).
  split; [exact R|]. split; [exact D|].
  exact (no_second_drain_is_started (fun _ => True) w fs R N).
Defined.

(** The older copy with one bid waiting, and an ask that crosses it
    placed after the pass. *)
Lemma legacy_engine_stops_after_one_pass_witness :
  let bid := mkOrder 0 (dec 10) "4" "4" false unprocessed "cid" 100 in
  let e := mkEngine [bid] [] false 1 [] in
  let d := Legacy.matchNextOrderWithin 1 (healthy 0) (mkRun e 0) in
  let e' := eng (drainRun d) in
  let o := Legacy.placeOrder (healthy 200) (dec 9) "4" "ann" true e' in
  processing e = false /\ rejects (healthy 0) O = false /\
  findOne byCreatedAsc isUnprocessed (orders e) = Some bid /\
  processing e' = true /\
  fills o = [] /\ processing (after o) = true /\
  orders (after o)
    = orders e' ++ [mkOrder (nextId e') (dec 9) "4" "4" true unprocessed "ann"
                            (now (healthy 200) O)].
Proof.
  intros bid e d e' o.
  assert (F : findOne byCreatedAsc isUnprocessed (orders e) = Some bid)
    by (vm_compute; reflexivity).
  split; [reflexivity|]. split; [reflexivity|]. split; [exact F|].
  destruct (legacy_engine_stops_after_one_pass 1 (healthy 0) e 0 bid eq_refl eq_refl F)
    as (A & _ & C).
  split; [exact A|].
  exact (C (healthy 200) (dec 9) "4"%string "ann"%string true eq_refl eq_refl eq_refl).
Defined.


(** The bid for 4 takes the ask at 9 before the ask at 10. *)
Lemma pass_fills_best_price_first_witness :
  let ask1 := mkOrder 0 (dec 10) "5" "5" true processed "ann" 100 in
  let ask2 := mkOrder 1 (dec 9) "2" "2" true processed "bob" 200 in
  let bid := mkOrder 2 (dec 10) "4" "4" false unprocessed "cid" 300 in
  let r := mkRun (mkEngine [ask1; ask2; bid] [] true 3 []) 0 in
  NoDup (map _id (orders (eng r))) /\ In bid (orders (eng r)) /\
  map (fun m => _id (counterparty m)) (passFills (processOrder (healthy 0) bid r))
    = [1; 0]%nat /\
  bestFirst bid (counterpartyLimits (passFills (processOrder (healthy 0) bid r))).
Proof.
  intros ask1 ask2 bid r.
  assert (ND : NoDup (map _id (orders (eng r)))) by exact nodup_ids_3.
  assert (I : In bid (orders (eng r))) by (cbn; auto).
  split; [exact ND|]. split; [exact I|]. split; [vm_compute; reflexivity|].
  exact (pass_fills_best_price_first (healthy 0) bid r ND I).
Defined.
